(** * std-signals: the connection ring and the reentrant emission algorithm

    A shallow embedding of [signals.hpp].  Nodes live in a heap indexed by
    addresses; the ring is the doubly linked cycle through [m_next] and
    [m_prev] rooted at the sentinel [m_head].  Slots are programs over the
    signal's own public interface, so that a slot may connect, disconnect
    and emit on the signal that is invoking it; emission is a small-step
    machine whose stack holds one suspended [emit] loop per slot invocation
    that is currently active. *)

From stdpp Require Import gmap list fin_maps strings.
From Stdlib Require Import ZArith Lia.

Open Scope Z_scope.
Set Warnings "-register-all,-clear-no-such-hyp".
#[local] Set Default Proof Using "Type*".

(** ** Pointers *)

(** Addresses are natural numbers and address [0] is [nullptr]. *)
Definition ptr : Type := N.
Definition nullptr : ptr := 0%N.

(** [std::pair<details::signal_base*, void*>] *)
Definition connection_handler : Type := (ptr * ptr)%type.

(** [std::size_t]: the counter wraps around at [SIZE_MOD]. *)
Definition SIZE_MOD : Z := 2 ^ 64.
Definition size_incr (n : Z) : Z := (n + 1) mod SIZE_MOD.
Definition size_decr (n : Z) : Z := (n - 1) mod SIZE_MOD.

(** [operator new]: any function that returns a non-null address which is
    not in use.  Freed addresses may be handed out again. *)
Record allocator : Type := Allocator {
  new_addr : gset ptr → ptr;
  new_addr_fresh : ∀ X, new_addr X ∉ X;
  new_addr_nonnull : ∀ X, new_addr X ≠ nullptr
}.

Section Signal.

Context {Args Result Exn Tag : Type}.

(** ** Aggregations and controllers *)

(** An aggregation object: its state, [aggregate] and [get]. *)
Record aggregation : Type := Aggregation {
  agg_state : Type;
  agg_out : Type;
  agg_init : agg_state;
  aggregate : Result → agg_state → agg_state;
  agg_get : agg_state → agg_out
}.

(** A controller is called with the slot's result and answers whether the
    emission goes on.  The controllers of the library keep no state.  For
    [void] slots [Result] is [unit], and the two specialisations of
    [ConnectionInvoker] are one. *)
Definition controller : Type := Result → bool.

(** [condition_all]: go on whatever the slot returns. *)
Definition condition_all : controller := fun _ => true.

(** [aggregation_void]: the results are dropped. *)
Definition aggregation_void : aggregation :=
  {| agg_state := unit; agg_out := unit; agg_init := tt;
     aggregate := fun _ s => s; agg_get := fun s => s |}.

(** [aggregation_last]: the last result; [m_latest{}] is
    value-initialised, and [dflt] stands for [Result{}]. *)
Definition aggregation_last (dflt : Result) : aggregation :=
  {| agg_state := Result; agg_out := Result; agg_init := dflt;
     aggregate := fun r _ => r; agg_get := fun s => s |}.

(** [aggregation_collation]: every result, appended at the end. *)
Definition aggregation_collation : aggregation :=
  {| agg_state := list Result; agg_out := list Result; agg_init := [];
     aggregate := fun r s => s ++ [r]; agg_get := fun s => s |}.

(** [aggregation_counter]: a [std::size_t] incremented per result. *)
Definition aggregation_counter : aggregation :=
  {| agg_state := Z; agg_out := Z; agg_init := 0;
     aggregate := fun _ s => size_incr s; agg_get := fun s => s |}.

(** ** Slots *)

(** What the body of a slot (or the code that owns the signal) does, as far
    as the signal can see it: it returns, throws, writes to its own output,
    keeps connection handles in its own variables, and calls the public
    members of the signal.  Every call carries the rest of the body as a
    continuation of the call's result.  A body does not catch what the
    [emit] it calls throws.  [Connect] is [connect(slot_type)], to which
    the overloads for member functions come down; [Disconnect] and
    [Connected] are the overloads that take a [connection_handler]. *)
Inductive prog : Type :=
| Return (r : Result)
| Throw (e : Exn)
| Say (t : Tag) (k : prog)
| Load (x : nat) (k : connection_handler → prog)
| Store (x : nat) (c : connection_handler) (k : prog)
| Connect (f : option (Args → prog)) (k : connection_handler → prog)
| Disconnect (con : connection_handler) (k : bool → prog)
| Connected (con : connection_handler) (k : bool → prog)
| Emit (ag : aggregation) (ctl : controller) (args : Args)
       (k : agg_out ag → prog).

(** [std::function<Result(Args...)>]; [None] is the empty function. *)
Definition slot_type : Type := option (Args → prog).

(** ** Nodes and the signal *)

Record node : Type := Node {
  m_next : ptr;
  m_prev : ptr;
  m_function : slot_type
}.

(** The heap of nodes together with the members of [signal_base]. *)
Record world : Type := World {
  heap : gmap ptr node;
  m_head : ptr;
  m_recursionDepth : Z;
  m_deactivations : bool
}.

Definition set_heap (h : gmap ptr node) (w : world) : world :=
  World h (m_head w) (m_recursionDepth w) (m_deactivations w).
Definition set_head (p : ptr) (w : world) : world :=
  World (heap w) p (m_recursionDepth w) (m_deactivations w).
Definition set_depth (d : Z) (w : world) : world :=
  World (heap w) (m_head w) d (m_deactivations w).
Definition set_deactivations (b : bool) (w : world) : world :=
  World (heap w) (m_head w) (m_recursionDepth w) b.

(** [signal_base()] *)
Definition signal_new : world := World ∅ nullptr 0 false.

(** *** Field access through a pointer: [None] when the node is not live. *)

Definition get_next (p : ptr) (h : gmap ptr node) : option ptr :=
  m_next <$> h !! p.
Definition get_prev (p : ptr) (h : gmap ptr node) : option ptr :=
  m_prev <$> h !! p.
Definition get_function (p : ptr) (h : gmap ptr node) : option slot_type :=
  m_function <$> h !! p.

Definition set_next (p v : ptr) (h : gmap ptr node) : option (gmap ptr node) :=
  nd ← h !! p; Some (<[p := Node v (m_prev nd) (m_function nd)]> h).
Definition set_prev (p v : ptr) (h : gmap ptr node) : option (gmap ptr node) :=
  nd ← h !! p; Some (<[p := Node (m_next nd) v (m_function nd)]> h).
Definition set_function (p : ptr) (f : slot_type) (h : gmap ptr node)
  : option (gmap ptr node) :=
  nd ← h !! p; Some (<[p := Node (m_next nd) (m_prev nd) f]> h).

(** [new node_type{f}]: [node_base()] links the node to itself. *)
Definition new_node (al : allocator) (f : slot_type) (h : gmap ptr node)
  : ptr * gmap ptr node :=
  let p := new_addr al (dom h) in (p, <[p := Node p p f]> h).

(** [delete p] *)
Definition delete_node (p : ptr) (h : gmap ptr node) : option (gmap ptr node) :=
  _ ← h !! p; Some (delete p h).

(** *** [node_base] *)

(** [self->insert(nd)] *)
Definition insert (self nd : ptr) (h : gmap ptr node) : option (gmap ptr node) :=
  if decide (nd = nullptr) then Some h
  else
    p ← get_prev self h;
    h ← set_prev nd p h;
    h ← set_next nd self h;
    p ← get_prev self h;
    h ← set_next p nd h;
    set_prev self nd h.

(** [self->extract()] *)
Definition extract (self : ptr) (h : gmap ptr node) : option (gmap ptr node) :=
  n ← get_next self h;
  p ← get_prev self h;
  h ← set_prev n p h;
  p ← get_prev self h;
  n ← get_next self h;
  h ← set_next p n h;
  h ← set_next self nullptr h;
  set_prev self nullptr h.

(** [node::deactivate] *)
Definition deactivate (self : ptr) (h : gmap ptr node) : option (gmap ptr node) :=
  set_function self None h.

(** *** [signal_base] and [signal] *)

Variable this : ptr.

(** The scan of [disconnect(void* id)]:
    [while ( node != m_head.get() && node != id ) node = node->next();] *)
Fixpoint disconnect_scan (fuel : nat) (h : gmap ptr node) (head id nd : ptr)
  : option ptr :=
  if decide (nd ≠ head ∧ nd ≠ id) then
    match fuel with
    | O => None
    | S fuel' => n ← get_next nd h; disconnect_scan fuel' h head id n
    end
  else Some nd.

(** [signal_base::disconnect(void* id)].  A scan that ends visits every
    live node at most once, so [size (heap w)] rounds are enough for it. *)
Definition disconnect_id (id : ptr) (w : world) : option (bool * world) :=
  if decide (m_head w ≠ nullptr) then
    start ← get_next (m_head w) (heap w);
    nd ← disconnect_scan (size (heap w)) (heap w) (m_head w) id start;
    if decide (nd = id) then
      if decide (m_recursionDepth w = 0) then
        h ← extract nd (heap w);
        h ← delete_node nd h;
        Some (true, set_heap h w)
      else
        h ← deactivate nd (heap w);
        Some (true, set_deactivations true (set_heap h w))
    else Some (false, w)
  else Some (false, w).

(** [signal_base::disconnect(const connection_handler &)] *)
Definition disconnect (con : connection_handler) (w : world)
  : option (bool * world) :=
  if decide (con.1 ≠ this) then Some (false, w) else disconnect_id con.2 w.

(** The scan of [connected(void* id)]. *)
Fixpoint connected_scan (fuel : nat) (h : gmap ptr node) (head id nd : ptr)
  : option bool :=
  if decide (nd = head) then Some false
  else if decide (nd = id) then Some true
  else match fuel with
       | O => None
       | S fuel' => n ← get_next nd h; connected_scan fuel' h head id n
       end.

(** [signal_base::connected(void* id)] *)
Definition connected_id (id : ptr) (w : world) : option bool :=
  if decide (m_head w ≠ nullptr) then
    start ← get_next (m_head w) (heap w);
    connected_scan (size (heap w)) (heap w) (m_head w) id start
  else Some false.

(** [signal_base::connected(const connection_handler &)] *)
Definition connected (con : connection_handler) (w : world) : option bool :=
  if decide (con.1 ≠ this) then Some false else connected_id con.2 w.

Variable al : allocator.

(** [signal::connect(slot_type f)] *)
Definition connect (f : slot_type) (w : world)
  : option (connection_handler * world) :=
  let w :=
    if decide (m_head w = nullptr) then
      let '(p, h) := new_node al None (heap w) in set_head p (set_heap h w)
    else w in
  let '(p, h) := new_node al f (heap w) in
  h ← insert (m_head w) p h;
  Some ((this, p), set_heap h w).

(** [signal::connect(C & obj, Result (C::*mf)(Args...))]: the slot is the
    closure that calls [mf] on [obj]. *)
Definition connect_ref {C : Type} (obj : C) (mf : C → Args → prog) (w : world)
  : option (connection_handler * world) :=
  connect (Some (mf obj)) w.

(** [signal::connect(C * obj, Result (C::*mf)(Args...))]: a null [obj] is
    [None]. *)
Definition connect_ptr {C : Type} (obj : option C) (mf : C → Args → prog)
  (w : world) : option (connection_handler * world) :=
  match obj with
  | Some o => connect_ref o mf w
  | None => Some ((nullptr, nullptr), w)
  end.

(** ** Emission *)

(** The tail of [emit]: once the walk is over, the deactivated nodes are
    deleted if no slot of this signal is running any more. *)
Fixpoint sweep (fuel : nat) (head nd : ptr) (h : gmap ptr node)
  : option (gmap ptr node) :=
  if decide (nd ≠ head) then
    match fuel with
    | O => None
    | S fuel' =>
        next ← get_next nd h;
        f ← get_function nd h;
        h ← match f with
            | None => h ← extract nd h; delete_node nd h
            | Some _ => Some h
            end;
        sweep fuel' head next h
    end
  else Some h.

Definition emit_finish (w : world) : option world :=
  if decide (m_recursionDepth w = 0 ∧ m_deactivations w = true) then
    start ← get_next (m_head w) (heap w);
    h ← sweep (size (heap w)) (m_head w) start (heap w);
    Some (set_deactivations false (set_heap h w))
  else Some w.

(** One [emit] in progress: its aggregation object, what the caller does
    with the result, the controller, the arguments, the cursor [node] and
    the loop variable [ok]. *)
Record frame : Type := Frame {
  f_ag : aggregation;
  f_acc : agg_state f_ag;
  f_k : agg_out f_ag → prog;
  f_ctl : controller;
  f_args : Args;
  f_node : ptr;
  f_ok : bool
}.

(** The frame after one round of the loop. *)
Definition frame_next (fr : frame) (acc : agg_state (f_ag fr)) (nd : ptr)
  (ok : bool) : frame :=
  Frame (f_ag fr) acc (f_k fr) (f_ctl fr) (f_args fr) nd ok.

(** Either some code is running, or an [emit] is at the head of its loop. *)
Inductive control : Type :=
| Run (p : prog)
| Loop (fr : frame).

(** A configuration.  [stack] holds the [emit] loops that are waiting for
    the slot they called, innermost first: its length is the number of slot
    invocations on the call stack.  [accu] is what the slots have written,
    [vars] the variables in which they keep handles, and [invoked] lists the
    nodes whose slot has been called, in the order of the calls. *)
Record config : Type := Config {
  ctl : control;
  stack : list frame;
  st : world;
  accu : list Tag;
  vars : gmap nat connection_handler;
  invoked : list ptr
}.

Definition enter (w : world) : world :=
  set_depth (size_incr (m_recursionDepth w)) w.
Definition leave (w : world) : world :=
  set_depth (size_decr (m_recursionDepth w)) w.

(** One step.  [None] is the end of the program ([Return] or [Throw] with
    an empty stack) or the use of a pointer to a node that is not live.  A
    slot that has been called runs to its end, also when its node is
    deactivated meanwhile: the body is in [ctl], not read again from the
    node. *)
Definition step (c : config) : option config :=
  let w := st c in
  match ctl c with
  | Run (Return r) =>
      (* the slot returns into [ConnectionInvoker::invoke]; then
         [node = node->next()] and the scoped increment ends *)
      match stack c with
      | [] => None
      | fr :: stk =>
          let ok := f_ctl fr r in
          let acc := aggregate (f_ag fr) r (f_acc fr) in
          n ← get_next (f_node fr) (heap w);
          Some (Config (Loop (frame_next fr acc n ok)) stk (leave w)
                  (accu c) (vars c) (invoked c))
      end
  | Run (Throw e) =>
      (* unwinding leaves the loop body, the scoped increment ends, and
         [emit] passes the exception on to the code that called it *)
      match stack c with
      | [] => None
      | fr :: stk =>
          Some (Config (Run (Throw e)) stk (leave w)
                  (accu c) (vars c) (invoked c))
      end
  | Run (Say t k) =>
      Some (Config (Run k) (stack c) w (accu c ++ [t]) (vars c) (invoked c))
  | Run (Load x k) =>
      Some (Config (Run (k (default (nullptr, nullptr) (vars c !! x))))
              (stack c) w (accu c) (vars c) (invoked c))
  | Run (Store x con k) =>
      Some (Config (Run k) (stack c) w (accu c) (<[x := con]> (vars c))
              (invoked c))
  | Run (Connect f k) =>
      '(con, w') ← connect f w;
      Some (Config (Run (k con)) (stack c) w' (accu c) (vars c) (invoked c))
  | Run (Disconnect con k) =>
      '(b, w') ← disconnect con w;
      Some (Config (Run (k b)) (stack c) w' (accu c) (vars c) (invoked c))
  | Run (Connected con k) =>
      b ← connected con w;
      Some (Config (Run (k b)) (stack c) w (accu c) (vars c) (invoked c))
  | Run (Emit ag ctl args k) =>
      if decide (m_head w ≠ nullptr) then
        start ← get_next (m_head w) (heap w);
        Some (Config (Loop (Frame ag (agg_init ag) k ctl args start true))
                (stack c) w (accu c) (vars c) (invoked c))
      else
        Some (Config (Run (k (agg_get ag (agg_init ag)))) (stack c) w
                (accu c) (vars c) (invoked c))
  | Loop fr =>
      if decide (f_node fr ≠ m_head w ∧ f_ok fr = true) then
        let w1 := enter w in
        f ← get_function (f_node fr) (heap w1);
        match f with
        | Some f =>
            Some (Config (Run (f (f_args fr))) (fr :: stack c) w1
                    (accu c) (vars c) (invoked c ++ [f_node fr]))
        | None =>
            n ← get_next (f_node fr) (heap w1);
            Some (Config (Loop (frame_next fr (f_acc fr) n (f_ok fr)))
                    (stack c) (leave w1) (accu c) (vars c) (invoked c))
        end
      else
        w' ← emit_finish w;
        Some (Config (Run (f_k fr (agg_get (f_ag fr) (f_acc fr))))
                (stack c) w' (accu c) (vars c) (invoked c))
  end.

(** [steps n c]: the configuration after [n] steps, or the one in which the
    run has stopped before. *)
Fixpoint steps (n : nat) (c : config) : config :=
  match n with
  | O => c
  | S n' => match step c with
            | Some c' => steps n' c'
            | None => c
            end
  end.

(** [c'] is the configuration after some number of steps from [c]. *)
Definition reaches (c c' : config) : Prop := ∃ n, steps n c = c'.

(** The start of a program on a signal in state [w]. *)
Definition start_config (p : prog) (w : world) : config :=
  Config (Run p) [] w [] ∅ [].

(** ** The ring, as the code keeps it *)

(** [linked h a l z]: following [m_next] from [a] leads through the nodes of
    [l], in this order, to [z], and [m_prev] leads the same way back. *)
Fixpoint linked (h : gmap ptr node) (a : ptr) (l : list ptr) (z : ptr) : Prop :=
  match l with
  | [] => get_next a h = Some z ∧ get_prev z h = Some a
  | x :: l' => get_next a h = Some x ∧ get_prev x h = Some a ∧ linked h x l' z
  end.

(** The ring rooted at the sentinel [head] whose other nodes are [l], in
    the order of [m_next]. *)
Definition ring (h : gmap ptr node) (head : ptr) (l : list ptr) : Prop :=
  NoDup (head :: l) ∧ linked h head l head.

(** The nodes of the signal: none before the first [connect], which makes
    the sentinel. *)
Definition ring_of (w : world) (l : list ptr) : Prop :=
  if decide (m_head w = nullptr) then l = [] else ring (heap w) (m_head w) l.

(** A node whose slot has been emptied. *)
Definition empty_slot (h : gmap ptr node) (x : ptr) : bool :=
  match get_function x h with
  | Some None => true
  | _ => false
  end.

(** The nodes of [l] that still hold a slot. *)
Definition active (h : gmap ptr node) (l : list ptr) : list ptr :=
  filter (λ x, empty_slot h x = false) l.

(** [h'] is [h] with the same live nodes and the given fields. *)
Record updates (h h' : gmap ptr node) (nx pv : ptr → option ptr)
    (fn : ptr → option slot_type) : Prop := {
  upd_dom : dom h' = dom h;
  upd_next : ∀ u, get_next u h' = nx u;
  upd_prev : ∀ u, get_prev u h' = pv u;
  upd_function : ∀ u, get_function u h' = fn u
}.

(** ** Well-formed configurations *)

(** The cursor of a loop at its head is a node of the ring or the
    sentinel. *)
Definition cursor_ok (w : world) (l : list ptr) (c : control) : Prop :=
  match c with
  | Run _ => True
  | Loop fr => m_head w ≠ nullptr ∧ f_node fr ∈ m_head w :: l
  end.

(** [Inv c l]: the nodes of the signal are [l]; the counter is the number
    of slot invocations on the stack, which [std::size_t] can hold; and
    every loop stands on a node of the ring. *)
Record Inv (c : config) (l : list ptr) : Prop := {
  inv_ring : ring_of (st c) l;
  inv_depth : m_recursionDepth (st c) = Z.of_nat (length (stack c));
  inv_bound : Z.of_nat (length (stack c)) < SIZE_MOD;
  inv_cursor : cursor_ok (st c) l (ctl c);
  inv_stack : Forall (λ fr, f_node fr ∈ l) (stack c)
}.

(** The code that owns the signal hands [disconnect] the address of the
    sentinel while no slot is running. *)
Definition disconnects_sentinel (c : config) : Prop :=
  stack c = [] ∧ m_head (st c) ≠ nullptr ∧
  ∃ k, ctl c = Run (Disconnect (this, m_head (st c)) k).

(** What the step from [c] to a configuration with world [w'] does to the
    ring [l] of the signal: nothing; [connect] adds a node at the end;
    [disconnect] removes a node, or empties its slot while a slot is
    running; the end of the outermost [emit] removes the emptied nodes. *)
Inductive change (c : config) (w' : world) (l l' : list ptr) : Prop :=
| ch_none :
    heap w' = heap (st c) → m_deactivations w' = m_deactivations (st c) →
    l' = l →
    change c w' l l'
| ch_connect f p k :
    ctl c = Run (Connect f k) →
    l' = l ++ [p] → p ∉ l → heap (st c) !! p = None →
    get_function p (heap w') = Some f →
    (∀ u, u ∈ l → get_function u (heap w') = get_function u (heap (st c))) →
    m_deactivations w' = m_deactivations (st c) →
    change c w' l l'
| ch_remove l1 x l2 k :
    ctl c = Run (Disconnect (this, x) k) →
    m_recursionDepth (st c) = 0 →
    l = l1 ++ x :: l2 → l' = l1 ++ l2 → heap w' !! x = None →
    (∀ u, u ≠ x → get_function u (heap w') = get_function u (heap (st c))) →
    m_deactivations w' = m_deactivations (st c) →
    change c w' l l'
| ch_deactivate x k :
    ctl c = Run (Disconnect (this, x) k) →
    m_recursionDepth (st c) ≠ 0 →
    x ∈ m_head (st c) :: l → l' = l →
    get_function x (heap w') = Some None →
    (∀ u, u ≠ x → get_function u (heap w') = get_function u (heap (st c))) →
    m_deactivations w' = true →
    change c w' l l'
| ch_sweep fr :
    ctl c = Loop fr →
    ¬ (f_node fr ≠ m_head (st c) ∧ f_ok fr = true) →
    m_recursionDepth (st c) = 0 → m_deactivations (st c) = true →
    l' = active (heap (st c)) l →
    (∀ u, u ∈ l → empty_slot (heap (st c)) u = true → heap w' !! u = None) →
    (∀ u, ¬ (u ∈ l ∧ empty_slot (heap (st c)) u = true) →
          get_function u (heap w') = get_function u (heap (st c))) →
    m_deactivations w' = false →
    change c w' l l'.

(** ** Runs *)

(** A step of a run in which the owner of the signal does not hand the
    sentinel to [disconnect] and the call stack stays within
    [std::size_t]. *)
Definition sstep (c c' : config) : Prop :=
  step c = Some c' ∧ ¬ disconnects_sentinel c ∧
  Z.of_nat (length (stack c')) < SIZE_MOD.

(** A step of a run whose call stack stays within [std::size_t]. *)
Definition bstep (c c' : config) : Prop :=
  step c = Some c' ∧ Z.of_nat (length (stack c')) < SIZE_MOD.

(** An emission is under way: a slot is running, or the outermost [emit]
    is at the head of its loop and will go round once more. *)
Definition emitting (c : config) : Prop :=
  stack c ≠ [] ∨
  ∃ fr, ctl c = Loop fr ∧ f_node fr ≠ m_head (st c) ∧ f_ok fr = true.

(** A step made while an emission is under way. *)
Definition emission_step (c c' : config) : Prop :=
  bstep c c' ∧ emitting c.

(** How one step moves the call stack and the counter. *)
Inductive counter_move (c c' : config) : Prop :=
| cm_call fr g :
    ctl c = Loop fr → ctl c' = Run (g (f_args fr)) →
    get_function (f_node fr) (heap (st c)) = Some (Some g) →
    stack c' = fr :: stack c →
    m_recursionDepth (st c') = size_incr (m_recursionDepth (st c)) →
    counter_move c c'
| cm_return fr :
    ((∃ r, ctl c = Run (Return r)) ∨ (∃ e, ctl c = Run (Throw e))) →
    stack c = fr :: stack c' →
    m_recursionDepth (st c') = size_decr (m_recursionDepth (st c)) →
    counter_move c c'
| cm_skip fr :
    ctl c = Loop fr →
    get_function (f_node fr) (heap (st c)) = Some None →
    stack c' = stack c →
    m_recursionDepth (st c')
      = size_decr (size_incr (m_recursionDepth (st c))) →
    counter_move c c'
| cm_stay :
    stack c' = stack c →
    m_recursionDepth (st c') = m_recursionDepth (st c) →
    counter_move c c'.

(** What a step does to a counter that counts the stack. *)
Definition counter_step (c c' : config) : Prop :=
  m_recursionDepth (st c') = Z.of_nat (length (stack c')) ∧
  ((∃ fr g, ctl c = Loop fr ∧ ctl c' = Run (g (f_args fr)) ∧
      get_function (f_node fr) (heap (st c)) = Some (Some g) ∧
      stack c' = fr :: stack c ∧
      m_recursionDepth (st c') = m_recursionDepth (st c) + 1) ∨
   (∃ fr, ((∃ r, ctl c = Run (Return r)) ∨ (∃ e, ctl c = Run (Throw e))) ∧
      stack c = fr :: stack c' ∧
      m_recursionDepth (st c') = m_recursionDepth (st c) - 1) ∨
   (stack c' = stack c ∧
      m_recursionDepth (st c') = m_recursionDepth (st c))).

(** [x] is one of the nodes of the signal, the sentinel apart. *)
Definition in_ring (w : world) (x : ptr) : Prop :=
  ∃ l, ring_of w l ∧ x ∈ l.

(** [emptied x c0 c]: in the run from [c0] to [c] there is a step in which
    [x] was a node of the ring and [disconnect] was called on it while a
    slot was running, or in which [connect] made [x] for an empty
    function; and [x] has been in the ring ever since. *)
Inductive emptied (x : ptr) (c0 : config) : config → Prop :=
| emptied_deferred c c' k :
    rtc sstep c0 c → sstep c c' →
    ctl c = Run (Disconnect (this, x) k) →
    m_recursionDepth (st c) ≠ 0 → in_ring (st c) x →
    emptied x c0 c'
| emptied_connect c c' k :
    rtc sstep c0 c → sstep c c' →
    ctl c = Run (Connect None k) →
    ¬ in_ring (st c) x → in_ring (st c') x →
    emptied x c0 c'
| emptied_still c c' :
    emptied x c0 c → sstep c c' → in_ring (st c') x →
    emptied x c0 c'.

(** ** Slots that leave the signal alone *)

(** Write [ts], then return [r]. *)
Fixpoint says (ts : list Tag) (r : Result) : prog :=
  match ts with
  | [] => Return r
  | t :: ts' => Say t (says ts' r)
  end.

(** The slot that writes [out args] and returns [res args]. *)
Definition quiet (out : Args → list Tag) (res : Args → Result)
  : Args → prog :=
  fun args => says (out args) (res args).

(** What a node holds: nothing, or a quiet slot. *)
Definition descr : Type :=
  (ptr * option ((Args → list Tag) * (Args → Result)))%type.

Definition descr_slot (d : descr) : slot_type :=
  match d.2 with
  | None => None
  | Some (out, res) => Some (quiet out res)
  end.

Definition holds (h : gmap ptr node) (ds : list descr) : Prop :=
  Forall (λ d, get_function d.1 h = Some (descr_slot d)) ds.

(** The nodes that an emission over [ds] calls, what their slots write
    and what they return, in the order of the calls. *)
Definition called (ds : list descr) : list ptr :=
  omap (λ d : descr, match d.2 with Some _ => Some d.1 | None => None end) ds.

Definition outputs (args : Args) (ds : list descr) : list Tag :=
  mjoin (omap (λ d : descr,
                 match d.2 with Some (out, _) => Some (out args) | None => None end)
           ds).

Definition results (args : Args) (ds : list descr) : list Result :=
  omap (λ d : descr,
          match d.2 with Some (_, res) => Some (res args) | None => None end)
    ds.

(** The aggregation object after the results [rs]. *)
Definition aggregate_all (ag : aggregation) (rs : list Result)
  (acc : agg_state ag) : agg_state ag :=
  foldl (λ acc r, aggregate ag r acc) acc rs.

(** The part of [ds] over which an emission with controller [ctrl] goes:
    up to and including the first slot whose result [ctrl] rejects. *)
Fixpoint walked (ctrl : controller) (args : Args) (ds : list descr)
  : list descr :=
  match ds with
  | [] => []
  | d :: ds' =>
      match d.2 with
      | None => d :: walked ctrl args ds'
      | Some (_, res) =>
          if ctrl (res args) then d :: walked ctrl args ds' else [d]
      end
  end.

(** What the nodes of [ds] hold once [disconnect] has emptied the slot of
    [x]. *)
Definition deactivated (x : ptr) (ds : list descr) : list descr :=
  (λ d : descr, if decide (d.1 = x) then (d.1, None) else d) <$> ds.

(** A step of a run that is not a call of [disconnect] for the node
    [x]. *)
Definition sparing (x : ptr) (c c' : config) : Prop :=
  sstep c c' ∧ ∀ k, ctl c ≠ Run (Disconnect (this, x) k).

(** ** The memory of the signal *)

(** The nodes that the signal has allocated and not deleted: its sentinel
    and the nodes of its ring. *)
Definition nodes (w : world) (l : list ptr) : list ptr :=
  if decide (m_head w = nullptr) then [] else m_head w :: l.

(** The rest of the heap. *)
Definition outside (w : world) (l : list ptr) : gmap ptr node :=
  filter (λ un, un.1 ∉ nodes w l) (heap w).

(** ** Construction and destruction *)

(** [signal(slot_type f)]: [signal()], then [connect(std::move(f))], whose
    handle is dropped. *)
Definition signal_with (f : slot_type) : option world :=
  '(_, w) ← connect f signal_new; Some w.

(** The test of the loop of [~signal]:
    [m_head->next() != m_head.get()]. *)
Definition destroy_test (w : world) : option bool :=
  n ← get_next (m_head w) (heap w); Some (bool_decide (n ≠ m_head w)).

(** The body of the loop: [disconnect(m_head->next())], whose result is
    dropped. *)
Definition destroy_body (w : world) : option world :=
  n ← get_next (m_head w) (heap w);
  '(_, w') ← disconnect_id n w;
  Some w'.

(** The loop.  [None] is the use of a node that is not live, or a loop
    that is still going round when [fuel] is used up. *)
Fixpoint destroy_loop (fuel : nat) (w : world) : option world :=
  b ← destroy_test w;
  if b : bool then
    match fuel with
    | O => None
    | S fuel' => w' ← destroy_body w; destroy_loop fuel' w'
    end
  else Some w.

(** [~signal()], followed by the destructor of [m_head], whose deleter
    deletes the sentinel if there is one.  The result is the heap that the
    signal leaves behind. *)
Definition destroy (fuel : nat) (w : world) : option (gmap ptr node) :=
  if decide (m_head w ≠ nullptr) then
    w' ← destroy_loop fuel w;
    delete_node (m_head w') (heap w')
  else Some (heap w).

End Signal.

(** [condition_while<Result, T>] calls [result == T]; here for [bool]
    results. *)
Definition condition_while (T : bool) : @controller bool :=
  fun result => Bool.eqb result T.

(** ** A concrete allocator: the least address that is neither null nor in
    use. *)

Definition least_free (X : gset ptr) : ptr := fresh ({[nullptr]} ∪ X).

Lemma least_free_fresh X : least_free X ∉ X.
Proof.
  unfold least_free. pose proof (is_fresh ({[nullptr]} ∪ X)). set_solver.
Qed.

Lemma least_free_nonnull X : least_free X ≠ nullptr.
Proof.
  unfold least_free. pose proof (is_fresh ({[nullptr]} ∪ X)). set_solver.
Qed.

Definition first_fit : allocator :=
  Allocator least_free least_free_fresh least_free_nonnull.


(** * Reasoning about the heap *)

Section Heap.

Context {Args Result Exn Tag : Type}.
Abbreviation node_t := (@node Args Result Exn Tag).
Implicit Types h : gmap ptr node_t.
Implicit Types p u v x a z head : ptr.
Implicit Types l : list ptr.

Lemma live_get_next p h : is_Some (h !! p) ↔ is_Some (get_next p h).
Proof. unfold get_next. by rewrite fmap_is_Some. Qed.

Lemma live_get_prev p h : is_Some (h !! p) ↔ is_Some (get_prev p h).
Proof. unfold get_prev. by rewrite fmap_is_Some. Qed.

Lemma live_get_function p h : is_Some (h !! p) ↔ is_Some (get_function p h).
Proof. unfold get_function. by rewrite fmap_is_Some. Qed.

Lemma live_dom p h h' : dom h' = dom h → is_Some (h !! p) → is_Some (h' !! p).
Proof. intros E. rewrite <- !elem_of_dom. by rewrite E. Qed.

Lemma updates_live p h h' nx pv fn :
  updates h h' nx pv fn → is_Some (h !! p) → is_Some (h' !! p).
Proof. intros U. apply live_dom, U. Qed.

Lemma set_next_spec p v h :
  is_Some (h !! p) →
  ∃ h', set_next p v h = Some h' ∧
    updates h h' (λ u, if decide (u = p) then Some v else get_next u h)
      (λ u, get_prev u h) (λ u, get_function u h).
Proof.
  intros [nd Hnd]. unfold set_next. rewrite Hnd. simpl.
  eexists; split; [done|]. split.
  - rewrite dom_insert_L. apply elem_of_dom_2 in Hnd. set_solver.
  - intros u. unfold get_next. rewrite lookup_insert.
    by destruct (decide (p = u)); case_decide; simplify_eq.
  - intros u. unfold get_prev. rewrite lookup_insert.
    destruct (decide (p = u)) as [<-|]; [by rewrite Hnd|done].
  - intros u. unfold get_function. rewrite lookup_insert.
    destruct (decide (p = u)) as [<-|]; [by rewrite Hnd|done].
Qed.

Lemma set_prev_spec p v h :
  is_Some (h !! p) →
  ∃ h', set_prev p v h = Some h' ∧
    updates h h' (λ u, get_next u h)
      (λ u, if decide (u = p) then Some v else get_prev u h)
      (λ u, get_function u h).
Proof.
  intros [nd Hnd]. unfold set_prev. rewrite Hnd. simpl.
  eexists; split; [done|]. split.
  - rewrite dom_insert_L. apply elem_of_dom_2 in Hnd. set_solver.
  - intros u. unfold get_next. rewrite lookup_insert.
    destruct (decide (p = u)) as [<-|]; [by rewrite Hnd|done].
  - intros u. unfold get_prev. rewrite lookup_insert.
    by destruct (decide (p = u)); case_decide; simplify_eq.
  - intros u. unfold get_function. rewrite lookup_insert.
    destruct (decide (p = u)) as [<-|]; [by rewrite Hnd|done].
Qed.

Lemma set_function_spec p f h :
  is_Some (h !! p) →
  ∃ h', set_function p f h = Some h' ∧
    updates h h' (λ u, get_next u h) (λ u, get_prev u h)
      (λ u, if decide (u = p) then Some f else get_function u h).
Proof.
  intros [nd Hnd]. unfold set_function. rewrite Hnd. simpl.
  eexists; split; [done|]. split.
  - rewrite dom_insert_L. apply elem_of_dom_2 in Hnd. set_solver.
  - intros u. unfold get_next. rewrite lookup_insert.
    destruct (decide (p = u)) as [<-|]; [by rewrite Hnd|done].
  - intros u. unfold get_prev. rewrite lookup_insert.
    destruct (decide (p = u)) as [<-|]; [by rewrite Hnd|done].
  - intros u. unfold get_function. rewrite lookup_insert.
    by destruct (decide (p = u)); case_decide; simplify_eq.
Qed.

(** Rewriting with what a chain of updates has established. *)
Ltac upd_rewrite :=
  repeat match goal with
  | U : updates _ ?h' _ _ _ |- context [get_next _ ?h'] => rewrite (upd_next _ _ _ _ _ U)
  | U : updates _ ?h' _ _ _ |- context [get_prev _ ?h'] => rewrite (upd_prev _ _ _ _ _ U)
  | U : updates _ ?h' _ _ _ |- context [get_function _ ?h'] => rewrite (upd_function _ _ _ _ _ U)
  | U : updates _ ?h' _ _ _ |- context [dom ?h'] => rewrite (upd_dom _ _ _ _ _ U)
  end.

Ltac upd_live := repeat (eapply updates_live; [eassumption|]); try done.

Lemma insert_spec h self nd p :
  nd ≠ nullptr → get_prev self h = Some p → is_Some (h !! nd) →
  is_Some (h !! p) → nd ≠ self → nd ≠ p →
  ∃ h', insert self nd h = Some h' ∧
    updates h h'
      (λ u, if decide (u = nd) then Some self
            else if decide (u = p) then Some nd else get_next u h)
      (λ v, if decide (v = self) then Some nd
            else if decide (v = nd) then Some p else get_prev v h)
      (λ u, get_function u h).
Proof.
  intros Hnn Hp Hn Hpl Hns Hnp.
  assert (Hsl : is_Some (h !! self)) by (apply live_get_prev; by rewrite Hp).
  unfold insert. rewrite decide_False by done. rewrite Hp. simpl.
  destruct (set_prev_spec nd p h) as (h1 & -> & U1); [done|]. simpl.
  destruct (set_next_spec nd self h1) as (h2 & -> & U2); [upd_live|]. simpl.
  upd_rewrite. rewrite decide_False, Hp by done. simpl.
  destruct (set_next_spec p nd h2) as (h3 & -> & U3); [upd_live|]. simpl.
  destruct (set_prev_spec self nd h3) as (h4 & -> & U4); [upd_live|].
  eexists; split; [done|]. split.
  - by upd_rewrite.
  - intros u. upd_rewrite. repeat case_decide; simplify_eq; done.
  - intros u. upd_rewrite. repeat case_decide; simplify_eq; done.
  - intros u. by upd_rewrite.
Qed.

Lemma extract_spec h x n p :
  get_next x h = Some n → get_prev x h = Some p →
  is_Some (h !! n) → is_Some (h !! p) →
  ∃ h', extract x h = Some h' ∧
    updates h h'
      (λ u, if decide (u = x) then Some nullptr
            else if decide (u = p) then Some n else get_next u h)
      (λ v, if decide (v = x) then Some nullptr
            else if decide (v = n) then Some p else get_prev v h)
      (λ u, get_function u h).
Proof.
  intros Hn Hp Hnl Hpl.
  assert (Hxl : is_Some (h !! x)) by (apply live_get_prev; by rewrite Hp).
  unfold extract. rewrite Hn, Hp. simpl.
  destruct (set_prev_spec n p h) as (h1 & -> & U1); [done|]. simpl.
  upd_rewrite.
  assert ((if decide (x = n) then Some p else get_prev x h) = Some p) as ->
    by (case_decide; done).
  simpl. rewrite Hn. simpl.
  destruct (set_next_spec p n h1) as (h2 & -> & U2); [upd_live|]. simpl.
  destruct (set_next_spec x nullptr h2) as (h3 & -> & U3); [upd_live|]. simpl.
  destruct (set_prev_spec x nullptr h3) as (h4 & -> & U4); [upd_live|].
  eexists; split; [done|]. split.
  - by upd_rewrite.
  - intros u. upd_rewrite. repeat case_decide; simplify_eq; done.
  - intros u. upd_rewrite. repeat case_decide; simplify_eq; done.
  - intros u. by upd_rewrite.
Qed.

Lemma delete_node_spec p h :
  is_Some (h !! p) →
  delete_node p h = Some (delete p h).
Proof. intros [nd Hnd]. unfold delete_node. by rewrite Hnd. Qed.

Lemma get_next_delete p u h : u ≠ p → get_next u (delete p h) = get_next u h.
Proof. intros. unfold get_next. by rewrite lookup_delete_ne. Qed.

Lemma get_prev_delete p u h : u ≠ p → get_prev u (delete p h) = get_prev u h.
Proof. intros. unfold get_prev. by rewrite lookup_delete_ne. Qed.

Lemma get_function_delete p u h :
  u ≠ p → get_function u (delete p h) = get_function u h.
Proof. intros. unfold get_function. by rewrite lookup_delete_ne. Qed.

Lemma get_next_new p u nd h :
  u ≠ p → get_next u (<[p := nd]> h) = get_next u h.
Proof. intros. unfold get_next. by rewrite lookup_insert_ne. Qed.

Lemma get_prev_new p u nd h :
  u ≠ p → get_prev u (<[p := nd]> h) = get_prev u h.
Proof. intros. unfold get_prev. by rewrite lookup_insert_ne. Qed.

Lemma get_function_new p u nd h :
  u ≠ p → get_function u (<[p := nd]> h) = get_function u h.
Proof. intros. unfold get_function. by rewrite lookup_insert_ne. Qed.

(** ** Paths and rings *)

Lemma linked_app h a l1 x l2 z :
  linked h a (l1 ++ x :: l2) z ↔ linked h a l1 x ∧ linked h x l2 z.
Proof.
  revert a. induction l1 as [|y l1 IH]; intros a; simpl.
  - tauto.
  - rewrite IH. tauto.
Qed.

Lemma linked_snoc h a l p z :
  linked h a (l ++ [p]) z ↔
  linked h a l p ∧ get_next p h = Some z ∧ get_prev z h = Some p.
Proof. by rewrite linked_app. Qed.

Lemma linked_frame h h' a l z :
  (∀ u, u ∈ a :: l → get_next u h' = get_next u h) →
  (∀ v, v ∈ l ++ [z] → get_prev v h' = get_prev v h) →
  linked h a l z → linked h' a l z.
Proof.
  revert a. induction l as [|x l IH]; intros a Hn Hp; simpl.
  - intros [H1 H2]. rewrite Hn, Hp by set_solver. done.
  - intros (H1 & H2 & H3). rewrite Hn, Hp by set_solver.
    split_and!; [done..|]. apply IH; [| |done]; intros; set_solver.
Qed.

Lemma linked_next h a l z : linked h a l z → get_next a h = Some (hd z l).
Proof. destruct l; simpl; tauto. Qed.

Lemma linked_prev h a l z :
  linked h a l z → get_prev z h = Some (default a (last l)).
Proof.
  destruct l as [|p l _] using rev_ind; simpl.
  - tauto.
  - rewrite linked_snoc, last_snoc. simpl. tauto.
Qed.

Lemma linked_live h a l z u :
  linked h a l z → u ∈ a :: l → is_Some (h !! u).
Proof.
  revert a. induction l as [|x l IH]; intros a; simpl.
  - intros [H1 _] ->%list_elem_of_singleton. apply live_get_next. by rewrite H1.
  - intros (H1 & _ & H3) [->|Hu]%elem_of_cons.
    + apply live_get_next. by rewrite H1.
    + by apply (IH x).
Qed.

Lemma linked_inj h a l l' z :
  z ∉ l → z ∉ l' → linked h a l z → linked h a l' z → l = l'.
Proof.
  revert a l'. induction l as [|x l IH]; intros a [|x' l'] Hl Hl'; simpl.
  - done.
  - intros [H1 _] (H2 & _). rewrite H1 in H2. set_solver.
  - intros (H1 & _) [H2 _]. rewrite H1 in H2. set_solver.
  - intros (H1 & _ & H3) (H2 & _ & H4). rewrite H1 in H2. simplify_eq.
    f_equal. apply (IH x'); [set_solver..|done|done].
Qed.

Lemma default_last_elem a l : default a (last l) ∈ a :: l.
Proof.
  destruct l as [|p l _] using rev_ind; simpl; [set_solver|].
  rewrite last_snoc. simpl. set_solver.
Qed.

Lemma ring_live h head l u : ring h head l → u ∈ head :: l → is_Some (h !! u).
Proof. intros [_ H]. apply (linked_live _ _ _ _ _ H). Qed.

Lemma ring_inj h head l l' : ring h head l → ring h head l' → l = l'.
Proof.
  intros [N1 H1] [N2 H2]. apply NoDup_cons in N1 as [? _].
  apply NoDup_cons in N2 as [? _]. by eapply linked_inj.
Qed.

Lemma ring_frame h h' head l :
  (∀ u, u ∈ head :: l → get_next u h' = get_next u h) →
  (∀ u, u ∈ head :: l → get_prev u h' = get_prev u h) →
  ring h head l → ring h' head l.
Proof.
  intros Hn Hp [N H]. split; [done|].
  eapply linked_frame; [done| |done]. intros; apply Hp. set_solver.
Qed.

Lemma ring_size h head l : ring h head l → (length l < size h)%nat.
Proof.
  intros R. destruct R as [N H].
  assert (head :: l ⊆ elements (dom h)) as Hsub.
  { intros u Hu. apply elem_of_elements, elem_of_dom.
    by apply (linked_live _ _ _ _ _ H). }
  apply NoDup_submseteq in Hsub; [|done].
  apply submseteq_length in Hsub. simpl in Hsub.
  rewrite <- size_dom. unfold size at 1, set_size. simpl. lia.
Qed.

(** A node put before the sentinel comes last in the ring. *)
Lemma ring_insert h head l nd :
  ring h head l → nd ≠ nullptr → nd ∉ head :: l → is_Some (h !! nd) →
  ∃ h', insert head nd h = Some h' ∧ ring h' head (l ++ [nd]) ∧
    dom h' = dom h ∧ ∀ u, get_function u h' = get_function u h.
Proof.
  intros [N H] Hnn Hfresh Hlive.
  pose proof (linked_prev _ _ _ _ H) as Hp.
  pose proof (default_last_elem head l) as Hpin.
  set (p := default head (last l)) in *.
  destruct (insert_spec h head nd p) as (h' & E & U); try done.
  { by apply (linked_live _ _ _ _ _ H). }
  { set_solver. }
  { set_solver. }
  exists h'. split; [done|]. split; [|split; [apply U|apply U]].
  split.
  { rewrite app_comm_cons. apply NoDup_app. split; [done|].
    split; [set_solver|apply NoDup_singleton]. }
  apply linked_snoc. split; [|split].
  - subst p. destruct l as [|q l _] using rev_ind; simpl in *.
    + rewrite (upd_next _ _ _ _ _ U), (upd_prev _ _ _ _ _ U).
      repeat case_decide; simplify_eq; done.
    + rewrite last_snoc in *. simpl in *.
      apply linked_snoc in H as (H1 & H2 & H3).
      assert ((q ∉ head :: l) ∧ (head ∉ l)) as [Hq Hh].
      { rewrite app_comm_cons in N. apply NoDup_app in N as (N1 & N2 & _).
        apply NoDup_cons in N1 as [? _]. split; [|done].
        intros Hq. apply (N2 q Hq). set_solver. }
      apply linked_snoc. split; [|split].
      * eapply linked_frame; [| |exact H1].
        -- intros u Hu. rewrite (upd_next _ _ _ _ _ U).
           repeat case_decide; simplify_eq; set_solver.
        -- intros v Hv. rewrite (upd_prev _ _ _ _ _ U).
           repeat case_decide; simplify_eq; set_solver.
      * rewrite (upd_next _ _ _ _ _ U).
        repeat case_decide; simplify_eq; set_solver.
      * rewrite (upd_prev _ _ _ _ _ U).
        repeat case_decide; simplify_eq; set_solver.
  - rewrite (upd_next _ _ _ _ _ U). by rewrite decide_True.
  - rewrite (upd_prev _ _ _ _ _ U). by rewrite decide_True.
Qed.

(** The last link of a path may be turned to another node. *)
Lemma linked_retarget h h' a l z z' :
  NoDup (a :: l) →
  (∀ u, u ∈ a :: l → u ≠ default a (last l) → get_next u h' = get_next u h) →
  get_next (default a (last l)) h' = Some z' →
  (∀ v, v ∈ l → get_prev v h' = get_prev v h) →
  get_prev z' h' = Some (default a (last l)) →
  linked h a l z → linked h' a l z'.
Proof.
  destruct l as [|q l _] using rev_ind; simpl.
  - intros _ _ Hn _ Hp _. done.
  - rewrite last_snoc. simpl. intros N Hnx Hn Hpv Hp.
    rewrite !linked_snoc. intros (H1 & _ & _). split; [|done].
    assert (q ∉ a :: l) as Hq.
    { rewrite app_comm_cons in N. apply NoDup_app in N as (_ & N2 & _).
      intros Hq. apply (N2 q Hq). set_solver. }
    eapply linked_frame; [| |exact H1].
    + intros u Hu. apply Hnx; set_solver.
    + intros v Hv. apply Hpv; set_solver.
Qed.

(** Taking a node out of the ring and deleting it. *)
Lemma ring_extract h head l1 x l2 :
  ring h head (l1 ++ x :: l2) →
  ∃ h', extract x h = Some h' ∧ dom h' = dom h ∧
    ring (delete x h') head (l1 ++ l2) ∧
    ∀ u, get_function u h' = get_function u h.
Proof.
  intros [N H].
  assert (NoDup (head :: l1) ∧ NoDup (head :: l1 ++ l2) ∧
          x ∉ head :: l1 ++ l2) as (N1 & N2 & Hx).
  { rewrite app_comm_cons in N. rewrite app_comm_cons.
    apply NoDup_app in N as (N1 & N3 & N4).
    apply NoDup_cons in N4 as [N4 N5]. split; [done|]. split.
    - apply NoDup_app. split; [done|]. split; [|done].
      intros u Hu Hu'. apply (N3 u Hu). set_solver.
    - intros [Hx|Hx]%elem_of_app; [|done]. apply (N3 x Hx). set_solver. }
  pose proof H as H'. apply linked_app in H' as [H1 H2].
  pose proof (linked_prev _ _ _ _ H1) as Hp.
  pose proof (linked_next _ _ _ _ H2) as Hn.
  pose proof (default_last_elem head l1) as Hpin.
  set (p := default head (last l1)) in *.
  set (n := hd head l2) in *.
  assert (n ∈ l2 ++ [head]) as Hnin.
  { subst n. destruct l2; simpl; set_solver. }
  destruct (extract_spec h x n p) as (h' & E & U); try done.
  { apply (linked_live _ _ _ _ _ H). set_solver. }
  { apply (linked_live _ _ _ _ _ H). set_solver. }
  exists h'. split; [done|]. split; [apply U|]. split; [|apply U].
  split; [done|].
  assert (Hnx : ∀ u, u ≠ x → get_next u (delete x h') =
                 if decide (u = p) then Some n else get_next u h).
  { intros u Hu. rewrite get_next_delete, (upd_next _ _ _ _ _ U) by done.
    by rewrite decide_False. }
  assert (Hpv : ∀ u, u ≠ x → get_prev u (delete x h') =
                 if decide (u = n) then Some p else get_prev u h).
  { intros u Hu. rewrite get_prev_delete, (upd_prev _ _ _ _ _ U) by done.
    by rewrite decide_False. }
  assert (Hl1n : n ∉ l1).
  { intros Hn1. apply elem_of_app in Hnin as [Hn2|Hn2].
    - apply NoDup_cons in N2 as [_ N2]. apply NoDup_app in N2 as (_ & N2 & _).
      by apply (N2 n).
    - apply list_elem_of_singleton in Hn2. rewrite Hn2 in Hn1.
      apply NoDup_cons in N1 as [N1 _]. done. }
  assert (Hstart : linked (delete x h') head l1 n).
  { eapply linked_retarget; [done| | | | |exact H1]; fold p.
    - intros u Hu Hup. rewrite Hnx by set_solver. by rewrite decide_False.
    - rewrite Hnx by set_solver. by rewrite decide_True.
    - intros v Hv. rewrite Hpv by set_solver.
      rewrite decide_False; [done|]. by intros ->.
    - rewrite Hpv; [by rewrite decide_True|].
      intros ->. set_solver. }
  destruct l2 as [|n' l2]; simpl in *.
  - subst n. by rewrite app_nil_r.
  - subst n. apply linked_app. split; [done|].
    destruct H2 as (_ & _ & H2).
    eapply linked_frame; [| |exact H2].
    + intros u Hu. rewrite Hnx by set_solver.
      rewrite decide_False; [done|]. intros ->.
      apply NoDup_cons in N2 as [N3 N2].
      apply NoDup_app in N2 as (_ & N2 & _).
      apply elem_of_cons in Hpin as [->|Hpin]; [set_solver|].
      by apply (N2 p).
    + intros v Hv. rewrite Hpv by set_solver.
      rewrite decide_False; [done|]. intros ->.
      apply NoDup_cons in N2 as [N3 N2].
      apply NoDup_app in N2 as (_ & _ & N2).
      apply NoDup_cons in N2 as [N2 _].
      apply elem_of_app in Hv as [Hv|Hv]; [done|]. set_solver.
Qed.

(** ** The scans *)

Lemma disconnect_scan_unfold fuel h head id nd :
  disconnect_scan fuel h head id nd =
    if decide (nd ≠ head ∧ nd ≠ id) then
      match fuel with
      | O => None
      | S fuel' => n ← get_next nd h; disconnect_scan fuel' h head id n
      end
    else Some nd.
Proof. by destruct fuel. Qed.

Lemma connected_scan_unfold fuel h head id nd :
  connected_scan fuel h head id nd =
    if decide (nd = head) then Some false
    else if decide (nd = id) then Some true
    else match fuel with
         | O => None
         | S fuel' => n ← get_next nd h; connected_scan fuel' h head id n
         end.
Proof. by destruct fuel. Qed.

Lemma disconnect_scan_spec h head id l a fuel :
  linked h a l head → head ∉ l → (length l ≤ fuel)%nat →
  disconnect_scan fuel h head id (hd head l) =
    Some (if decide (id ∈ l) then id else head).
Proof.
  revert a fuel. induction l as [|x l IH]; intros a fuel H Hh Hf;
    rewrite disconnect_scan_unfold.
  - rewrite (decide_False (P := id ∈ [])) by set_solver.
    simpl. by rewrite decide_False by tauto.
  - simpl in *. destruct H as (_ & _ & H).
    destruct (decide (x = id)) as [->|Hx].
    + rewrite (decide_True (P := id ∈ id :: l)) by set_solver.
      by rewrite decide_False by tauto.
    + destruct fuel as [|fuel]; [lia|].
      rewrite decide_True by (split; [set_solver|done]).
      rewrite (linked_next _ _ _ _ H). simpl.
      rewrite (IH x) by (done || set_solver || lia).
      repeat case_decide; set_solver.
Qed.

Lemma connected_scan_spec h head id l a fuel :
  linked h a l head → head ∉ l → (length l ≤ fuel)%nat →
  connected_scan fuel h head id (hd head l) = Some (bool_decide (id ∈ l)).
Proof.
  revert a fuel. induction l as [|x l IH]; intros a fuel H Hh Hf;
    rewrite connected_scan_unfold.
  - rewrite bool_decide_eq_false_2 by set_solver.
    simpl. by rewrite decide_True.
  - simpl in *. destruct H as (_ & _ & H).
    rewrite decide_False by set_solver.
    destruct (decide (x = id)) as [->|Hx].
    + by rewrite bool_decide_eq_true_2 by set_solver.
    + destruct fuel as [|fuel]; [lia|].
      rewrite (linked_next _ _ _ _ H). simpl.
      rewrite (IH x) by (done || set_solver || lia).
      f_equal. apply bool_decide_ext. set_solver.
Qed.

End Heap.

(** * The operations of the signal on a well-formed ring *)

Section Operations.

Context {Args Result Exn Tag : Type}.
Variable this : ptr.
Variable al : allocator.

Abbreviation world_t := (@world Args Result Exn Tag).
Implicit Types w : world_t.
Implicit Types l : list ptr.
Implicit Types id p u : ptr.

Lemma ring_of_null w l : m_head w = nullptr → ring_of w l ↔ l = [].
Proof. intros E. unfold ring_of. by rewrite decide_True. Qed.

Lemma ring_of_ring w l :
  m_head w ≠ nullptr → ring_of w l ↔ ring (heap w) (m_head w) l.
Proof. intros E. unfold ring_of. by rewrite decide_False. Qed.

Lemma ring_of_inj w l l' : ring_of w l → ring_of w l' → l = l'.
Proof.
  unfold ring_of. case_decide; [congruence|]. apply ring_inj.
Qed.

Lemma ring_of_elem_head w x l : ring_of w l → x ∈ l → m_head w ≠ nullptr.
Proof.
  unfold ring_of. case_decide; [intros ->; set_solver|done].
Qed.

(** ** [connect] *)

Lemma connect_ring (f : @slot_type Args Result Exn Tag) h head l :
  ring h head l → head ≠ nullptr →
  let p := new_addr al (dom h) in
  ∃ h', insert head p (<[p := Node p p f]> h) = Some h' ∧
    h !! p = None ∧ p ≠ nullptr ∧ (p ∉ head :: l) ∧
    ring h' head (l ++ [p]) ∧
    dom h' = {[p]} ∪ dom h ∧
    get_function p h' = Some f ∧
    ∀ u, u ≠ p → get_function u h' = get_function u h.
Proof.
  intros R Hh p.
  assert (h !! p = None) as Hp.
  { apply not_elem_of_dom, new_addr_fresh. }
  assert (p ∉ head :: l) as Hpl.
  { intros Hin. destruct (ring_live _ _ _ _ R Hin) as [? E]. congruence. }
  destruct (ring_insert (<[p := Node p p f]> h) head l p) as (h' & E & R' & D & F).
  - eapply ring_frame; [| |exact R]; intros u Hu.
    + apply get_next_new. intros ->. done.
    + apply get_prev_new. intros ->. done.
  - apply new_addr_nonnull.
  - done.
  - by rewrite lookup_insert_eq.
  - exists h'. split_and!; try done.
    + apply new_addr_nonnull.
    + by rewrite D, dom_insert_L.
    + rewrite F. unfold get_function. by rewrite lookup_insert_eq.
    + intros u Hu. rewrite F. by apply get_function_new.
Qed.

Lemma connect_spec (f : @slot_type Args Result Exn Tag) w l :
  ring_of w l →
  ∃ p w', connect this al f w = Some ((this, p), w') ∧
    ring_of w' (l ++ [p]) ∧
    m_head w' ≠ nullptr ∧ (m_head w ≠ nullptr → m_head w' = m_head w) ∧
    p ≠ nullptr ∧ (p ∉ m_head w' :: l) ∧ heap w !! p = None ∧
    get_function p (heap w') = Some f ∧
    (∀ u, u ∈ l → get_function u (heap w') = get_function u (heap w)) ∧
    m_recursionDepth w' = m_recursionDepth w ∧
    m_deactivations w' = m_deactivations w.
Proof.
  intros R. unfold connect, new_node.
  destruct (decide (m_head w = nullptr)) as [E|E]; cbv beta iota zeta.
  - apply ring_of_null in R as ->; [|done].
    set (s := new_addr al (dom (heap w))).
    assert (heap w !! s = None) as Hs by apply not_elem_of_dom, new_addr_fresh.
    assert (s ≠ nullptr) as Hsn by apply new_addr_nonnull.
    pose proof (connect_ring f (<[s := Node s s None]> (heap w)) s []) as C.
    cbv zeta in C.
    destruct C as (h' & E2 & Hp & Hpn & Hpl & R' & D & F1 & F2); [|done|].
    { split; [apply NoDup_singleton|]. simpl. unfold get_next, get_prev.
      by rewrite lookup_insert_eq. }
    simpl. rewrite E2. simpl. eexists _, _. split; [done|]. simpl.
    split_and!; try done.
    + unfold ring_of. simpl. by rewrite decide_False.
    + rewrite lookup_insert_ne in Hp; [done|]. set_solver.
    + set_solver.
  - apply ring_of_ring in R; [|done].
    pose proof (connect_ring f (heap w) (m_head w) l) as C.
    cbv zeta in C.
    destruct C as (h' & E2 & Hp & Hpn & Hpl & R' & D & F1 & F2); [done..|].
    rewrite E2. simpl. eexists _, _. split; [done|]. simpl.
    split_and!; try done.
    + unfold ring_of. simpl. by rewrite decide_False.
    + intros u Hu. apply F2. intros ->. set_solver.
Qed.

(** ** [disconnect] *)

Lemma disconnect_id_unfold id w l :
  ring_of w l → m_head w ≠ nullptr →
  disconnect_id id w =
    let nd := if decide (id ∈ l) then id else m_head w in
    if decide (nd = id) then
      if decide (m_recursionDepth w = 0) then
        h ← extract nd (heap w);
        h ← delete_node nd h;
        Some (true, set_heap h w)
      else
        h ← deactivate nd (heap w);
        Some (true, set_deactivations true (set_heap h w))
    else Some (false, w).
Proof.
  intros R Hh. apply ring_of_ring in R; [|done].
  unfold disconnect_id. rewrite decide_True by done.
  destruct R as [N H]. rewrite (linked_next _ _ _ _ H). simpl.
  rewrite (disconnect_scan_spec _ _ _ l (m_head w)); [done|done| |].
  - by apply NoDup_cons in N as [? _].
  - pose proof (ring_size _ _ _ (conj N H)). lia.
Qed.

(** A pointer that names no node of the ring: nothing happens. *)
Lemma disconnect_id_absent id w l :
  ring_of w l → id ∉ l → id ≠ m_head w ∨ m_head w = nullptr →
  disconnect_id id w = Some (false, w).
Proof.
  intros R Hid Hh. destruct (decide (m_head w = nullptr)) as [E|E].
  - unfold disconnect_id. by rewrite decide_False by tauto.
  - destruct Hh as [Hh|]; [|done].
    rewrite (disconnect_id_unfold id w l) by done. simpl.
    rewrite (decide_False (P := id ∈ l)) by done.
    by rewrite decide_False by done.
Qed.

(** No slot is running: the node is taken out and deleted. *)
Lemma disconnect_id_now id w l1 l2 :
  ring_of w (l1 ++ id :: l2) → m_recursionDepth w = 0 →
  ∃ h', disconnect_id id w = Some (true, set_heap h' w) ∧
    ring_of (set_heap h' w) (l1 ++ l2) ∧
    h' !! id = None ∧
    dom h' = dom (heap w) ∖ {[id]} ∧
    ∀ u, u ≠ id → get_function u h' = get_function u (heap w).
Proof.
  intros R Hd.
  assert (m_head w ≠ nullptr) as Hh.
  { apply (ring_of_elem_head w id _ R). set_solver. }
  rewrite (disconnect_id_unfold id w _ R Hh). simpl.
  rewrite (decide_True (P := id ∈ l1 ++ id :: l2)) by set_solver.
  rewrite decide_True by done. rewrite decide_True by done.
  apply ring_of_ring in R; [|done].
  destruct (ring_extract _ _ _ _ _ R) as (h' & E & D & R' & F).
  rewrite E. simpl. rewrite delete_node_spec.
  2:{ apply (live_dom _ (heap w)); [done|].
      apply (ring_live _ _ _ _ R). set_solver. }
  simpl. eexists; split; [done|]. split_and!.
  - unfold ring_of. simpl. by rewrite decide_False.
  - apply lookup_delete_eq.
  - by rewrite dom_delete_L, D.
  - intros u Hu. by rewrite get_function_delete, F.
Qed.

(** A slot is running: the node stays where it is, without its slot. *)
Lemma disconnect_id_later id w l :
  ring_of w l → id ∈ l → m_recursionDepth w ≠ 0 →
  ∃ h', disconnect_id id w =
          Some (true, set_deactivations true (set_heap h' w)) ∧
    updates (heap w) h' (λ u, get_next u (heap w)) (λ u, get_prev u (heap w))
      (λ u, if decide (u = id) then Some None else get_function u (heap w)) ∧
    ring_of (set_deactivations true (set_heap h' w)) l.
Proof.
  intros R Hid Hd.
  assert (m_head w ≠ nullptr) as Hh by apply (ring_of_elem_head w id _ R Hid).
  rewrite (disconnect_id_unfold id w _ R Hh). simpl.
  rewrite (decide_True (P := id ∈ l)) by done.
  rewrite decide_True by done. rewrite decide_False by done.
  apply ring_of_ring in R; [|done].
  destruct (set_function_spec id None (heap w)) as (h' & E & U).
  { apply (ring_live _ _ _ _ R). set_solver. }
  unfold deactivate. rewrite E. simpl. eexists; split; [done|].
  split; [done|]. unfold ring_of. simpl. rewrite decide_False by done.
  eapply ring_frame; [| |exact R]; intros u _; apply U.
Qed.

(** The scan of [disconnect] stops at the sentinel when it has not found
    the pointer; when the pointer is the sentinel's, the two are equal. *)
Lemma disconnect_id_sentinel w l :
  ring_of w l → m_head w ≠ nullptr →
  ∃ h', disconnect_id (m_head w) w =
          Some (true,
                if decide (m_recursionDepth w = 0) then set_heap h' w
                else set_deactivations true (set_heap h' w)) ∧
    if decide (m_recursionDepth w = 0) then h' !! m_head w = None
    else updates (heap w) h' (λ u, get_next u (heap w))
           (λ u, get_prev u (heap w))
           (λ u, if decide (u = m_head w) then Some None
                 else get_function u (heap w)).
Proof.
  intros R Hh. rewrite (disconnect_id_unfold _ w _ R Hh). simpl.
  apply ring_of_ring in R; [|done].
  assert (m_head w ∉ l) as Hl by (destruct R as [N _]; by apply NoDup_cons in N as [? _]).
  rewrite (decide_False (P := m_head w ∈ l)) by done.
  rewrite decide_True by done.
  assert (is_Some (heap w !! m_head w)) as Hlive.
  { apply (ring_live _ _ _ _ R). set_solver. }
  destruct (decide (m_recursionDepth w = 0)).
  - destruct R as [N H].
    pose proof (linked_next _ _ _ _ H) as Hn.
    pose proof (linked_prev _ _ _ _ H) as Hp.
    destruct (extract_spec (heap w) (m_head w) _ _ Hn Hp) as (h1 & E & U).
    { apply (linked_live _ _ _ _ _ H). destruct l; simpl; set_solver. }
    { apply (linked_live _ _ _ _ _ H), default_last_elem. }
    rewrite E. simpl. rewrite delete_node_spec by (by eapply updates_live).
    simpl. eexists; split; [done|]. apply lookup_delete_eq.
  - destruct (set_function_spec (m_head w) None (heap w)) as (h' & E & U);
      [done|].
    unfold deactivate. rewrite E. simpl. eexists; split; done.
Qed.

(** ** [connected] *)

Lemma connected_id_spec id w l :
  ring_of w l → connected_id id w = Some (bool_decide (id ∈ l)).
Proof.
  intros R. unfold connected_id.
  destruct (decide (m_head w = nullptr)) as [E|E].
  - apply ring_of_null in R as ->; [|done].
    rewrite decide_False by tauto.
    by rewrite bool_decide_eq_false_2 by set_solver.
  - rewrite decide_True by done. apply ring_of_ring in R; [|done].
    destruct R as [N H]. rewrite (linked_next _ _ _ _ H). simpl.
    apply (connected_scan_spec _ _ _ l (m_head w)); [done| |].
    + by apply NoDup_cons in N as [? _].
    + pose proof (ring_size _ _ _ (conj N H)). lia.
Qed.

Lemma connected_spec (con : connection_handler) w l :
  ring_of w l →
  connected this con w = Some (bool_decide (con.1 = this ∧ con.2 ∈ l)).
Proof.
  intros R. unfold connected. destruct (decide (con.1 ≠ this)) as [E|E].
  - by rewrite bool_decide_eq_false_2 by tauto.
  - apply dec_stable in E. rewrite (connected_id_spec _ _ l R).
    f_equal. apply bool_decide_ext. tauto.
Qed.

(** ** The sweep at the end of [emit] *)

Lemma sweep_unfold fuel head nd (h : gmap ptr (@node Args Result Exn Tag)) :
  sweep fuel head nd h =
    if decide (nd ≠ head) then
      match fuel with
      | O => None
      | S fuel' =>
          next ← get_next nd h;
          f ← get_function nd h;
          h ← match f with
              | None => h ← extract nd h; delete_node nd h
              | Some _ => Some h
              end;
          sweep fuel' head next h
      end
    else Some h.
Proof. by destruct fuel. Qed.

Lemma active_ext (h h' : gmap ptr (@node Args Result Exn Tag)) l :
  (∀ x, x ∈ l → empty_slot h' x = empty_slot h x) → active h' l = active h l.
Proof.
  unfold active. induction l as [|x l IH]; intros H; [done|].
  rewrite !filter_cons, (H x), IH by set_solver. done.
Qed.

Lemma active_elem (h : gmap ptr (@node Args Result Exn Tag)) l x :
  x ∈ active h l ↔ x ∈ l ∧ empty_slot h x = false.
Proof. unfold active. rewrite list_elem_of_filter. tauto. Qed.

Lemma sweep_spec head l2 : ∀ l1 (h : gmap ptr (@node Args Result Exn Tag)) fuel,
  ring h head (l1 ++ l2) → (length l2 ≤ fuel)%nat →
  ∃ h', sweep fuel head (hd head l2) h = Some h' ∧
    ring h' head (l1 ++ active h l2) ∧
    (∀ u, u ∈ l2 → empty_slot h u = true → h' !! u = None) ∧
    (∀ u, ¬ (u ∈ l2 ∧ empty_slot h u = true) →
          get_function u h' = get_function u h).
Proof.
  induction l2 as [|x l2 IH]; intros l1 h fuel R Hf; rewrite sweep_unfold.
  - simpl. rewrite decide_False by tauto. exists h. rewrite app_nil_r in *.
    split_and!; [done|done|set_solver|done].
  - simpl in *.
    assert (NoDup (head :: l1 ++ x :: l2)) as N by apply R.
    assert (x ≠ head ∧ x ∉ l2) as [Hxh Hx2].
    { apply NoDup_cons in N as [N1 N2]. apply NoDup_app in N2 as (_ & _ & N2).
      apply NoDup_cons in N2 as [? _]. set_solver. }
    rewrite decide_True by done. destruct fuel as [|fuel]; [lia|].
    destruct R as [_ H]. pose proof H as H'.
    apply linked_app in H' as [_ H2].
    rewrite (linked_next _ _ _ _ H2). simpl.
    destruct (linked_live _ _ _ _ x H2) as [ndx Hndx]; [set_solver|].
    unfold get_function at 1. rewrite Hndx. simpl.
    destruct (m_function ndx) as [g|] eqn:Hg.
    + simpl.
      destruct (IH (l1 ++ [x]) h fuel) as (h' & E & R' & F1 & F2).
      { by rewrite <- app_assoc. }
      { lia. }
      exists h'. split; [done|].
      assert (empty_slot h x = false) as Hex.
      { unfold empty_slot, get_function. by rewrite Hndx; simpl; rewrite Hg. }
      split_and!.
      * unfold active in *. rewrite filter_cons_True by done.
        by rewrite <- app_assoc in R'.
      * intros u [->|Hu]%elem_of_cons He; [congruence|]. by apply F1.
      * intros u Hu. apply F2. intros [? ?]. apply Hu. set_solver.
    + assert (empty_slot h x = true) as Hex.
      { unfold empty_slot, get_function. by rewrite Hndx; simpl; rewrite Hg. }
      destruct (ring_extract h head l1 x l2 (conj N H)) as (h1 & E1 & D & R1 & F).
      rewrite E1. simpl. rewrite delete_node_spec.
      2:{ apply (live_dom _ h); [done|]. by rewrite Hndx. }
      simpl.
      destruct (IH l1 (delete x h1) fuel) as (h' & E & R' & F1 & F2);
        [done|lia|].
      assert (∀ u, u ≠ x → empty_slot (delete x h1) u = empty_slot h u) as Hemp.
      { intros u Hu. unfold empty_slot.
        by rewrite get_function_delete, F by done. }
      exists h'. split; [done|]. split_and!.
      * unfold active at 1. rewrite filter_cons_False by congruence.
        fold (active h l2). rewrite <- (active_ext h (delete x h1)); [done|].
        intros u Hu. apply Hemp. intros ->. done.
      * intros u [->|Hu]%elem_of_cons He.
        -- assert (get_function x h' = get_function x (delete x h1)) as Hfx.
           { apply F2. intros [? _]. done. }
           unfold get_function in Hfx. rewrite lookup_delete_eq in Hfx.
           by destruct (h' !! x).
        -- apply F1; [done|]. rewrite Hemp; [done|]. intros ->. done.
      * intros u Hu. destruct (decide (u = x)) as [->|Hux].
        { exfalso. apply Hu. split; [set_solver|done]. }
        rewrite F2, get_function_delete, F; [done|done|].
        intros [? He]. apply Hu. split; [set_solver|]. by rewrite <- Hemp.
Qed.

Lemma emit_finish_spec w l :
  ring_of w l → m_head w ≠ nullptr →
  if decide (m_recursionDepth w = 0 ∧ m_deactivations w = true) then
    ∃ h', emit_finish w = Some (set_deactivations false (set_heap h' w)) ∧
      ring_of (set_deactivations false (set_heap h' w)) (active (heap w) l) ∧
      (∀ u, u ∈ l → empty_slot (heap w) u = true → h' !! u = None) ∧
      (∀ u, ¬ (u ∈ l ∧ empty_slot (heap w) u = true) →
            get_function u h' = get_function u (heap w))
  else emit_finish w = Some w.
Proof.
  intros R Hh. unfold emit_finish. case_decide; [|done].
  apply ring_of_ring in R; [|done].
  rewrite (linked_next _ _ _ _ (proj2 R)). simpl.
  destruct (sweep_spec (m_head w) l [] (heap w) (size (heap w)))
    as (h' & E & R' & F1 & F2); [done|by apply ring_size, Nat.lt_le_incl in R|].
  rewrite E. simpl. eexists; split; [done|]. split_and!; [|done..].
  unfold ring_of. simpl. by rewrite decide_False.
Qed.

End Operations.

(** * The machine on well-formed configurations *)

Section Machine.

Context {Args Result Exn Tag : Type}.
Variable this : ptr.
Variable al : allocator.

Abbreviation config_t := (@config Args Result Exn Tag).
Implicit Types c : config_t.
Implicit Types l : list ptr.

Lemma SIZE_MOD_pos : 1 < SIZE_MOD.
Proof. done. Qed.

Lemma size_incr_small d : 0 ≤ d → d + 1 < SIZE_MOD → size_incr d = d + 1.
Proof. intros. unfold size_incr. apply Z.mod_small. lia. Qed.

Lemma size_decr_small d : 0 < d → d < SIZE_MOD → size_decr d = d - 1.
Proof. intros. unfold size_decr. apply Z.mod_small. lia. Qed.

Lemma size_decr_incr d : 0 ≤ d → d < SIZE_MOD → size_decr (size_incr d) = d.
Proof.
  intros. unfold size_decr, size_incr. pose proof SIZE_MOD_pos.
  rewrite Zminus_mod_idemp_l. replace (d + 1 - 1) with d by lia.
  apply Z.mod_small. lia.
Qed.

Lemma linked_next_elem (h : gmap ptr (@node Args Result Exn Tag)) a l z x :
  linked h a l z → x ∈ a :: l →
  ∃ n, get_next x h = Some n ∧ n ∈ l ++ [z].
Proof.
  revert a. induction l as [|y l IH]; intros a; simpl.
  - intros [H _] ->%list_elem_of_singleton. exists z. set_solver.
  - intros (H1 & _ & H3) [->|Hx]%elem_of_cons.
    + exists y. set_solver.
    + destruct (IH y H3 Hx) as (n & ? & ?). exists n. set_solver.
Qed.

Lemma ring_next_elem (h : gmap ptr (@node Args Result Exn Tag)) head l x :
  ring h head l → x ∈ head :: l →
  ∃ n, get_next x h = Some n ∧ n ∈ head :: l.
Proof.
  intros [_ H] Hx. destruct (linked_next_elem _ _ _ _ _ H Hx) as (n & ? & ?).
  exists n. set_solver.
Qed.

Lemma set_depth_depth (w : @world Args Result Exn Tag) :
  set_depth (m_recursionDepth w) w = w.
Proof. by destruct w. Qed.

Lemma Inv_depth_range c l :
  Inv c l → 0 ≤ m_recursionDepth (st c) < SIZE_MOD.
Proof. intros [_ D B _ _]. lia. Qed.

(** The step of [disconnect] on a well-formed configuration. *)
Lemma disconnect_change (con : connection_handler) c l b w' :
  Inv c l → ¬ disconnects_sentinel this c →
  (∃ k, ctl c = Run (Disconnect con k)) →
  disconnect this con (st c) = Some (b, w') →
  ∃ l', ring_of w' l' ∧ change this c w' l l' ∧
    m_head w' = m_head (st c) ∧
    m_recursionDepth w' = m_recursionDepth (st c) ∧
    (stack c ≠ [] → l' = l).
Proof.
  intros I Hmis [k Hk] E. pose proof (inv_ring _ _ I) as R.
  unfold disconnect in E. destruct (decide (con.1 ≠ this)) as [Hc|Hc].
  { simplify_eq. exists l. split_and!; try done. by apply ch_none. }
  apply dec_stable in Hc. destruct con as [c1 id]. simpl in *. subst c1.
  destruct (decide (id ∈ l)) as [Hid|Hid].
  - destruct (decide (m_recursionDepth (st c) = 0)) as [Hd|Hd].
    + apply list_elem_of_split in Hid as (l1 & l2 & ->).
      destruct (disconnect_id_now id _ _ _ R Hd) as (h' & E' & R' & G & D & F).
      rewrite E' in E. simplify_eq. exists (l1 ++ l2). split_and!; try done.
      * by eapply (ch_remove _ _ _ _ _ l1 id l2).
      * rewrite (inv_depth _ _ I) in Hd. destruct (stack c); [done|]. simpl in Hd. lia.
    + destruct (disconnect_id_later id _ _ R Hid Hd) as (h' & E' & U & R').
      rewrite E' in E. simplify_eq. exists l. split_and!; try done.
      eapply (ch_deactivate _ _ _ _ _ id); try done.
      * set_solver.
      * simpl. rewrite (upd_function _ _ _ _ _ U). by rewrite decide_True.
      * intros u Hu. simpl. rewrite (upd_function _ _ _ _ _ U).
        by rewrite decide_False.
  - destruct (decide (id = m_head (st c) ∧ m_head (st c) ≠ nullptr))
      as [[-> Hh]|Hne].
    + destruct (disconnect_id_sentinel _ _ R Hh) as (h' & E' & P).
      rewrite E' in E. simplify_eq.
      destruct (decide (m_recursionDepth (st c) = 0)) as [Hd|Hd].
      { exfalso. apply Hmis. split_and!; [|done|by exists k].
        rewrite (inv_depth _ _ I) in Hd. destruct (stack c); [done|].
        simpl in Hd. lia. }
      exists l. split_and!; try done.
      * unfold ring_of. simpl. rewrite decide_False by done.
        apply ring_of_ring in R; [|done].
        eapply ring_frame; [| |exact R]; intros u _; apply P.
      * eapply (ch_deactivate _ _ _ _ _ (m_head (st c))); try done.
        -- set_solver.
        -- simpl. rewrite (upd_function _ _ _ _ _ P). by rewrite decide_True.
        -- intros u Hu. simpl. rewrite (upd_function _ _ _ _ _ P).
           by rewrite decide_False.
    + rewrite (disconnect_id_absent id _ l) in E; [|done|done|].
      * simplify_eq. exists l. split_and!; try done. by apply ch_none.
      * destruct (decide (m_head (st c) = nullptr)); [by right|left].
        intros ->. tauto.
Qed.


(** Every step from a well-formed configuration leads to a well-formed
    configuration, and changes the ring in one of the five ways of
    [change]. *)
Lemma step_inv c c' l :
  Inv c l → ¬ disconnects_sentinel this c →
  step this al c = Some c' →
  Z.of_nat (length (stack c')) < SIZE_MOD →
  ∃ l', Inv c' l' ∧ change this c (st c') l l'.
Proof.
  intros I Hmis E B'. pose proof (Inv_depth_range _ _ I) as Hrange.
  destruct I as [R D B C S].
  destruct c as [ct stk w ac vs iv]. simpl in *.
  unfold step in E. simpl in E.
  destruct ct as [[r|e|t k|x k|x con k|f k|con k|con k|ag ctrl args k]|fr].
  - (* Return *)
    destruct stk as [|fr stk]; [done|].
    apply Forall_cons in S as [Hfr S].
    assert (m_head w ≠ nullptr) as Hh by apply (ring_of_elem_head _ _ _ R Hfr).
    apply ring_of_ring in R; [|done].
    destruct (ring_next_elem _ _ _ (f_node fr) R) as (n & En & Hn);
      [set_solver|].
    rewrite En in E. simpl in E. simplify_eq. simpl in *.
    exists l. split; [|apply ch_none; done].
    split; simpl; try done.
    + by apply ring_of_ring.
    + rewrite D. rewrite size_decr_small by lia. lia.
  - (* Throw *)
    destruct stk as [|fr stk]; [done|]. simplify_eq. simpl in *.
    apply Forall_cons in S as [Hfr S].
    exists l. split; [|apply ch_none; done].
    split; simpl; try done.
    rewrite D. rewrite size_decr_small by lia. lia.
  - (* Say *)
    simplify_eq. exists l. split; [|by apply ch_none]. by split.
  - (* Load *)
    simplify_eq. exists l. split; [|by apply ch_none]. by split.
  - (* Store *)
    simplify_eq. exists l. split; [|by apply ch_none]. by split.
  - (* Connect *)
    destruct (connect_spec this al f w l R)
      as (p & w' & E' & R' & Hh & Hh' & Hpn & Hpl & Hp & F1 & F2 & D' & G').
    rewrite E' in E. simpl in E. simplify_eq. simpl in *.
    exists (l ++ [p]). split.
    + split; simpl; try done; [congruence|].
      eapply Forall_impl; [exact S|]. intros; set_solver.
    + eapply (ch_connect _ _ _ _ _ f p); try done. set_solver.
  - (* Disconnect *)
    destruct (disconnect this con w) as [[b w']|] eqn:E'; [|done].
    simpl in E. simplify_eq. simpl in *.
    destruct (disconnect_change con (Config (Run (Disconnect con k)) stk w ac vs iv)
                l b w') as (l' & R' & Ch & Hh & D' & Hl');
      [by split|done|by eexists|done|].
    simpl in *. exists l'. split; [|done].
    split; simpl; try done; [congruence|].
    destruct stk as [|fr stk]; [done|]. by rewrite Hl'.
  - (* Connected *)
    rewrite (connected_spec this con w l R) in E. simpl in E. simplify_eq.
    exists l. split; [|by apply ch_none]. by split.
  - (* Emit *)
    destruct (decide (m_head w ≠ nullptr)) as [Hh|Hh].
    + apply ring_of_ring in R; [|done].
      rewrite (linked_next _ _ _ _ (proj2 R)) in E. simpl in E. simplify_eq.
      exists l. split; [|by apply ch_none].
      split; simpl; try done; [by apply ring_of_ring|].
      split; [done|]. destruct l; simpl; set_solver.
    + simplify_eq. exists l. split; [|by apply ch_none]. by split.
  - (* Loop *)
    destruct C as [Hh C]. pose proof R as R0. apply ring_of_ring in R; [|done].
    destruct (decide (f_node fr ≠ m_head w ∧ f_ok fr = true)) as [[Hn Hok]|Hn].
    + assert (f_node fr ∈ l) as Hfr by set_solver.
      destruct (ring_live _ _ _ (f_node fr) R) as [nd Hnd]; [set_solver|].
      unfold get_function in E. simpl in E. rewrite Hnd in E. simpl in E.
      destruct (m_function nd) as [g|] eqn:Hg.
      * simplify_eq. simpl in *. exists l. split; [|apply ch_none; done].
        split; simpl; try done.
        -- rewrite D, size_incr_small by lia. lia.
        -- by apply Forall_cons.
      * destruct (ring_next_elem _ _ _ (f_node fr) R) as (n & En & Hn');
          [set_solver|].
        rewrite En in E. simpl in E. simplify_eq. simpl in *.
        exists l. split; [|apply ch_none; done].
        split; simpl; try done. by rewrite size_decr_incr by lia.
    + pose proof (emit_finish_spec w l R0 Hh) as F.
      destruct (decide (m_recursionDepth w = 0 ∧ m_deactivations w = true))
        as [[Hd Hf]|Hd].
      * destruct F as (h' & E' & R' & F1 & F2).
        rewrite E' in E. simpl in E. simplify_eq. simpl in *.
        exists (active (heap w) l). split.
        -- split; simpl; try done.
           destruct stk; [done|]. simpl in D. lia.
        -- by eapply ch_sweep.
      * rewrite F in E. simpl in E. simplify_eq. simpl in *.
        exists l. split; [|by apply ch_none]. by split.
Qed.

(** ** Running forward *)

Lemma steps_stuck n c : step this al c = None → steps this al n c = c.
Proof. intros E. destruct n; simpl; [done|]. by rewrite E. Qed.

Lemma steps_add n m c :
  steps this al (n + m) c = steps this al m (steps this al n c).
Proof.
  revert c. induction n as [|n IH]; intros c; simpl; [done|].
  destruct (step this al c) eqn:E; [apply IH|].
  by rewrite steps_stuck.
Qed.

Lemma steps_says (ts : list Tag) (r : Result) stk w ac vs iv :
  steps this al (length ts)
    (Config (Run (says (Args:=Args) (Exn:=Exn) ts r)) stk w ac vs iv)
  = Config (Run (Return r)) stk w (ac ++ ts) vs iv.
Proof.
  revert ac. induction ts as [|t ts IH]; intros ac; simpl.
  - by rewrite app_nil_r.
  - rewrite IH. by rewrite <- app_assoc.
Qed.

Lemma leave_enter (w : @world Args Result Exn Tag) :
  0 ≤ m_recursionDepth w < SIZE_MOD → leave (enter w) = w.
Proof.
  intros. unfold leave, enter, set_depth. destruct w; simpl in *.
  by rewrite size_decr_incr by lia.
Qed.

Lemma steps_S n c c' :
  step this al c = Some c' → steps this al (S n) c = steps this al n c'.
Proof. intros E. simpl. by rewrite E. Qed.

Lemma step_loop_call (fr : @frame Args Result Exn Tag) stk w ac vs iv g :
  f_node fr ≠ m_head w → f_ok fr = true →
  get_function (f_node fr) (heap w) = Some (Some g) →
  step this al (Config (Loop fr) stk w ac vs iv)
  = Some (Config (Run (g (f_args fr))) (fr :: stk) (enter w) ac vs
            (iv ++ [f_node fr])).
Proof.
  intros Hn Hok Hf. unfold step. simpl. rewrite decide_True by done.
  by rewrite Hf.
Qed.

Lemma step_loop_skip (fr : @frame Args Result Exn Tag) stk w ac vs iv n :
  0 ≤ m_recursionDepth w < SIZE_MOD →
  f_node fr ≠ m_head w → f_ok fr = true →
  get_function (f_node fr) (heap w) = Some None →
  get_next (f_node fr) (heap w) = Some n →
  step this al (Config (Loop fr) stk w ac vs iv)
  = Some (Config (Loop (frame_next fr (f_acc fr) n (f_ok fr))) stk w ac vs iv).
Proof.
  intros Hd Hn Hok Hf Hnx. unfold step. simpl. rewrite decide_True by done.
  rewrite Hf. simpl. rewrite Hnx. simpl. by rewrite leave_enter.
Qed.

Lemma step_loop_end (fr : @frame Args Result Exn Tag) stk w w' ac vs iv :
  ¬ (f_node fr ≠ m_head w ∧ f_ok fr = true) →
  emit_finish w = Some w' →
  step this al (Config (Loop fr) stk w ac vs iv)
  = Some (Config (Run (f_k fr (agg_get (f_ag fr) (f_acc fr)))) stk w' ac vs iv).
Proof.
  intros Hn Hf. unfold step. simpl. rewrite decide_False by done.
  by rewrite Hf.
Qed.

Lemma step_return (fr : @frame Args Result Exn Tag) stk w ac vs iv r n :
  get_next (f_node fr) (heap w) = Some n →
  step this al (Config (Run (Return r)) (fr :: stk) w ac vs iv)
  = Some (Config (Loop (frame_next fr (aggregate (f_ag fr) r (f_acc fr)) n
                          (f_ctl fr r)))
            stk (leave w) ac vs iv).
Proof. intros Hn. unfold step. simpl. by rewrite Hn. Qed.

Lemma step_emit ag (ctrl : @controller Result) args k
    (stk : list (@frame Args Result Exn Tag)) w ac vs iv n :
  m_head w ≠ nullptr → get_next (m_head w) (heap w) = Some n →
  step this al (Config (Run (Emit ag ctrl args k)) stk w ac vs iv)
  = Some (Config (Loop (Frame ag (agg_init ag) k ctrl args n true))
            stk w ac vs iv).
Proof.
  intros Hh Hn. unfold step. simpl. rewrite decide_True by done.
  by rewrite Hn.
Qed.

Lemma step_connect f (k : connection_handler → @prog Args Result Exn Tag)
    stk w ac vs iv con w' :
  connect this al f w = Some (con, w') →
  step this al (Config (Run (Connect f k)) stk w ac vs iv)
  = Some (Config (Run (k con)) stk w' ac vs iv).
Proof. intros E. unfold step. simpl. by rewrite E. Qed.

Lemma reaches_refl c : reaches this al c c.
Proof. by exists 0%nat. Qed.

Lemma reaches_trans c1 c2 c3 :
  reaches this al c1 c2 → reaches this al c2 c3 → reaches this al c1 c3.
Proof.
  intros [n <-] [m <-]. exists (n + m)%nat. apply steps_add.
Qed.

Lemma reaches_step c1 c2 c3 :
  step this al c1 = Some c2 → reaches this al c2 c3 → reaches this al c1 c3.
Proof. intros E [n <-]. exists (S n). by apply steps_S. Qed.

(** One round of the loop over a node that holds a quiet slot. *)
Lemma loop_call_quiet ag acc k (ctrl : @controller Result) args
    (stk : list (@frame Args Result Exn Tag)) w ac vs iv x out res n :
  0 ≤ m_recursionDepth w < SIZE_MOD →
  x ≠ m_head w →
  get_function x (heap w) = Some (Some (quiet out res)) →
  get_next x (heap w) = Some n →
  steps this al (S (length (out args) + 1))
    (Config (Loop (Frame ag acc k ctrl args x true)) stk w ac vs iv)
  = Config (Loop (Frame ag (aggregate ag (res args) acc) k ctrl args n
                    (ctrl (res args))))
      stk w (ac ++ out args) vs (iv ++ [x]).
Proof.
  intros Hd Hh Hf Hn.
  erewrite steps_S; [|by apply step_loop_call].
  rewrite steps_add. unfold quiet. simpl f_args. rewrite steps_says.
  erewrite steps_S; [|by apply step_return].
  simpl. by rewrite leave_enter.
Qed.

(** One round of the loop over a node that holds nothing or a quiet slot. *)
Lemma loop_quiet ag acc k (ctrl : @controller Result) args
    (stk : list (@frame Args Result Exn Tag)) w ac vs iv
    (d : @descr Args Result Tag) n :
  0 ≤ m_recursionDepth w < SIZE_MOD →
  d.1 ≠ m_head w →
  get_function d.1 (heap w) = Some (descr_slot d) →
  get_next d.1 (heap w) = Some n →
  (∀ r, ctrl r = true) →
  ∃ m, steps this al m (Config (Loop (Frame ag acc k ctrl args d.1 true))
                         stk w ac vs iv)
       = Config (Loop (Frame ag (aggregate_all ag (results args [d]) acc)
                         k ctrl args n true))
           stk w (ac ++ outputs args [d]) vs (iv ++ called [d]).
Proof.
  intros Hd Hh Hf Hn Hc. destruct d as [x [[out res]|]]; simpl in *.
  - eexists. rewrite (loop_call_quiet _ _ _ _ _ _ _ _ _ _ _ out res n) by done.
    rewrite Hc.
    unfold outputs, called, results. simpl. by rewrite app_nil_r.
  - exists 1%nat.
    erewrite steps_S; [|by apply step_loop_skip].
    simpl steps.
    unfold outputs, called, results. simpl. by rewrite !app_nil_r.
Qed.

(** The loop over a stretch of the ring whose slots are quiet. *)
Lemma walk_quiet ag k (ctrl : @controller Result) args
    (stk : list (@frame Args Result Exn Tag)) w vs z :
  0 ≤ m_recursionDepth w < SIZE_MOD →
  (∀ r, ctrl r = true) →
  ∀ (ds : list (@descr Args Result Tag)) a acc ac iv,
    linked (heap w) a ds.*1 z → m_head w ∉ ds.*1 → holds (heap w) ds →
    ∃ m, steps this al m
           (Config (Loop (Frame ag acc k ctrl args (hd z ds.*1) true))
              stk w ac vs iv)
         = Config (Loop (Frame ag (aggregate_all ag (results args ds) acc)
                           k ctrl args z true))
             stk w (ac ++ outputs args ds) vs (iv ++ called ds).
Proof.
  intros Hd Hc. induction ds as [|d ds IH]; intros a acc ac iv H Hh Hf.
  - exists 0%nat. simpl. unfold outputs, called. simpl. by rewrite !app_nil_r.
  - simpl in *. destruct H as (_ & _ & H).
    apply Forall_cons in Hf as [Hf1 Hf2].
    destruct (loop_quiet ag acc k ctrl args stk w ac vs iv d (hd z ds.*1))
      as (m1 & E1); try done.
    { set_solver. }
    { by apply linked_next in H. }
    destruct (IH d.1 (aggregate_all ag (results args [d]) acc)
                (ac ++ outputs args [d]) (iv ++ called [d]))
      as (m2 & E2); [done|set_solver|done|].
    exists (m1 + m2)%nat. rewrite steps_add, E1, E2.
    f_equal.
    + f_equal. destruct d as [x [[out res]|]]; done.
    + rewrite <- app_assoc. f_equal.
      destruct d as [x [[out res]|]]; unfold outputs; simpl; [|done].
      by rewrite app_nil_r.
    + rewrite <- app_assoc. f_equal.
      destruct d as [x [[out res]|]]; done.
Qed.

End Machine.

(** * Disconnecting and querying a handle *)

Section Handles.

Context {Args Result Exn Tag : Type}.
Variable this : ptr.

Implicit Types w : @world Args Result Exn Tag.
Implicit Types l : list ptr.
Implicit Types id : ptr.

Lemma disconnect_this id w : disconnect this (this, id) w = disconnect_id id w.
Proof. unfold disconnect. simpl. by rewrite decide_False by tauto. Qed.

Lemma empty_slot_true (h : gmap ptr (@node Args Result Exn Tag)) x :
  empty_slot h x = true ↔ get_function x h = Some None.
Proof.
  unfold empty_slot. destruct (get_function x h) as [[?|]|]; naive_solver.
Qed.

Lemma deactivate_again (h : gmap ptr (@node Args Result Exn Tag)) x :
  get_function x h = Some None → deactivate x h = Some h.
Proof.
  unfold get_function, deactivate, set_function.
  destruct (h !! x) as [[n p f]|] eqn:E; simpl; [|done].
  intros [= ->]. by rewrite insert_id.
Qed.

(** What [disconnect] does with a handle, other than one made of the
    sentinel's address. *)
Lemma disconnect_spec (con : connection_handler) w l :
  ring_of w l →
  (con.1 = this → con.2 ≠ m_head w ∨ m_head w = nullptr) →
  if decide (con.1 = this ∧ con.2 ∈ l) then
    ∃ w', disconnect this con w = Some (true, w') ∧
      m_head w' = m_head w ∧ m_recursionDepth w' = m_recursionDepth w ∧
      (m_recursionDepth w = 0 →
       heap w' !! con.2 = None ∧
       m_deactivations w' = m_deactivations w ∧
       ∃ l1 l2, l = l1 ++ con.2 :: l2 ∧ ring_of w' (l1 ++ l2)) ∧
      (m_recursionDepth w ≠ 0 →
       ring_of w' l ∧ empty_slot (heap w') con.2 = true ∧
       m_deactivations w' = true)
  else disconnect this con w = Some (false, w).
Proof.
  intros R Hs. destruct con as [c1 id]. simpl in *.
  destruct (decide (c1 = this ∧ id ∈ l)) as [[-> Hid]|Hn].
  - rewrite disconnect_this. destruct (decide (m_recursionDepth w = 0)) as [Hd|Hd].
    + apply list_elem_of_split in Hid as (l1 & l2 & ->).
      destruct (disconnect_id_now id _ _ _ R Hd) as (h' & E' & R' & G & D & F).
      eexists; split; [done|]. split_and!; try done.
      intros _. split_and!; try done. by exists l1, l2.
    + destruct (disconnect_id_later id _ _ R Hid Hd) as (h' & E' & U & R').
      eexists; split; [done|]. split_and!; try done.
      intros _. split_and!; try done.
      apply empty_slot_true. simpl. rewrite (upd_function _ _ _ _ _ U).
      by rewrite decide_True.
  - unfold disconnect. simpl. destruct (decide (c1 ≠ this)) as [|Hc]; [done|].
    apply dec_stable in Hc. subst c1.
    apply (disconnect_id_absent _ _ l); [done|tauto|tauto].
Qed.

(** C1 does not hold for the handle made of the sentinel's address.  The
    scan of [disconnect] ends on the sentinel when it has not found the
    pointer, and the test that follows compares the node it ended on with
    the pointer.  The sentinel is no connection, and [connected] answers
    false for its address; yet [disconnect] answers true for it instead of
    false: with the counter at zero it deletes the sentinel while [m_head]
    still points to it, and otherwise it sets the flag.  (For every other
    handle [disconnect] does what C1 says: [disconnect_spec].) *)
Theorem disconnect_matches_sentinel w l :
  ring_of w l → m_head w ≠ nullptr →
  connected this (this, m_head w) w = Some false ∧
  ∃ w', disconnect this (this, m_head w) w = Some (true, w') ∧
    m_head w' = m_head w ∧
    (m_recursionDepth w = 0 → heap w' !! m_head w' = None) ∧
    (m_recursionDepth w ≠ 0 → m_deactivations w' = true).
Proof.
  intros R Hh. split.
  - rewrite (connected_spec this _ w l R). simpl.
    rewrite bool_decide_eq_false_2; [done|].
    apply ring_of_ring in R as [N _]; [|done].
    apply NoDup_cons in N as [? _]. tauto.
  - rewrite disconnect_this.
    destruct (disconnect_id_sentinel w l R Hh) as (h' & E & P).
    rewrite E. eexists; split; [done|].
    destruct (decide (m_recursionDepth w = 0)); simpl; split_and!; done.
Qed.

(** C6.  [connected] answers true exactly for the handles of this signal
    whose node is one of the nodes [l] of the ring, whether the node still
    holds its slot or not; it never reads a node that is not live (the
    answer is always [Some]).  So it still answers true for a node that
    [disconnect] has only deactivated, and false once [disconnect] has
    deleted the node. *)
Theorem connected_iff_reachable (con : connection_handler) w l :
  ring_of w l →
  connected this con w = Some (bool_decide (con.1 = this ∧ con.2 ∈ l)) ∧
  (con.1 = this → con.2 ∈ l → m_recursionDepth w ≠ 0 →
   ∃ w', disconnect this con w = Some (true, w') ∧ ring_of w' l ∧
     empty_slot (heap w') con.2 = true ∧
     connected this con w' = Some true) ∧
  (con.1 = this → con.2 ∈ l → m_recursionDepth w = 0 →
   ∃ w', disconnect this con w = Some (true, w') ∧
     heap w' !! con.2 = None ∧
     connected this con w' = Some false).
Proof.
  intros R. split; [by apply connected_spec|].
  destruct con as [c1 id]. simpl. split; intros -> Hid Hd.
  - rewrite disconnect_this.
    destruct (disconnect_id_later id _ _ R Hid Hd) as (h' & E' & U & R').
    eexists; split; [done|]. split; [done|]. split.
    + apply empty_slot_true. simpl. rewrite (upd_function _ _ _ _ _ U).
      by rewrite decide_True.
    + rewrite (connected_spec this _ _ l R'). simpl.
      by rewrite bool_decide_eq_true_2.
  - rewrite disconnect_this.
    apply list_elem_of_split in Hid as (l1 & l2 & ->).
    pose proof R as R0.
    destruct (disconnect_id_now id _ _ _ R Hd) as (h' & E' & R' & G & D & F).
    eexists; split; [done|]. split; [done|].
    rewrite (connected_spec this _ _ _ R'). simpl.
    rewrite bool_decide_eq_false_2; [done|]. intros [_ Hin].
    assert (m_head w ≠ nullptr) as Hh.
    { apply (ring_of_elem_head w id _ R0). set_solver. }
    apply ring_of_ring in R0 as [N _]; [|done].
    apply NoDup_cons in N as [_ N]. apply NoDup_app in N as (_ & N1 & N2).
    apply NoDup_cons in N2 as [N2 _].
    apply elem_of_app in Hin as [Hin|Hin]; [|done].
    apply (N1 id Hin). set_solver.
Qed.

(** C10.  While a slot is running, [disconnect] on a node of the ring
    answers true and leaves the node in the ring with its slot empty and
    the flag set; called again on the node it has deactivated, it answers
    true again and changes nothing at all. *)
Theorem disconnect_again_during_emission id w l :
  ring_of w l → id ∈ l → m_recursionDepth w ≠ 0 →
  (∃ w1, disconnect this (this, id) w = Some (true, w1) ∧
     ring_of w1 l ∧ empty_slot (heap w1) id = true ∧
     m_deactivations w1 = true ∧
     m_recursionDepth w1 = m_recursionDepth w ∧
     disconnect this (this, id) w1 = Some (true, w1)) ∧
  (empty_slot (heap w) id = true → m_deactivations w = true →
   disconnect this (this, id) w = Some (true, w)).
Proof.
  intros R Hid Hd.
  assert (m_head w ≠ nullptr) as Hh by apply (ring_of_elem_head w id _ R Hid).
  assert (∀ w0, ring_of w0 l → m_head w0 ≠ nullptr →
            m_recursionDepth w0 ≠ 0 →
            empty_slot (heap w0) id = true → m_deactivations w0 = true →
            disconnect this (this, id) w0 = Some (true, w0)) as Hagain.
  { intros w0 R0 Hh0 Hd0 He Hf. rewrite disconnect_this.
    rewrite (disconnect_id_unfold id w0 l R0 Hh0). simpl.
    rewrite (decide_True (P := id ∈ l)) by done.
    rewrite decide_True by done. rewrite decide_False by done.
    rewrite deactivate_again by by apply empty_slot_true.
    simpl. destruct w0; simpl in *. by subst. }
  split; [|by apply Hagain].
  rewrite disconnect_this.
  destruct (disconnect_id_later id _ _ R Hid Hd) as (h' & E' & U & R').
  eexists; split; [done|].
  assert (empty_slot (heap (set_deactivations true (set_heap h' w))) id = true).
  { apply empty_slot_true. simpl. rewrite (upd_function _ _ _ _ _ U).
    by rewrite decide_True. }
  split_and!; try done. by apply Hagain.
Qed.

End Handles.

(** * Deciding well-formedness of a given world *)

Section Decide.

Context {Args Result Exn Tag : Type}.

#[global] Instance linked_dec (h : gmap ptr (@node Args Result Exn Tag)) a l z :
  Decision (linked h a l z).
Proof. revert a. induction l as [|x l IH]; intros a; simpl; apply _. Defined.

#[global] Instance ring_dec (h : gmap ptr (@node Args Result Exn Tag)) head l :
  Decision (ring h head l).
Proof. unfold ring. apply _. Defined.

#[global] Instance ring_of_dec (w : @world Args Result Exn Tag) l :
  Decision (ring_of w l).
Proof. unfold ring_of. destruct (decide (m_head w = nullptr)); apply _. Defined.

#[global] Instance cursor_ok_dec (w : @world Args Result Exn Tag) l c :
  Decision (cursor_ok w l c).
Proof. destruct c; simpl; apply _. Defined.

#[global] Instance Inv_dec (c : @config Args Result Exn Tag) l :
  Decision (Inv c l).
Proof.
  refine (match decide
    (ring_of (st c) l ∧
     m_recursionDepth (st c) = Z.of_nat (length (stack c)) ∧
     Z.of_nat (length (stack c)) < SIZE_MOD ∧
     cursor_ok (st c) l (ctl c) ∧
     Forall (λ fr, f_node fr ∈ l) (stack c)) with
    | left H => left _
    | right H => right _
    end).
  - destruct H as (? & ? & ? & ? & ?). by split.
  - intros [? ? ? ? ?]. tauto.
Defined.

End Decide.

(** * The reentrancy counter *)

Section Counter.

Context {Args Result Exn Tag : Type}.
Variable this : ptr.
Variable al : allocator.

Implicit Types c : @config Args Result Exn Tag.
Implicit Types w : @world Args Result Exn Tag.

Lemma connect_depth f w con w' :
  connect this al f w = Some (con, w') →
  m_recursionDepth w' = m_recursionDepth w.
Proof.
  unfold connect, new_node. intros E.
  destruct (decide (m_head w = nullptr)); cbv beta iota zeta in E;
    simpl in E; destruct (insert _ _ _); simplify_eq/=; done.
Qed.

Lemma disconnect_depth con w b w' :
  disconnect this con w = Some (b, w') →
  m_recursionDepth w' = m_recursionDepth w.
Proof.
  unfold disconnect, disconnect_id. intros E.
  repeat (case_decide || simplify_option_eq); done.
Qed.

Lemma emit_finish_depth w w' :
  emit_finish w = Some w' → m_recursionDepth w' = m_recursionDepth w.
Proof.
  unfold emit_finish. intros E.
  repeat (case_decide || simplify_option_eq); done.
Qed.

Lemma step_counter_move c c' : step this al c = Some c' → counter_move c c'.
Proof.
  intros E. destruct c as [ct stk w ac vs iv]. unfold step in E. simpl in E.
  destruct ct as [[r|e|t k|x k|x con k|f k|con k|con k|ag ctrl args k]|fr].
  - destruct stk as [|fr stk]; [done|].
    destruct (get_next (f_node fr) (heap w)); simplify_eq/=.
    apply (cm_return _ _ fr); simpl; eauto.
  - destruct stk as [|fr stk]; [done|]. simplify_eq/=.
    apply (cm_return _ _ fr); simpl; eauto.
  - simplify_eq. by apply cm_stay.
  - simplify_eq. by apply cm_stay.
  - simplify_eq. by apply cm_stay.
  - destruct (connect this al f w) as [[con w']|] eqn:E'; simplify_eq/=.
    apply cm_stay; simpl; [done|]. by eapply connect_depth.
  - destruct (disconnect this con w) as [[b w']|] eqn:E'; simplify_eq/=.
    apply cm_stay; simpl; [done|]. by eapply disconnect_depth.
  - destruct (connected this con w); simplify_eq/=. by apply cm_stay.
  - case_decide; [destruct (get_next _ _)|]; simplify_eq/=; by apply cm_stay.
  - case_decide.
    + simpl in E.
      destruct (get_function (f_node fr) (heap w)) as [[g|]|] eqn:Ef;
        simpl in E; [| |done].
      * simplify_eq. by eapply cm_call.
      * destruct (get_next _ _); simplify_eq/=. by eapply cm_skip.
    + destruct (emit_finish w) as [w'|] eqn:E'; simplify_eq/=.
      apply cm_stay; simpl; [done|]. by apply emit_finish_depth.
Qed.

Lemma bstep_counter c c' :
  m_recursionDepth (st c) = Z.of_nat (length (stack c)) →
  Z.of_nat (length (stack c)) < SIZE_MOD →
  bstep this al c c' → counter_step c c'.
Proof.
  intros Da Ba [E Bb]. apply step_counter_move in E. unfold counter_step.
  destruct E as [fr g H1 H2 H3 H4 H5|fr H1 H2 H3|fr H1 H2 H3 H4|H1 H2].
  - rewrite H4 in Bb. simpl in Bb.
    rewrite size_incr_small in H5 by lia.
    split; [rewrite H5, H4, Da; simpl; lia|]. left. by exists fr, g.
  - rewrite H2 in Da, Ba. simpl in Da, Ba.
    rewrite size_decr_small in H3 by lia.
    split; [lia|]. right; left. by exists fr.
  - rewrite size_decr_incr in H4 by lia.
    split; [by rewrite H4, H3|]. right; right. done.
  - split; [by rewrite H2, H1|]. right; right. done.
Qed.

(** C8.  In every configuration of a run, the counter is the number of
    slot invocations on the call stack.  It goes up by one in the step
    that calls a slot, down by one in the step in which a slot returns or
    throws, and no other step changes it.  (The round of the loop over a
    node without a slot constructs and destroys the scoped increment
    without running any code in between: that round is one step, after
    which the counter is what it was.) *)
Theorem counter_counts_invocations c c' :
  m_recursionDepth (st c) = Z.of_nat (length (stack c)) →
  Z.of_nat (length (stack c)) < SIZE_MOD →
  rtc (bstep this al) c c' →
  m_recursionDepth (st c') = Z.of_nat (length (stack c')) ∧
  ∀ c'', bstep this al c' c'' → counter_step c' c''.
Proof.
  intros D B Hrun.
  assert (m_recursionDepth (st c') = Z.of_nat (length (stack c')) ∧
          Z.of_nat (length (stack c')) < SIZE_MOD) as [D' B'].
  { induction Hrun as [|a b d Hab Hbd IH]; [done|].
    apply IH; [by apply (bstep_counter a b)|apply Hab]. }
  split; [done|]. intros c'' Hs. by apply bstep_counter.
Qed.

End Counter.

(** * Deferred removal *)

Section Deferred.

Context {Args Result Exn Tag : Type}.
Variable this : ptr.
Variable al : allocator.

Implicit Types c : @config Args Result Exn Tag.
Implicit Types w : @world Args Result Exn Tag.
Implicit Types l : list ptr.

(** A well-formed configuration is the end of the program, or makes a
    step: no pointer to a deleted node is used. *)
Lemma step_progress c l :
  Inv c l →
  (∃ c', step this al c = Some c') ∨
  (stack c = [] ∧
   ((∃ r, ctl c = Run (Return r)) ∨ (∃ e, ctl c = Run (Throw e)))).
Proof.
  intros [R D B C S]. destruct c as [ct stk w ac vs iv]. simpl in *.
  unfold step. simpl.
  destruct ct as [[r|e|t k|x k|x con k|f k|con k|con k|ag ctrl args k]|fr].
  - destruct stk as [|fr stk]; [right; eauto|left].
    apply Forall_cons in S as [Hfr S].
    assert (m_head w ≠ nullptr) as Hh by apply (ring_of_elem_head _ _ _ R Hfr).
    apply ring_of_ring in R; [|done].
    destruct (ring_next_elem _ _ _ (f_node fr) R) as (n & En & Hn);
      [set_solver|].
    rewrite En. simpl. eauto.
  - destruct stk as [|fr stk]; [right; eauto|left; eauto].
  - left; eauto.
  - left; eauto.
  - left; eauto.
  - left. destruct (connect_spec this al f w l R) as (p & w' & E' & _).
    rewrite E'. simpl. eauto.
  - left. destruct con as [c1 id]. unfold disconnect. simpl.
    destruct (decide (c1 ≠ this)); simpl; [eauto|].
    destruct (decide (id ∈ l)) as [Hid|Hid].
    + destruct (decide (m_recursionDepth w = 0)) as [Hd|Hd].
      * apply list_elem_of_split in Hid as (l1 & l2 & ->).
        destruct (disconnect_id_now id _ _ _ R Hd) as (h' & E' & _).
        rewrite E'. simpl. eauto.
      * destruct (disconnect_id_later id _ _ R Hid Hd) as (h' & E' & _).
        rewrite E'. simpl. eauto.
    + destruct (decide (id = m_head w ∧ m_head w ≠ nullptr)) as [[-> Hh]|Hn].
      * destruct (disconnect_id_sentinel _ _ R Hh) as (h' & E' & _).
        rewrite E'. simpl. eauto.
      * rewrite (disconnect_id_absent id _ l); [simpl; eauto|done|done|].
        destruct (decide (m_head w = nullptr)); [by right|left].
        intros ->. tauto.
  - left. rewrite (connected_spec this con w l R). simpl. eauto.
  - left. destruct (decide (m_head w ≠ nullptr)) as [Hh|Hh]; [|eauto].
    apply ring_of_ring in R; [|done].
    rewrite (linked_next _ _ _ _ (proj2 R)). simpl. eauto.
  - left. destruct C as [Hh C]. pose proof R as R0.
    apply ring_of_ring in R; [|done].
    destruct (decide (f_node fr ≠ m_head w ∧ f_ok fr = true)) as [[Hn Hok]|Hn].
    + destruct (ring_live _ _ _ (f_node fr) R) as [nd Hnd]; [set_solver|].
      unfold get_function. simpl. rewrite Hnd. simpl.
      destruct (m_function nd) as [g|]; [eauto|].
      destruct (ring_next_elem _ _ _ (f_node fr) R) as (n & En & _);
        [set_solver|].
      rewrite En. simpl. eauto.
    + pose proof (emit_finish_spec w l R0 Hh) as F.
      case_decide.
      * destruct F as (h' & E' & _). rewrite E'. simpl. eauto.
      * rewrite F. simpl. eauto.
Qed.

Lemma sstep_inv c c' l :
  Inv c l → sstep this al c c' →
  ∃ l', Inv c' l' ∧ change this c (st c') l l'.
Proof. intros I (E & M & B). by eapply step_inv. Qed.

Lemma run_inv c c' l :
  Inv c l → rtc (sstep this al) c c' → ∃ l', Inv c' l'.
Proof.
  intros I Hrun. revert l I.
  induction Hrun as [|a b d Hab Hbd IH]; intros l I; [by exists l|].
  destruct (sstep_inv a b l I Hab) as (l' & I' & _). by eapply IH.
Qed.

Lemma Inv_stack_depth c l :
  Inv c l → stack c ≠ [] → m_recursionDepth (st c) ≠ 0.
Proof.
  intros I Hs. rewrite (inv_depth _ _ I). destruct (stack c); [done|].
  simpl. lia.
Qed.

(** While an emission is under way, a step removes no node, fills no
    empty slot and does not clear the flag. *)
Lemma emission_step_keeps c c' l :
  Inv c l → emission_step this al c c' →
  ∃ l', Inv c' l' ∧ (∃ l'', l' = l ++ l'') ∧
    (∀ x, x ∈ l → empty_slot (heap (st c)) x = true →
          empty_slot (heap (st c')) x = true) ∧
    (m_deactivations (st c) = true → m_deactivations (st c') = true).
Proof.
  intros I [[E B] Hs].
  destruct (step_inv this al c c' l I) as (l' & I' & Ch); [|done|done|].
  { intros (Hs' & _ & k & Hk). destruct Hs as [?|(fr & Hfr & _)]; congruence. }
  assert (∀ k x, ctl c = Run (Disconnect (this, x) k) →
                 m_recursionDepth (st c) ≠ 0) as Hrun.
  { intros k x Hk. destruct Hs as [Hs|(fr & Hfr & _)]; [|congruence].
    by apply (Inv_stack_depth c l). }
  exists l'. split; [done|].
  destruct Ch as [H1 H2 H3|f p k Hk H1 H2 H3 H4 H5 H6
                 |l1 x l2 k Hk H0 H1 H2 H3 H4 H5
                 |x k Hk H0 H1 H2 H3 H4 H5|fr Hk Hend H0 H1 H2 H3 H4 H5].
  - subst l'. split; [by exists []; rewrite app_nil_r|].
    rewrite H1, H2. done.
  - split; [by exists [p]|]. rewrite H6. split; [|done].
    intros y Hy. unfold empty_slot. by rewrite H5.
  - by destruct (Hrun k x Hk).
  - subst l'. split; [by exists []; rewrite app_nil_r|]. split; [|done].
    intros y Hy. unfold empty_slot. destruct (decide (y = x)) as [->|Hn].
    + by rewrite H3.
    + by rewrite H4.
  - exfalso. destruct Hs as [Hs|(fr' & Hfr & Hgo)].
    + by apply (Inv_stack_depth c l I Hs).
    + rewrite Hk in Hfr. by simplify_eq.
Qed.

(** C2.  When the walk of an [emit] is over, the sweep is made exactly if
    the counter is zero and the flag is set: then no slot is running, the
    nodes with an empty slot are deleted, the others stay in their order
    and the flag is cleared; otherwise the signal is left as it is, which
    is the case of every [emit] called from a slot.  As long as an
    emission is under way (a slot is running, or the outermost [emit] has
    not ended its walk), no step takes a node out of the ring, a
    deactivated node stays deactivated and the flag stays set: the node is
    deleted only when the outermost [emit] has finished its walk. *)
Theorem sweep_only_after_outermost_emit c l :
  Inv c l →
  (∀ fr, ctl c = Loop fr →
         ¬ (f_node fr ≠ m_head (st c) ∧ f_ok fr = true) →
     ∃ c', step this al c = Some c' ∧
       ctl c' = Run (f_k fr (agg_get (f_ag fr) (f_acc fr))) ∧
       stack c' = stack c ∧
       (stack c ≠ [] → st c' = st c) ∧
       if decide (m_recursionDepth (st c) = 0 ∧ m_deactivations (st c) = true)
       then stack c = [] ∧
            ring_of (st c') (active (heap (st c)) l) ∧
            m_deactivations (st c') = false ∧
            (∀ x, x ∈ l → empty_slot (heap (st c)) x = true →
                  heap (st c') !! x = None) ∧
            (∀ x, x ∈ active (heap (st c)) l →
                  get_function x (heap (st c'))
                  = get_function x (heap (st c)))
       else st c' = st c) ∧
  (∀ c', rtc (emission_step this al) c c' →
     ∃ l', Inv c' l' ∧ (∃ l'', l' = l ++ l'') ∧
       (∀ x, x ∈ l → empty_slot (heap (st c)) x = true →
             empty_slot (heap (st c')) x = true) ∧
       (m_deactivations (st c) = true → m_deactivations (st c') = true)).
Proof.
  intros I. split.
  - intros fr Hc Hend. destruct c as [ct stk w ac vs iv]. simpl in *.
    subst ct. pose proof (inv_cursor _ _ I) as [Hh _]. simpl in Hh.
    pose proof (emit_finish_spec w l (inv_ring _ _ I) Hh) as F.
    pose proof (inv_depth _ _ I) as D. simpl in D.
    destruct (decide (m_recursionDepth w = 0 ∧ m_deactivations w = true))
      as [[Hd Hf]|Hn].
    + destruct F as (h' & E' & R' & F1 & F2).
      eexists. split; [by apply step_loop_end|]. simpl.
      assert (stk = []) as -> by (destruct stk; [done|simpl in D; lia]).
      split_and!; try done.
      intros x [Hx He]%active_elem. apply F2. intros [_ He']. congruence.
    + eexists. split; [by apply step_loop_end|]. simpl. done.
  - intros c' Hrun. revert l I.
    induction Hrun as [a|a b d Hab Hbd IH]; intros l I.
    + exists l. split; [done|]. split; [by exists []; rewrite app_nil_r|].
      done.
    + destruct (emission_step_keeps a b l I Hab)
        as (l1 & I1 & [l1' ->] & K1 & G1).
      destruct (IH _ I1) as (l2 & I2 & [l2' ->] & K2 & G2).
      exists ((l ++ l1') ++ l2'). split; [done|].
      split; [by exists (l1' ++ l2'); rewrite app_assoc|].
      split; [|tauto]. intros x Hx He. apply K2; [set_solver|]. by apply K1.
Qed.


Lemma unwind e (stk : list (@frame Args Result Exn Tag)) : ∀ w ac vs iv,
  m_recursionDepth w = Z.of_nat (length stk) →
  Z.of_nat (length stk) < SIZE_MOD →
  steps this al (length stk) (Config (Run (Throw e)) stk w ac vs iv)
  = Config (Run (Throw e)) [] (set_depth 0 w) ac vs iv.
Proof.
  induction stk as [|fr stk IH]; intros w ac vs iv D B; simpl in *.
  - change 0 with (Z.of_nat 0). by rewrite <- D, set_depth_depth.
  - rewrite IH; [done| |lia]. simpl.
    rewrite D, size_decr_small by lia. lia.
Qed.

(** C5.  When a slot throws, each [emit] on the call stack is left in
    turn: its scoped increment ends, so the counter goes down by one, the
    rest of its walk is given up, and the exception goes on to the code
    that called it.  After as many steps as there were slot invocations,
    the exception is with the code that called the outermost [emit] and
    the run stops there; no slot has been called meanwhile; the counter
    is zero; the heap, the ring and the flag are what they were at the
    throw, so the deactivated nodes are still to be swept, and the signal
    is well-formed for what is done with it next. *)
Theorem error_leaves_signal_valid c l e :
  Inv c l → ctl c = Run (Throw e) →
  (∀ fr stk, stack c = fr :: stk →
     step this al c
     = Some (Config (Run (Throw e)) stk (leave (st c)) (accu c) (vars c)
               (invoked c)) ∧
     m_recursionDepth (leave (st c)) = m_recursionDepth (st c) - 1) ∧
  ∃ c', steps this al (length (stack c)) c = c' ∧
    step this al c' = None ∧
    ctl c' = Run (Throw e) ∧ stack c' = [] ∧
    invoked c' = invoked c ∧ accu c' = accu c ∧
    heap (st c') = heap (st c) ∧ m_head (st c') = m_head (st c) ∧
    m_deactivations (st c') = m_deactivations (st c) ∧
    m_recursionDepth (st c') = 0 ∧
    Inv c' l ∧
    ∀ p, Inv (Config (Run p) [] (st c') (accu c') (vars c') (invoked c')) l.
Proof.
  intros I Hc. destruct c as [ct stk w ac vs iv]. simpl in *. subst ct.
  destruct I as [R D B C S]. simpl in *. split.
  - intros fr stk' ->. split; [done|]. simpl in *.
    rewrite D, size_decr_small by lia. lia.
  - eexists. split; [by apply unwind|]. simpl. split_and!; try done.
    all: try intros p; by split.
Qed.

End Deferred.

(** * Where empty slots come from *)

Section Empty.

Context {Args Result Exn Tag : Type}.
Variable this : ptr.
Variable al : allocator.

Implicit Types c : @config Args Result Exn Tag.
Implicit Types w : @world Args Result Exn Tag.
Implicit Types l : list ptr.

Lemma in_ring_elem w l x : ring_of w l → in_ring w x ↔ x ∈ l.
Proof.
  intros R. split; [|by exists l].
  intros (l' & R' & Hx). by rewrite (ring_of_inj _ _ _ R R').
Qed.

Lemma emptied_run x c0 c : emptied this al x c0 c → rtc (sstep this al) c0 c.
Proof.
  induction 1 as [c c' k Hrun Hs _ _ _|c c' k Hrun Hs _ _ _|c c' _ IH Hs _];
    eapply rtc_r; done.
Qed.

(** A slot found empty after a step was empty before, or the step is the
    deferred [disconnect] of the node, or the [connect] of an empty
    function. *)
Lemma step_empty_origin c c' l l' x :
  Inv c l → sstep this al c c' → ring_of (st c') l' → x ∈ l' →
  empty_slot (heap (st c')) x = true →
  (x ∈ l ∧ empty_slot (heap (st c)) x = true) ∨
  (∃ k, ctl c = Run (Disconnect (this, x) k) ∧
        m_recursionDepth (st c) ≠ 0 ∧ x ∈ l) ∨
  (∃ k, ctl c = Run (Connect None k) ∧ x ∉ l).
Proof.
  intros I Hs R' Hx He.
  destruct (sstep_inv this al c c' l I Hs) as (l1 & I1 & Ch).
  rewrite (ring_of_inj _ _ _ R' (inv_ring _ _ I1)) in Hx. clear R' l'.
  destruct Ch as [H1 H2 H3|f p k Hk H1 H2 H3 H4 H5 H6
                 |l1' y l2' k Hk H0 H1 H2 H3 H4 H5
                 |y k Hk H0 H1 H2 H3 H4 H5|fr Hk Hend H0 H1 H2 H3 H4 H5].
  - left. subst l1. by rewrite <- H1.
  - subst l1. apply elem_of_app in Hx as [Hx|Hx].
    2: apply list_elem_of_singleton in Hx as ->.
    + left. split; [done|]. unfold empty_slot in *. by rewrite <- H5.
    + right; right. apply empty_slot_true in He. rewrite H4 in He.
      injection He as ->. by exists k.
  - left. subst l l1.
    assert (x ≠ y) as Hn.
    { intros ->. destruct (ring_of_elem_head _ _ _ (inv_ring _ _ I1) Hx).
      pose proof (inv_ring _ _ I1) as R1.
      assert (m_head (st c') ≠ nullptr) as Hh
        by apply (ring_of_elem_head _ _ _ R1 Hx).
      apply ring_of_ring in R1; [|done].
      destruct (ring_live _ _ _ y R1) as [? E]; [set_solver|]. congruence. }
    split; [set_solver|]. unfold empty_slot in *. by rewrite <- H4.
  - subst l1. destruct (decide (x = y)) as [->|Hn].
    + right; left. by exists k.
    + left. split; [done|]. unfold empty_slot in *. by rewrite <- H4.
  - exfalso. subst l1. apply active_elem in Hx as [Hx Hf].
    unfold empty_slot in *. rewrite H4 in He; [congruence|].
    intros [_ ?]. congruence.
Qed.

(** An empty slot stays empty for as long as its node is in the ring. *)
Lemma step_empty_kept c c' l l' x :
  Inv c l → sstep this al c c' → ring_of (st c') l' →
  x ∈ l → x ∈ l' → empty_slot (heap (st c)) x = true →
  empty_slot (heap (st c')) x = true.
Proof.
  intros I Hs R' Hx Hx' He.
  destruct (sstep_inv this al c c' l I Hs) as (l1 & I1 & Ch).
  pose proof (inv_ring _ _ I1) as R1.
  rewrite (ring_of_inj _ _ _ R' R1) in Hx'. clear R' l'.
  destruct Ch as [H1 H2 H3|f p k Hk H1 H2 H3 H4 H5 H6
                 |l1' y l2' k Hk H0 H1 H2 H3 H4 H5
                 |y k Hk H0 H1 H2 H3 H4 H5|fr Hk Hend H0 H1 H2 H3 H4 H5].
  - by rewrite H1.
  - unfold empty_slot in *. by rewrite H5.
  - unfold empty_slot in *. rewrite H4; [done|]. intros ->.
    assert (m_head (st c') ≠ nullptr) as Hh
      by apply (ring_of_elem_head _ _ _ R1 Hx').
    apply ring_of_ring in R1; [|done].
    destruct (ring_live _ _ _ y R1) as [? E]; [set_solver|]. congruence.
  - unfold empty_slot in *. destruct (decide (x = y)) as [->|Hn].
    + by rewrite H3.
    + by rewrite H4.
  - exfalso.
    assert (m_head (st c') ≠ nullptr) as Hh
      by apply (ring_of_elem_head _ _ _ R1 Hx').
    apply ring_of_ring in R1; [|done].
    destruct (ring_live _ _ _ x R1) as [? E]; [set_solver|].
    rewrite H3 in E; done.
Qed.

Lemma step_deferred c c' l x k :
  Inv c l → step this al c = Some c' →
  ctl c = Run (Disconnect (this, x) k) →
  m_recursionDepth (st c) ≠ 0 → x ∈ l →
  ring_of (st c') l ∧ empty_slot (heap (st c')) x = true.
Proof.
  intros I E Hk Hd Hx. destruct c as [ct stk w ac vs iv]. simpl in *.
  subst ct. unfold step in E. simpl in E. rewrite disconnect_this in E.
  destruct (disconnect_id_later x w l (inv_ring _ _ I) Hx Hd)
    as (h' & E' & U & R').
  rewrite E' in E. simpl in E. simplify_eq. simpl. split; [done|].
  apply empty_slot_true. rewrite (upd_function _ _ _ _ _ U).
  by rewrite decide_True.
Qed.

Lemma step_connect_empty c c' l x k :
  Inv c l → step this al c = Some c' →
  ctl c = Run (Connect None k) → x ∉ l → in_ring (st c') x →
  empty_slot (heap (st c')) x = true.
Proof.
  intros I E Hk Hx Hin. destruct c as [ct stk w ac vs iv]. simpl in *.
  subst ct. unfold step in E. simpl in E.
  destruct (connect_spec this al None w l (inv_ring _ _ I))
    as (p & w' & E' & R' & _ & _ & _ & _ & _ & F & _).
  rewrite E' in E. simpl in E. simplify_eq. simpl in *.
  apply (in_ring_elem _ _ _ R') in Hin.
  apply elem_of_app in Hin as [?|Hin]; [done|].
  apply list_elem_of_singleton in Hin as ->.
  by apply empty_slot_true.
Qed.

Lemma emptied_empty x c0 c l0 :
  Inv c0 l0 → emptied this al x c0 c →
  in_ring (st c) x ∧ empty_slot (heap (st c)) x = true.
Proof.
  intros I0 H.
  induction H as [c c' k Hrun Hs Hk Hd Hin|c c' k Hrun Hs Hk Hn Hin
                 |c c' H IH Hs Hin].
  - destruct (run_inv this al _ _ _ I0 Hrun) as (l & I).
    apply (in_ring_elem _ _ _ (inv_ring _ _ I)) in Hin.
    destruct (step_deferred c c' l x k I (proj1 Hs) Hk Hd Hin) as [R' He].
    split; [by exists l|done].
  - destruct (run_inv this al _ _ _ I0 Hrun) as (l & I).
    split; [done|].
    apply (step_connect_empty c c' l x k I (proj1 Hs) Hk); [|done].
    intros Hx. apply Hn. exists l. split; [apply I|done].
  - destruct IH as [Hin0 He]. split; [done|].
    destruct (run_inv this al _ _ _ I0 (emptied_run _ _ _ H)) as (l & I).
    destruct Hin as (l' & R' & Hx').
    apply (step_empty_kept c c' l l' x I Hs R'); [|done|done].
    by apply (in_ring_elem _ _ _ (inv_ring _ _ I)).
Qed.

(** C7, as the code has it.  [connect] through a null receiver pointer
    does nothing and returns the empty handle, which [connected] rejects.
    [connect(slot)] has no such test: for every function, the empty one
    too, it puts a node that holds the function at the end of the ring and
    returns the handle of that node.  So, in a run that starts without
    empty slots, the nodes of the ring with an empty slot are those on
    which [disconnect] was called while a slot was running, and those that
    [connect] made for an empty function. *)
Theorem empty_slot_iff_deactivated_or_connected_empty c0 l0 :
  Inv c0 l0 →
  (∀ x, x ∈ l0 → empty_slot (heap (st c0)) x = false) →
  (∀ (C : Type) (mf : C → Args → @prog Args Result Exn Tag) w,
     connect_ptr this al None mf w = Some ((nullptr, nullptr), w) ∧
     (this ≠ nullptr →
      ∀ l, ring_of w l → connected this (nullptr, nullptr) w = Some false)) ∧
  (∀ f w l, ring_of w l →
     ∃ p w', connect this al f w = Some ((this, p), w') ∧
       ring_of w' (l ++ [p]) ∧ get_function p (heap w') = Some f ∧
       connected this (this, p) w' = Some true) ∧
  (∀ c x, rtc (sstep this al) c0 c →
     in_ring (st c) x ∧ empty_slot (heap (st c)) x = true ↔
     emptied this al x c0 c).
Proof.
  intros I0 H0. split_and!.
  - intros C mf w. split; [done|]. intros Ht l R.
    rewrite (connected_spec this _ w l R). simpl.
    by rewrite bool_decide_eq_false_2 by (intros [? _]; done).
  - intros f w l R.
    destruct (connect_spec this al f w l R)
      as (p & w' & E' & R' & _ & _ & _ & _ & _ & F & _).
    exists p, w'. split_and!; try done.
    rewrite (connected_spec this _ w' _ R'). simpl.
    by rewrite bool_decide_eq_true_2 by set_solver.
  - intros c x Hrun. split; [|by apply (emptied_empty _ _ _ l0)].
    revert x. revert c Hrun.
    apply (rtc_ind_r (R := sstep this al)
             (λ c, ∀ x, in_ring (st c) x ∧
                            empty_slot (heap (st c)) x = true →
                            emptied this al x c0 c) c0).
    + intros x [Hin He].
      apply (in_ring_elem _ _ _ (inv_ring _ _ I0)) in Hin.
      rewrite H0 in He; done.
    + intros a b Hab Hs IH x [Hin He]. pose proof Hin as (l' & R' & Hx').
      destruct (run_inv this al _ _ _ I0 Hab) as (l & I).
      destruct (step_empty_origin a b l l' x I Hs R' Hx' He)
        as [[Hx He0]|[(k & Hk & Hd & Hx)|(k & Hk & Hx)]].
      * eapply emptied_still; [|done|done].
        apply IH. split; [|done]. by exists l; split; [apply I|].
      * eapply emptied_deferred; try done. by exists l; split; [apply I|].
      * eapply emptied_connect; try done.
        intros Hin0. by apply (in_ring_elem _ _ _ (inv_ring _ _ I)) in Hin0.
Qed.

End Empty.

(** * The order of the calls *)

Section Order.

Context {Args Result Exn Tag : Type}.
Variable this : ptr.
Variable al : allocator.

Implicit Types w : @world Args Result Exn Tag.
Implicit Types l : list ptr.
Implicit Types ds : list (@descr Args Result Tag).

Lemma called_app ds1 ds2 : called (ds1 ++ ds2) = called ds1 ++ called ds2.
Proof. apply omap_app. Qed.

Lemma outputs_app args ds1 ds2 :
  outputs args (ds1 ++ ds2) = outputs args ds1 ++ outputs args ds2.
Proof. unfold outputs. by rewrite omap_app, join_app. Qed.

Lemma results_app args ds1 ds2 :
  results args (ds1 ++ ds2) = results args ds1 ++ results args ds2.
Proof. apply omap_app. Qed.

Lemma aggregate_all_app (ag : @aggregation Result) rs1 rs2 acc :
  aggregate_all ag (rs1 ++ rs2) acc
  = aggregate_all ag rs2 (aggregate_all ag rs1 acc).
Proof. apply foldl_app. Qed.

Lemma holds_frame (h h' : gmap ptr (@node Args Result Exn Tag)) ds :
  (∀ x, x ∈ ds.*1 → get_function x h' = get_function x h) →
  holds h ds → holds h' ds.
Proof.
  unfold holds. intros F H. apply Forall_forall. intros d Hd.
  rewrite F; [by eapply Forall_forall in H|].
  apply list_elem_of_fmap. by exists d.
Qed.

Lemma emit_finish_total w l :
  ring_of w l → m_head w ≠ nullptr →
  ∃ w' l', emit_finish w = Some w' ∧ ring_of w' l' ∧
    m_recursionDepth w' = m_recursionDepth w.
Proof.
  intros R Hh. pose proof (emit_finish_spec w l R Hh) as F.
  case_decide.
  - destruct F as (h' & E & R' & _). by eexists _, _.
  - by exists w, l.
Qed.

(** [emit] over a ring of quiet slots calls them in the order of the
    ring. *)
Lemma emit_quiet w ds ag args k
    (stk : list (@frame Args Result Exn Tag)) ac vs iv :
  ring_of w ds.*1 → holds (heap w) ds →
  0 ≤ m_recursionDepth w < SIZE_MOD →
  ∃ n w' l',
    steps this al n (Config (Run (Emit ag condition_all args k)) stk w ac vs iv)
    = Config (Run (k (agg_get ag (aggregate_all ag (results args ds)
                                    (agg_init ag)))))
        stk w' (ac ++ outputs args ds) vs (iv ++ called ds) ∧
    ring_of w' l' ∧ m_recursionDepth w' = m_recursionDepth w.
Proof.
  intros R H Hd. destruct (decide (m_head w = nullptr)) as [Hh|Hh].
  - apply ring_of_null in R as R0; [|done].
    apply fmap_nil_inv in R0 as ->.
    exists 1%nat, w, []. split; [|done].
    simpl. unfold step. simpl. rewrite decide_False by tauto.
    unfold outputs, called. simpl. by rewrite !app_nil_r.
  - pose proof R as R0. apply ring_of_ring in R0 as [N L]; [|done].
    destruct (walk_quiet this al ag k condition_all args stk w vs (m_head w)
                Hd (λ _, eq_refl) ds (m_head w) (agg_init ag) ac iv)
      as (m & E); [done| |done|].
    { by apply NoDup_cons in N as [? _]. }
    destruct (emit_finish_total w _ R Hh) as (w' & l' & E' & R' & D').
    exists (1 + (m + 1))%nat, w', l'. split; [|done].
    rewrite steps_add.
    erewrite (steps_S _ _ 0);
      [|by apply step_emit; [|apply (linked_next _ _ _ _ L)]].
    simpl steps. rewrite steps_add, E.
    by erewrite (steps_S _ _ 0); [|apply step_loop_end; [simpl; tauto|]].
Qed.

(** [connect] of a quiet slot, or of the empty function, on a ring of
    such. *)
Lemma connect_holds w ds (s : option ((Args → list Tag) * (Args → Result))) :
  ring_of w ds.*1 → holds (heap w) ds →
  ∃ p w', connect this al (descr_slot (nullptr, s)) w = Some ((this, p), w') ∧
    ring_of w' (ds ++ [(p, s)]).*1 ∧
    holds (heap w') (ds ++ [(p, s)]) ∧
    (p ∉ ds.*1) ∧ heap w !! p = None ∧
    get_next p (heap w') = Some (m_head w') ∧
    get_prev (m_head w') (heap w') = Some p ∧
    m_recursionDepth w' = m_recursionDepth w ∧
    m_deactivations w' = m_deactivations w.
Proof.
  intros R H.
  destruct (connect_spec this al (descr_slot (nullptr, s)) w _ R)
    as (p & w' & E & R' & Hh & _ & _ & Hp & Hpl & F1 & F2 & D & G).
  exists p, w'. rewrite fmap_app. simpl. split_and!; try done.
  - apply Forall_app. split.
    + eapply holds_frame; [|done]. done.
    + by apply Forall_singleton.
  - set_solver.
  - apply ring_of_ring in R' as [_ L]; [|done].
    apply linked_snoc in L. tauto.
  - apply ring_of_ring in R' as [_ L]; [|done].
    apply linked_snoc in L. tauto.
Qed.

(** C3.  On a signal whose slots so far are quiet, outside of any
    emission: connect [A], then [B], then [C], then emit.  The emission
    calls the slots that were there, in their order, and then [A], [B]
    and [C], in this order: the three nodes are the last three of the
    ring, each put just before the sentinel, and the walk goes from the
    sentinel's successor along [m_next]. *)
Theorem slots_called_in_connection_order w ds oA rA oB rB oC rC ag args
    (k : connection_handler → connection_handler → connection_handler →
         agg_out ag → @prog Args Result Exn Tag) ac vs iv :
  ring_of w ds.*1 → holds (heap w) ds → m_recursionDepth w = 0 →
  ∃ n a b c w',
    steps this al n
      (Config
         (Run (Connect (Some (quiet oA rA)) (λ ha,
               Connect (Some (quiet oB rB)) (λ hb,
               Connect (Some (quiet oC rC)) (λ hc,
               Emit ag condition_all args (k ha hb hc))))))
         [] w ac vs iv)
    = Config
        (Run (k (this, a) (this, b) (this, c)
                (agg_get ag (aggregate_all ag
                               (results args ds ++
                                [rA args; rB args; rC args])
                               (agg_init ag)))))
        [] w'
        (ac ++ outputs args ds ++ oA args ++ oB args ++ oC args) vs
        (iv ++ called ds ++ [a; b; c]) ∧
    NoDup (ds.*1 ++ [a; b; c]) ∧
    m_recursionDepth w' = 0.
Proof.
  intros R H D.
  destruct (connect_holds w ds (Some (oA, rA)) R H)
    as (a & w1 & E1 & R1 & H1 & _ & _ & _ & _ & D1 & _).
  destruct (connect_holds w1 _ (Some (oB, rB)) R1 H1)
    as (b & w2 & E2 & R2 & H2 & _ & _ & _ & _ & D2 & _).
  destruct (connect_holds w2 _ (Some (oC, rC)) R2 H2)
    as (c & w3 & E3 & R3 & H3 & _ & _ & _ & _ & D3 & _).
  unfold descr_slot in E1, E2, E3. simpl in E1, E2, E3.
  destruct (emit_quiet w3 _ ag args (k (this, a) (this, b) (this, c))
              [] ac vs iv R3 H3)
    as (n & w' & l' & E & R' & D').
  { rewrite D3, D2, D1, D. done. }
  exists (S (S (S n))), a, b, c, w'. split_and!.
  - erewrite steps_S; [|by apply step_connect].
    erewrite steps_S; [|by apply step_connect].
    erewrite steps_S; [|by apply step_connect].
    rewrite E, !outputs_app, !called_app, !results_app.
    unfold outputs, called, results. simpl.
    by rewrite ?app_nil_r, <- ?app_assoc.
  - assert (m_head w3 ≠ nullptr) as Hh.
    { apply (ring_of_elem_head w3 c _ R3). rewrite !fmap_app. set_solver. }
    apply ring_of_ring in R3 as [N _]; [|done].
    apply NoDup_cons in N as [_ N].
    by rewrite !fmap_app, <- !app_assoc in N.
  - rewrite D', D3, D2, D1. done.
Qed.

Lemma hd_app_cons (l1 l2 : list ptr) x z : hd z (l1 ++ x :: l2) = hd x l1.
Proof. by destruct l1. Qed.

(** [connect] called by a slot: the new node is the last of the ring,
    linked between the node that was last and the sentinel, and every
    [emit] on the call stack stands on a node that was in the ring
    before. *)
Lemma connect_ahead_of_cursors (c : @config Args Result Exn Tag) l f k :
  Inv c l → ctl c = Run (Connect f k) →
  ∃ p c', step this al c = Some c' ∧ ctl c' = Run (k (this, p)) ∧
    stack c' = stack c ∧
    ring_of (st c') (l ++ [p]) ∧ (p ∉ l) ∧
    get_function p (heap (st c')) = Some f ∧
    get_next p (heap (st c')) = Some (m_head (st c')) ∧
    get_prev (m_head (st c')) (heap (st c')) = Some p ∧
    Forall (λ fr, f_node fr ∈ l) (stack c').
Proof.
  intros I Hk. destruct c as [ct stk w ac vs iv]. simpl in *. subst ct.
  destruct (connect_spec this al f w l (inv_ring _ _ I))
    as (p & w' & E & R' & Hh & _ & _ & Hpl & _ & F & _).
  eexists p, _. split; [by apply step_connect|]. simpl.
  split_and!; try done.
  - set_solver.
  - apply ring_of_ring in R' as [_ L]; [|done]. apply linked_snoc in L. tauto.
  - apply ring_of_ring in R' as [_ L]; [|done]. apply linked_snoc in L. tauto.
  - apply I.
Qed.

(** C4.  Whenever a slot calls [connect], the new node is put just before
    the sentinel, after the node on which every [emit] in progress stands.
    So it is called later in the same emission: in a ring of quiet slots
    but for [a], whose slot connects the quiet slot [B] and then is quiet
    itself, [emit] with [condition_all] calls the slots before [a], the
    slot of [a], the slots after [a], and then [B], whose node [b] the
    call of [connect] by the slot of [a] has made. *)
Theorem slot_connected_by_slot_is_called_in_same_emission :
  (∀ (c : @config Args Result Exn Tag) l f k,
     Inv c l → ctl c = Run (Connect f k) →
     ∃ p c', step this al c = Some c' ∧ ctl c' = Run (k (this, p)) ∧
       stack c' = stack c ∧
       ring_of (st c') (l ++ [p]) ∧ (p ∉ l) ∧
       get_function p (heap (st c')) = Some f ∧
       get_next p (heap (st c')) = Some (m_head (st c')) ∧
       get_prev (m_head (st c')) (heap (st c')) = Some p ∧
       Forall (λ fr, f_node fr ∈ l) (stack c')) ∧
  (∀ w ds1 a ds2 oA rA oB rB ag args
     (k : agg_out ag → @prog Args Result Exn Tag) stk ac vs iv,
     ring_of w (ds1.*1 ++ a :: ds2.*1) →
     holds (heap w) ds1 → holds (heap w) ds2 →
     get_function a (heap w)
     = Some (Some (λ args, Connect (Some (quiet oB rB))
                             (λ _, says (oA args) (rA args)))) →
     0 ≤ m_recursionDepth w < SIZE_MOD →
     ∃ b w1 w',
       connect this al (Some (quiet oB rB)) (enter w) = Some ((this, b), w1) ∧
       heap w !! b = None ∧
       ring_of w1 ((ds1.*1 ++ a :: ds2.*1) ++ [b]) ∧
       reaches this al
         (Config (Run (Emit ag condition_all args k)) stk w ac vs iv)
         (Config
            (Run (k (agg_get ag
                       (aggregate_all ag
                          (results args ds1 ++ rA args ::
                           results args ds2 ++ [rB args])
                          (agg_init ag)))))
            stk w'
            (ac ++ outputs args ds1 ++ oA args ++ outputs args ds2 ++ oB args)
            vs
            (iv ++ called ds1 ++ a :: called ds2 ++ [b]))).
Proof.
  split; [apply connect_ahead_of_cursors|].
  intros w ds1 a ds2 oA rA oB rB ag args k stk ac vs iv R H1 H2 Ha Hd.
  assert (m_head w ≠ nullptr) as Hh.
  { apply (ring_of_elem_head w a _ R). set_solver. }
  pose proof R as R0. apply ring_of_ring in R0 as [N L]; [|done].
  pose proof L as L0. apply linked_app in L0 as [L1 L2].
  assert ((m_head w ∉ ds1.*1) ∧ a ≠ m_head w) as [Hh1 Hah].
  { apply NoDup_cons in N as [N _]. set_solver. }
  (* the call of connect made by the slot of [a] *)
  destruct (connect_spec this al (Some (quiet oB rB)) (enter w) _ R)
    as (b & w1 & E1 & R1 & Hh1' & Hhe & _ & Hbl & Hb & Fb & F1 & D1 & _).
  simpl in Hhe. specialize (Hhe Hh).
  pose proof R1 as R1'. apply ring_of_ring in R1' as [N1 L1']; [|done].
  rewrite <- app_assoc in L1'. simpl in L1'.
  apply linked_app in L1' as [_ L2'].
  (* the end of the walk *)
  destruct (emit_finish_total (leave w1) _ R1) as (w' & l' & E' & _ & _);
    [done|].
  exists b, w1, w'. split_and!; try done.
  (* the walk up to [a] *)
  eapply reaches_step.
  { apply step_emit; [done|]. rewrite (linked_next _ _ _ _ L).
    by rewrite hd_app_cons. }
  destruct (walk_quiet this al ag k condition_all args stk w vs a Hd
              (λ _, eq_refl) ds1 (m_head w) (agg_init ag) ac iv)
    as (m1 & W1); [done..|].
  eapply reaches_trans; [by exists m1|].
  (* the slot of [a] *)
  eapply reaches_step; [by apply step_loop_call|]. simpl f_args.
  eapply reaches_step; [by apply step_connect|].
  eapply reaches_trans; [eexists; apply steps_says|].
  eapply reaches_step.
  { apply step_return. simpl. apply (linked_next _ _ _ _ L2'). }
  (* the walk from [a] to the sentinel, over [b] *)
  assert (0 ≤ m_recursionDepth (leave w1) < SIZE_MOD) as Hd1.
  { simpl. rewrite D1. simpl. rewrite size_decr_incr by lia. done. }
  destruct (walk_quiet this al ag k condition_all args stk (leave w1) vs
              (m_head w1) Hd1 (λ _, eq_refl) (ds2 ++ [(b, Some (oB, rB))])
              a (aggregate ag (rA args)
                   (aggregate_all ag (results args ds1) (agg_init ag)))
              ((ac ++ outputs args ds1) ++ oA args)
              ((iv ++ called ds1) ++ [a]))
    as (m2 & W2).
  { simpl. by rewrite fmap_app. }
  { simpl. rewrite fmap_app. simpl.
    apply NoDup_cons in N1 as [N1 _]. set_solver. }
  { apply Forall_app. split; [|by apply Forall_singleton].
    eapply holds_frame; [|exact H2]. intros x Hx. simpl.
    rewrite F1; [done|]. set_solver. }
  eapply reaches_trans.
  { exists m2. rewrite fmap_app in W2. exact W2. }
  eapply reaches_step.
  { apply step_loop_end; [simpl; tauto|]. exact E'. }
  assert (aggregate_all ag (results args ds1 ++ rA args ::
                            results args ds2 ++ [rB args]) (agg_init ag)
          = aggregate_all ag (results args (ds2 ++ [(b, Some (oB, rB))]))
              (aggregate ag (rA args)
                 (aggregate_all ag (results args ds1) (agg_init ag)))) as ->.
  { by rewrite aggregate_all_app, results_app. }
  assert (outputs args (ds2 ++ [(b, Some (oB, rB))])
          = outputs args ds2 ++ oB args) as Ho.
  { rewrite outputs_app. unfold outputs at 2. simpl. by rewrite app_nil_r. }
  assert (called (ds2 ++ [(b, Some (oB, rB))]) = called ds2 ++ [b]) as Hc
    by by rewrite called_app.
  simpl. rewrite Ho, Hc, <- !app_assoc. simpl. apply reaches_refl.
Qed.

End Order.

(** * Stopping an emission *)

Section Halt.

Context {Args Exn Tag : Type}.
Variable this : ptr.
Variable al : allocator.

Implicit Types w : @world Args bool Exn Tag.

(** C9.  A signal of [bool] slots with three nodes: the slot of the first
    returns true, the slot of the second returns false, the third holds
    anything.  [emit] with [aggregation_last] and [condition_while<bool,
    true>] calls the first slot, calls the second, stops, and returns
    false; the third node is never called. *)
Theorem last_while_true_halts_after_false w a b c oa ra ob rb dflt args
    (k : bool → @prog Args bool Exn Tag) stk ac vs iv :
  ring_of w [a; b; c] →
  get_function a (heap w) = Some (Some (quiet oa ra)) →
  get_function b (heap w) = Some (Some (quiet ob rb)) →
  ra args = true → rb args = false →
  0 ≤ m_recursionDepth w < SIZE_MOD →
  (c ∉ [a; b]) ∧
  ∃ w',
    reaches this al
      (Config (Run (Emit (aggregation_last dflt) (condition_while true) args k))
         stk w ac vs iv)
      (Config (Run (k false)) stk w' (ac ++ oa args ++ ob args) vs
         (iv ++ [a; b])).
Proof.
  intros R Ha Hb Hra Hrb Hd.
  assert (m_head w ≠ nullptr) as Hh.
  { apply (ring_of_elem_head w a _ R). set_solver. }
  pose proof R as R0. apply ring_of_ring in R0 as [N L]; [|done].
  simpl in L. destruct L as (La & _ & Lb & _ & Lc & _).
  split.
  { apply NoDup_cons in N as [_ N]. apply NoDup_cons in N as [N1 N].
    apply NoDup_cons in N as [N2 _]. set_solver. }
  destruct (emit_finish_total w _ R Hh) as (w' & l' & E' & _ & _).
  exists w'.
  eapply reaches_step.
  { apply (step_emit this al (aggregation_last dflt)); [done|exact La]. }
  eapply reaches_trans.
  { eexists. apply (loop_call_quiet this al (aggregation_last dflt));
      [done| |exact Ha|exact Lb].
    apply NoDup_cons in N as [N _]. set_solver. }
  rewrite Hra. simpl.
  eapply reaches_trans.
  { eexists. apply (loop_call_quiet this al (aggregation_last dflt));
      [done| |exact Hb|exact Lc].
    apply NoDup_cons in N as [N _]. set_solver. }
  rewrite Hrb. simpl.
  eapply reaches_step.
  { apply step_loop_end; [simpl; intros [_ ?]; done|exact E']. }
  simpl. rewrite <- !app_assoc. apply reaches_refl.
Qed.

End Halt.
(** * The memory that the signal uses *)

Section Memory.

Context {Args Result Exn Tag : Type}.
Variable this : ptr.
Variable al : allocator.

Abbreviation node_t := (@node Args Result Exn Tag).
Abbreviation world_t := (@world Args Result Exn Tag).
Implicit Types h : gmap ptr node_t.
Implicit Types w : world_t.
Implicit Types l : list ptr.
Implicit Types id p u x head : ptr.

(** A node is its three fields. *)
Lemma lookup_fields h h' u :
  get_next u h' = get_next u h → get_prev u h' = get_prev u h →
  get_function u h' = get_function u h → h' !! u = h !! u.
Proof.
  unfold get_next, get_prev, get_function.
  destruct (h' !! u) as [[n p f]|], (h !! u) as [[n' p' f']|]; simpl;
    intros; simplify_eq; done.
Qed.

Lemma set_next_other p v h h' u :
  set_next p v h = Some h' → u ≠ p → h' !! u = h !! u.
Proof.
  unfold set_next. intros E Hu. destruct (h !! p); simplify_eq/=.
  by rewrite lookup_insert_ne.
Qed.

Lemma set_prev_other p v h h' u :
  set_prev p v h = Some h' → u ≠ p → h' !! u = h !! u.
Proof.
  unfold set_prev. intros E Hu. destruct (h !! p); simplify_eq/=.
  by rewrite lookup_insert_ne.
Qed.

Lemma set_function_other p f h h' u :
  set_function p f h = Some h' → u ≠ p → h' !! u = h !! u.
Proof.
  unfold set_function. intros E Hu. destruct (h !! p); simplify_eq/=.
  by rewrite lookup_insert_ne.
Qed.

(** [insert] writes to the node, to the node it is put before and to the
    one that was before that. *)
Lemma insert_other h self nd p h' u :
  insert self nd h = Some h' → get_prev self h = Some p → nd ≠ self →
  u ≠ self → u ≠ nd → u ≠ p → h' !! u = h !! u.
Proof.
  unfold insert. intros E Hp Hns Hus Hun Hup. case_decide; [by simplify_eq|].
  rewrite Hp in E. simpl in E.
  destruct (set_prev nd p h) as [h1|] eqn:E1; [|done]. simpl in E.
  destruct (set_next nd self h1) as [h2|] eqn:E2; [|done]. simpl in E.
  assert (get_prev self h2 = Some p) as Hp2.
  { unfold get_prev. rewrite (set_next_other _ _ _ _ _ E2) by done.
    by rewrite (set_prev_other _ _ _ _ _ E1) by done. }
  rewrite Hp2 in E. simpl in E.
  destruct (set_next p nd h2) as [h3|] eqn:E3; [|done]. simpl in E.
  rewrite (set_prev_other _ _ _ _ _ E) by done.
  rewrite (set_next_other _ _ _ _ _ E3) by done.
  rewrite (set_next_other _ _ _ _ _ E2) by done.
  by rewrite (set_prev_other _ _ _ _ _ E1) by done.
Qed.

(** [extract] writes to the node and to its two neighbours. *)
Lemma extract_other h x n p h' u :
  extract x h = Some h' → get_next x h = Some n → get_prev x h = Some p →
  u ≠ x → u ≠ n → u ≠ p → h' !! u = h !! u.
Proof.
  unfold extract. intros E Hn Hp Hux Hun Hup.
  rewrite Hn, Hp in E. simpl in E.
  destruct (set_prev n p h) as [h1|] eqn:E1; [|done]. simpl in E.
  destruct (get_prev x h1) as [p'|] eqn:Hp1; [|done]. simpl in E.
  destruct (get_next x h1) as [n'|] eqn:Hn1; [|done]. simpl in E.
  destruct (set_next p' n' h1) as [h2|] eqn:E2; [|done]. simpl in E.
  destruct (set_next x nullptr h2) as [h3|] eqn:E3; [|done]. simpl in E.
  destruct (decide (x = n)) as [->|Hxn].
  - (* a node that is its own successor *)
    assert (p' = p) as ->.
    { unfold set_prev in E1. destruct (h !! n) eqn:En; simplify_eq/=.
      unfold get_prev in Hp1. rewrite lookup_insert_eq in Hp1. by simplify_eq/=. }
    rewrite (set_prev_other _ _ _ _ _ E) by done.
    rewrite (set_next_other _ _ _ _ _ E3) by done.
    rewrite (set_next_other _ _ _ _ _ E2) by done.
    by rewrite (set_prev_other _ _ _ _ _ E1) by done.
  - assert (p' = p) as ->.
    { unfold get_prev in Hp1, Hp.
      rewrite (set_prev_other _ _ _ _ _ E1) in Hp1 by done. congruence. }
    rewrite (set_prev_other _ _ _ _ _ E) by done.
    rewrite (set_next_other _ _ _ _ _ E3) by done.
    rewrite (set_next_other _ _ _ _ _ E2) by done.
    by rewrite (set_prev_other _ _ _ _ _ E1) by done.
Qed.

Lemma ring_insert_other h head l nd h' u :
  ring h head l → insert head nd h = Some h' → nd ≠ head →
  u ∉ head :: l → u ≠ nd → h' !! u = h !! u.
Proof.
  intros [N H] E Hnd Hu Hun.
  pose proof (linked_prev _ _ _ _ H) as Hp.
  pose proof (default_last_elem head l) as Hpin.
  apply (insert_other _ _ _ _ _ _ E Hp); [done| |done|]; set_solver.
Qed.

Lemma ring_extract_other h head l1 x l2 h' u :
  ring h head (l1 ++ x :: l2) → extract x h = Some h' →
  u ∉ head :: l1 ++ x :: l2 → h' !! u = h !! u.
Proof.
  intros [N H] E Hu. apply linked_app in H as [H1 H2].
  pose proof (linked_prev _ _ _ _ H1) as Hp.
  pose proof (linked_next _ _ _ _ H2) as Hn.
  pose proof (default_last_elem head l1) as Hpin.
  assert (hd head l2 ∈ head :: l2) as Hnin by (destruct l2; set_solver).
  apply (extract_other _ _ _ _ _ _ E Hn Hp); set_solver.
Qed.

Lemma outside_lookup w l u :
  outside w l !! u = if decide (u ∈ nodes w l) then None else heap w !! u.
Proof.
  unfold outside. case_decide as Hu.
  - apply map_lookup_filter_None. right. intros nd _. simpl. tauto.
  - destruct (heap w !! u) as [nd|] eqn:E.
    + by apply map_lookup_filter_Some.
    + apply map_lookup_filter_None. by left.
Qed.

Lemma outside_eq w l w' l' :
  (∀ u, u ∈ nodes w' l' → u ∉ nodes w l → heap w !! u = None) →
  (∀ u, u ∈ nodes w l → u ∉ nodes w' l' → heap w' !! u = None) →
  (∀ u, u ∉ nodes w l → u ∉ nodes w' l' → heap w' !! u = heap w !! u) →
  outside w' l' = outside w l.
Proof.
  intros H1 H2 H3. apply map_eq. intros u. rewrite !outside_lookup.
  repeat case_decide; auto. symmetry. auto.
Qed.

Lemma nodes_ring w l : m_head w ≠ nullptr → nodes w l = m_head w :: l.
Proof. intros. unfold nodes. by rewrite decide_False. Qed.

Lemma nodes_null w l : m_head w = nullptr → nodes w l = [].
Proof. intros. unfold nodes. by rewrite decide_True. Qed.

Lemma nodes_live w l u : ring_of w l → u ∈ nodes w l → is_Some (heap w !! u).
Proof.
  intros R. unfold nodes. case_decide as Hh; [set_solver|].
  apply ring_of_ring in R; [|done]. by apply ring_live.
Qed.

(** [connect] allocates the new node, and the sentinel if there is none;
    it writes to these and to nodes of the ring. *)
Lemma connect_outside (f : @slot_type Args Result Exn Tag) w l :
  ring_of w l →
  ∃ p w', connect this al f w = Some ((this, p), w') ∧
    ring_of w' (l ++ [p]) ∧ outside w' (l ++ [p]) = outside w l.
Proof.
  intros R.
  destruct (connect_spec this al f w l R)
    as (p & w' & E & R' & Hh' & Hhh & Hpn & Hpl & Hp & _).
  exists p, w'. split; [done|]. split; [done|].
  unfold connect, new_node in E.
  destruct (decide (m_head w = nullptr)) as [Hh|Hh]; cbv beta iota zeta in E.
  - apply ring_of_null in R as ->; [|done]. simpl in *.
    set (s := new_addr al (dom (heap w))) in *.
    set (h1 := <[s := Node s s None]> (heap w)) in *.
    destruct (insert s _ _) as [h'|] eqn:Ei; [|done].
    simpl in E. simplify_eq. simpl in *.
    set (q := new_addr al (dom h1)) in *.
    assert (heap w !! s = None) as Hs by apply not_elem_of_dom, new_addr_fresh.
    assert (h1 !! q = None) as Hq by apply not_elem_of_dom, new_addr_fresh.
    assert (q ≠ s) as Hqs.
    { intros Hqs. rewrite Hqs in Hq. subst h1. by rewrite lookup_insert_eq in Hq. }
    apply outside_eq;
      rewrite (nodes_null w) by done; rewrite nodes_ring by done; simpl.
    + intros u Hu _. apply elem_of_cons in Hu as [->|Hu]; [done|].
      apply list_elem_of_singleton in Hu as ->.
      subst h1. by rewrite lookup_insert_ne in Hq.
    + set_solver.
    + intros u _ Hu.
      rewrite (insert_other _ _ _ s _ _ Ei); [| |done|set_solver..].
      * rewrite lookup_insert_ne by set_solver. subst h1.
        rewrite lookup_insert_ne by set_solver. done.
      * unfold get_prev. rewrite lookup_insert_ne by done. subst h1.
        by rewrite lookup_insert_eq.
  - pose proof R as R0. apply ring_of_ring in R; [|done].
    destruct (insert (m_head w) _ _) as [h'|] eqn:Ei; [|done].
    simpl in E. simplify_eq. simpl in *.
    set (q := new_addr al (dom (heap w))) in *.
    assert (heap w !! q = None) as Hq by apply not_elem_of_dom, new_addr_fresh.
    assert (q ∉ m_head w :: l) as Hql.
    { intros Hin. destruct (ring_live _ _ _ _ R Hin) as [? ?]. congruence. }
    apply outside_eq; rewrite !nodes_ring by done; simpl.
    + intros u Hu Hu'. assert (u = q) as -> by set_solver. done.
    + set_solver.
    + intros u Hu Hu'.
      rewrite (ring_insert_other (<[q := Node q q f]> (heap w))
                 (m_head w) l q h' u); [|..|done|].
      * rewrite lookup_insert_ne; [done|]. set_solver.
      * eapply ring_frame; [| |exact R]; intros v Hv.
        -- apply get_next_new. intros ->. done.
        -- apply get_prev_new. intros ->. done.
      * done.
      * intros E. rewrite E in Hql. set_solver.
      * set_solver.
Qed.

(** [disconnect] deletes the node or writes to it, and writes to nodes of
    the ring. *)
Lemma disconnect_id_outside id w l b w' l' :
  ring_of w l → id ≠ m_head w ∨ m_head w = nullptr →
  disconnect_id id w = Some (b, w') → ring_of w' l' →
  outside w' l' = outside w l.
Proof.
  intros R Hns E R'. destruct (decide (id ∈ l)) as [Hid|Hid].
  2:{ rewrite (disconnect_id_absent id w l R Hid Hns) in E. simplify_eq.
      by rewrite (ring_of_inj _ _ _ R R'). }
  assert (m_head w ≠ nullptr) as Hh by apply (ring_of_elem_head w id _ R Hid).
  pose proof E as E0.
  rewrite (disconnect_id_unfold id w _ R Hh) in E0. simpl in E0.
  rewrite (decide_True (P := id ∈ l)) in E0 by done.
  rewrite (decide_True (P := id = id)) in E0 by done.
  destruct (decide (m_recursionDepth w = 0)) as [Hd|Hd].
  - apply list_elem_of_split in Hid as (l1 & l2 & ->).
    destruct (disconnect_id_now id w l1 l2 R Hd) as (h' & E2 & R2 & Hn & _).
    rewrite E2 in E. simplify_eq.
    rewrite (ring_of_inj _ _ _ R' R2).
    destruct (extract id (heap w)) as [h1|] eqn:Ex; [|done]. simpl in E0.
    unfold delete_node in E0. destruct (h1 !! id) eqn:E1; [|done].
    simpl in E0. simplify_eq.
    apply ring_of_ring in R; [|done].
    apply outside_eq; rewrite !nodes_ring by done; simpl.
    + set_solver.
    + intros u Hu Hu'. assert (u = id) as -> by set_solver. done.
    + intros u Hu _. rewrite lookup_delete_ne by set_solver.
      by apply (ring_extract_other _ (m_head w) l1 id l2).
  - destruct (disconnect_id_later id w l R Hid Hd) as (h' & E2 & _ & R2).
    rewrite E2 in E. simplify_eq.
    rewrite (ring_of_inj _ _ _ R' R2).
    unfold deactivate in E0.
    destruct (set_function id None (heap w)) as [h1|] eqn:Ex; [|done].
    simpl in E0. simplify_eq.
    apply outside_eq; rewrite !nodes_ring by done; simpl.
    + set_solver.
    + set_solver.
    + intros u Hu _. apply (set_function_other _ _ _ _ _ Ex). set_solver.
Qed.

Lemma disconnect_outside (con : connection_handler) w l b w' l' :
  ring_of w l → (con.1 = this → con.2 ≠ m_head w ∨ m_head w = nullptr) →
  disconnect this con w = Some (b, w') → ring_of w' l' →
  outside w' l' = outside w l.
Proof.
  intros R Hns E R'. unfold disconnect in E. case_decide as Hc.
  - simplify_eq. by rewrite (ring_of_inj _ _ _ R R').
  - apply (disconnect_id_outside con.2 w l b w' l'); try done.
    apply Hns. by destruct (decide (con.1 = this)).
Qed.

(** The sweep deletes nodes of the ring and writes to nodes of the ring. *)
Lemma sweep_other head l2 : ∀ l1 h fuel h' u,
  ring h head (l1 ++ l2) → sweep fuel head (hd head l2) h = Some h' →
  u ∉ head :: l1 ++ l2 → h' !! u = h !! u.
Proof.
  induction l2 as [|x l2 IH]; intros l1 h fuel h' u R E Hu;
    rewrite sweep_unfold in E.
  - simpl in E. rewrite decide_False in E by tauto. by simplify_eq.
  - simpl in *.
    assert (NoDup (head :: l1 ++ x :: l2)) as N by apply R.
    assert (x ≠ head) as Hxh.
    { apply NoDup_cons in N as [N1 _]. set_solver. }
    rewrite decide_True in E by done. destruct fuel as [|fuel]; [done|].
    pose proof R as [_ H]. apply linked_app in H as [_ H2].
    rewrite (linked_next _ _ _ _ H2) in E. simpl in E.
    destruct (get_function x h) as [[g|]|] eqn:Hf; simpl in E; [| |done].
    + apply (IH (l1 ++ [x]) h fuel); [by rewrite <- app_assoc|done|].
      rewrite <- app_assoc. done.
    + destruct (ring_extract h head l1 x l2 R) as (h1 & E1 & D & R1 & F).
      rewrite E1 in E. simpl in E. unfold delete_node in E.
      destruct (h1 !! x) eqn:E1x; [|done]. simpl in E.
      rewrite (IH l1 (delete x h1) fuel h' u R1 E) by set_solver.
      rewrite lookup_delete_ne by set_solver.
      by apply (ring_extract_other _ head l1 x l2).
Qed.

Lemma emit_finish_outside w l w' l' :
  ring_of w l → m_head w ≠ nullptr →
  emit_finish w = Some w' → ring_of w' l' →
  outside w' l' = outside w l.
Proof.
  intros R Hh E R'. pose proof (emit_finish_spec w l R Hh) as F.
  pose proof E as E0. unfold emit_finish in E0.
  destruct (decide (m_recursionDepth w = 0 ∧ m_deactivations w = true)).
  2:{ simplify_eq. by rewrite (ring_of_inj _ _ _ R R'). }
  destruct F as (h' & E2 & R2 & F1 & F2). rewrite E2 in E. simplify_eq.
  rewrite (ring_of_inj _ _ _ R' R2).
  apply ring_of_ring in R; [|done].
  rewrite (linked_next _ _ _ _ (proj2 R)) in E0. simpl in E0.
  destruct (sweep _ _ _ _) as [h1|] eqn:Es; [|done]. simpl in E0.
  simplify_eq.
  apply outside_eq; rewrite !nodes_ring by done; simpl.
  - intros u Hu Hu'. exfalso. apply Hu'.
    apply elem_of_cons in Hu as [->|Hu]; [set_solver|].
    apply active_elem in Hu. set_solver.
  - intros u Hu Hu'. apply F1.
    + set_solver.
    + destruct (empty_slot (heap w) u) eqn:He; [done|]. exfalso. apply Hu'.
      apply elem_of_cons in Hu as [->|Hu]; [set_solver|].
      apply elem_of_cons. right. by apply active_elem.
  - intros u Hu _. by apply (sweep_other (m_head w) l [] (heap w) _ _ u R Es).
Qed.

(** Handing the sentinel to [disconnect] while a slot is running clears
    its slot, which is empty. *)
Lemma disconnect_sentinel_outside w l b w' l' :
  ring_of w l → m_head w ≠ nullptr → m_recursionDepth w ≠ 0 →
  disconnect_id (m_head w) w = Some (b, w') → ring_of w' l' →
  outside w' l' = outside w l.
Proof.
  intros R Hh Hd E R'.
  destruct (disconnect_id_sentinel w l R Hh) as (h' & E2 & U).
  destruct (decide (m_recursionDepth w = 0)); [done|].
  rewrite E2 in E. simplify_eq.
  assert (ring_of (set_deactivations true (set_heap h' w)) l) as R2.
  { apply ring_of_ring; [done|]. apply ring_of_ring in R; [|done]. simpl.
    eapply ring_frame; [| |exact R]; intros u _; apply U. }
  rewrite (ring_of_inj _ _ _ R' R2).
  rewrite (disconnect_id_unfold _ w _ R Hh) in E2. simpl in E2.
  apply ring_of_ring in R; [|done].
  assert (m_head w ∉ l) as Hl.
  { destruct R as [N _]. by apply NoDup_cons in N as [? _]. }
  rewrite (decide_False (P := m_head w ∈ l)) in E2 by done.
  rewrite decide_True in E2 by done. rewrite decide_False in E2 by done.
  unfold deactivate in E2.
  destruct (set_function _ None (heap w)) as [h1|] eqn:Ex; [|done].
  simpl in E2. simplify_eq.
  apply outside_eq; rewrite !nodes_ring by done; simpl.
  - set_solver.
  - set_solver.
  - intros u Hu _. apply (set_function_other _ _ _ _ _ Ex). set_solver.
Qed.

Lemma outside_same w l w' l' :
  heap w' = heap w → m_head w' = m_head w →
  ring_of w l → ring_of w' l' → outside w' l' = outside w l.
Proof.
  intros Hh Hm R R'.
  assert (ring_of w' l) as R2.
  { unfold ring_of in *. by rewrite Hh, Hm. }
  rewrite (ring_of_inj _ _ _ R' R2). unfold outside, nodes.
  by rewrite Hh, Hm.
Qed.

Abbreviation config_t := (@config Args Result Exn Tag).
Implicit Types c : config_t.

Lemma step_outside c c' l l' :
  Inv c l → ¬ disconnects_sentinel this c →
  step this al c = Some c' → Inv c' l' →
  outside (st c') l' = outside (st c) l.
Proof.
  intros I Hmis E I'. pose proof (inv_ring _ _ I') as R'.
  pose proof (Inv_depth_range _ _ I) as Hrange.
  pose proof (Inv_stack_depth _ _ I) as Hsd.
  destruct I as [R D B C S].
  destruct c as [ct stk w ac vs iv]. simpl in *.
  unfold step in E. simpl in E.
  destruct ct as [[r|e|t k|x k|x con k|f k|con k|con k|ag ctrl args k]|fr].
  - destruct stk as [|fr stk]; [done|].
    destruct (get_next _ _); [|done]. simpl in E. simplify_eq.
    by apply outside_same.
  - destruct stk as [|fr stk]; [done|]. simplify_eq. by apply outside_same.
  - simplify_eq. by apply outside_same.
  - simplify_eq. by apply outside_same.
  - simplify_eq. by apply outside_same.
  - destruct (connect_outside f w l R) as (p & w' & E' & R2 & O).
    rewrite E' in E. simpl in E. simplify_eq. simpl in *.
    by rewrite (ring_of_inj _ _ _ R' R2).
  - destruct (disconnect this con w) as [[b w']|] eqn:E'; [|done].
    simpl in E. simplify_eq. simpl in *.
    destruct (decide (con.1 = this ∧ con.2 = m_head w ∧ m_head w ≠ nullptr))
      as [(Hc1 & Hc2 & Hh)|Hns].
    + unfold disconnect in E'. rewrite decide_False in E' by tauto.
      rewrite Hc2 in E'.
      apply (disconnect_sentinel_outside w l b w' l'); try done.
      apply Hsd. intros ->. apply Hmis. split; [done|]. split; [done|].
      exists k. simpl. destruct con; simpl in *. by subst.
    + apply (disconnect_outside con w l b w' l'); try done.
      intros Hc1. destruct (decide (m_head w = nullptr)); [by right|].
      left. intros Hc2. apply Hns. done.
  - destruct (connected this con w); [|done]. simpl in E. simplify_eq.
    by apply outside_same.
  - destruct (decide (m_head w ≠ nullptr)).
    + destruct (get_next _ _); [|done]. simpl in E. simplify_eq.
      by apply outside_same.
    + simplify_eq. by apply outside_same.
  - destruct C as [Hh C].
    destruct (decide (f_node fr ≠ m_head w ∧ f_ok fr = true)).
    + destruct (get_function _ _) as [[g|]|]; simpl in E; [| |done].
      * simplify_eq. by apply outside_same.
      * destruct (get_next _ _); [|done]. simpl in E. simplify_eq.
        by apply outside_same.
    + destruct (emit_finish w) as [w'|] eqn:E'; [|done].
      simpl in E. simplify_eq. simpl in *.
      by apply (emit_finish_outside w l w' l').
Qed.

Lemma linked_fields h h' a l z :
  linked h a l z → linked h' a l z →
  (∀ u, u ∈ a :: l → get_next u h' = get_next u h) ∧
  (∀ v, v ∈ l ++ [z] → get_prev v h' = get_prev v h).
Proof.
  revert a. induction l as [|x l IH]; intros a; simpl.
  - intros [H1 H2] [H1' H2']. split; intros u ->%list_elem_of_singleton; congruence.
  - intros (H1 & H2 & H3) (H1' & H2' & H3').
    destruct (IH x H3 H3') as [IH1 IH2]. split.
    + intros u [->|Hu]%elem_of_cons; [congruence|by apply IH1].
    + intros v [->|Hv]%elem_of_cons; [congruence|by apply IH2].
Qed.

Lemma ring_fields h h' head l u :
  ring h head l → ring h' head l → u ∈ head :: l →
  get_next u h' = get_next u h ∧ get_prev u h' = get_prev u h.
Proof.
  intros [_ H] [_ H'] Hu. destruct (linked_fields _ _ _ _ _ H H') as [F1 F2].
  split; [by apply F1|]. apply F2. set_solver.
Qed.

Lemma outside_empty_ring w :
  ring_of w [] → m_head w ≠ nullptr →
  outside w [] = delete (m_head w) (heap w).
Proof.
  intros R Hh. apply map_eq. intros u. rewrite outside_lookup, nodes_ring by done.
  case_decide as Hu.
  - apply list_elem_of_singleton in Hu as ->. by rewrite lookup_delete_eq.
  - rewrite lookup_delete_ne; [done|]. set_solver.
Qed.

Lemma outside_null w l : m_head w = nullptr → outside w l = heap w.
Proof.
  intros Hh. apply map_eq. intros u. rewrite outside_lookup, nodes_null by done.
  case_decide; set_solver.
Qed.

Lemma destroy_test_spec w l :
  ring_of w l → m_head w ≠ nullptr →
  destroy_test w = Some (bool_decide (l ≠ [])).
Proof.
  intros R Hh. apply ring_of_ring in R; [|done]. destruct R as [N H].
  unfold destroy_test. rewrite (linked_next _ _ _ _ H). simpl. f_equal.
  destruct l as [|x l]; simpl.
  - by rewrite bool_decide_false by tauto.
  - rewrite bool_decide_true; [done|].
    apply NoDup_cons in N as [N _]. set_solver.
Qed.

(** With no slot running, the loop of the destructor takes the nodes out
    one by one from the front. *)
Lemma destroy_loop_spec l : ∀ w fuel,
  ring_of w l → m_head w ≠ nullptr → m_recursionDepth w = 0 →
  (length l ≤ fuel)%nat →
  ∃ h', destroy_loop fuel w = Some (set_heap h' w) ∧
    ring_of (set_heap h' w) [] ∧ outside (set_heap h' w) [] = outside w l.
Proof.
  induction l as [|x l IH]; intros w fuel R Hh Hd Hf.
  - exists (heap w). assert (set_heap (heap w) w = w) as -> by by destruct w.
    split; [|done].
    destruct fuel; simpl; rewrite (destroy_test_spec w [] R Hh);
      by rewrite bool_decide_false by tauto.
  - destruct fuel as [|fuel]; [simpl in Hf; lia|]. simpl in Hf.
    simpl. rewrite (destroy_test_spec w _ R Hh).
    rewrite bool_decide_true by done. simpl.
    unfold destroy_body.
    pose proof R as R0. apply ring_of_ring in R0; [|done].
    rewrite (linked_next _ _ _ _ (proj2 R0)). simpl.
    destruct (disconnect_id_now x w [] l R Hd) as (h1 & E & R1 & _).
    rewrite E. simpl.
    destruct (IH (set_heap h1 w) fuel R1 Hh Hd) as (h' & E' & R' & O); [lia|].
    exists h'. split; [done|]. split; [done|].
    transitivity (outside (set_heap h1 w) l); [exact O|].
    apply (disconnect_id_outside x w (x :: l) true); try done.
    left. destruct R0 as [N _]. apply NoDup_cons in N as [N _]. set_solver.
Qed.

(** While a slot is running, a round of the loop of the destructor empties
    the slot of the first node and leaves the ring as it is. *)
Lemma destroy_body_running w l :
  ring_of w l → l ≠ [] → m_recursionDepth w ≠ 0 →
  ∃ w', destroy_body w = Some w' ∧ ring_of w' l ∧
    m_head w' = m_head w ∧ m_recursionDepth w' = m_recursionDepth w ∧
    empty_slot (heap w') (hd nullptr l) = true.
Proof.
  intros R Hl Hd. destruct l as [|x l]; [done|]. clear Hl.
  assert (m_head w ≠ nullptr) as Hh.
  { apply (ring_of_elem_head w x _ R). set_solver. }
  pose proof R as R0. apply ring_of_ring in R0; [|done].
  unfold destroy_body. rewrite (linked_next _ _ _ _ (proj2 R0)). simpl.
  destruct (disconnect_id_later x w _ R) as (h' & E & U & R'); [set_solver|done|].
  rewrite E. simpl. eexists. split; [done|]. split; [done|].
  split; [done|]. split; [done|]. simpl. unfold empty_slot.
  rewrite (upd_function _ _ _ _ _ U). by rewrite decide_True.
Qed.

Lemma destroy_spec w l fuel :
  ring_of w l → m_recursionDepth w = 0 → (length l ≤ fuel)%nat →
  destroy fuel w = Some (outside w l).
Proof.
  intros R Hd Hf. unfold destroy. case_decide as Hh.
  - destruct (destroy_loop_spec l w fuel R Hh Hd Hf) as (h' & E & R' & O).
    rewrite E. simpl. rewrite <- O.
    rewrite (outside_empty_ring _ R') by done. simpl.
    apply delete_node_spec.
    apply ring_of_ring in R'; [|done]. apply (ring_live _ _ _ _ R').
    set_solver.
  - rewrite outside_null; [done|]. by destruct (decide (m_head w = nullptr)).
Qed.

Lemma run_outside c c' l :
  Inv c l → rtc (sstep this al) c c' →
  ∃ l', Inv c' l' ∧ outside (st c') l' = outside (st c) l.
Proof.
  intros I Hrun. revert l I.
  induction Hrun as [c|c c1 c' H1 Hrun IH]; intros l I.
  - by exists l.
  - destruct (sstep_inv this al _ _ _ I H1) as (l1 & I1 & _).
    destruct (IH _ I1) as (l' & I' & O). exists l'. split; [done|].
    rewrite O. destruct H1 as (E & Hmis & _).
    by apply (step_outside c c1 l l1).
Qed.

(** X1.  Round trip of [connect] and [disconnect]: on a signal that has
    its sentinel, while no slot is running, connecting a slot and then
    disconnecting the handle that [connect] returned gives back the very
    state from which one started: the same heap, node for node, and the
    same members.  In between the handle is connected. *)
Theorem connect_then_disconnect_restores (f : @slot_type Args Result Exn Tag)
    w l :
  ring_of w l → m_head w ≠ nullptr → m_recursionDepth w = 0 →
  ∃ con w1, connect this al f w = Some (con, w1) ∧
    connected this con w1 = Some true ∧
    disconnect this con w1 = Some (true, w).
Proof.
  intros R Hh Hd.
  destruct (connect_outside f w l R) as (p & w1 & E & R1 & O).
  destruct (connect_spec this al f w l R)
    as (p' & w1' & E' & _ & Hh1 & Hhh & Hpn & Hpl & Hp & F1 & F2 & D1 & G1).
  rewrite E in E'. symmetry in E'. simplify_eq.
  exists (this, p), w1. split; [done|]. split.
  { rewrite (connected_spec this _ w1 _ R1). simpl.
    rewrite bool_decide_true; [done|]. set_solver. }
  unfold disconnect. simpl. rewrite decide_False by tauto.
  destruct (disconnect_id_now p w1 l [] R1) as (h2 & E2 & R2 & Hp2 & _ & F3);
    [congruence|].
  rewrite E2. do 2 f_equal. rewrite app_nil_r in R2.
  assert (outside (set_heap h2 w1) l = outside w l) as O2.
  { rewrite <- O. apply (disconnect_id_outside p w1 (l ++ [p]) true); try done.
    left. set_solver. }
  specialize (Hhh Hh).
  assert (h2 = heap w) as ->.
  { apply map_eq. intros u.
    destruct (decide (u ∈ m_head w :: l)) as [Hu|Hu].
    - assert (u ≠ p) as Hup by (intros ->; set_solver).
      apply ring_of_ring in R2; [|done]. apply ring_of_ring in R; [|done].
      simpl in R2. rewrite Hhh in R2.
      destruct (ring_fields _ _ _ _ u R R2 Hu) as [Fn Fp].
      apply lookup_fields; [done|done|]. rewrite F3 by done.
      unfold connect, new_node in E. rewrite decide_False in E by done.
      simpl in E.
      destruct (connect_ring al f (heap w) (m_head w) l R Hh)
        as (h' & Ei & _ & _ & _ & _ & _ & _ & F4).
      rewrite Ei in E. simpl in E. simplify_eq. simpl. by apply F4.
    - pose proof (f_equal (λ m, m !! u) O2) as Ou. simpl in Ou.
      rewrite !outside_lookup in Ou.
      rewrite nodes_ring in Ou by (simpl; congruence).
      rewrite (nodes_ring w) in Ou by done. simpl in Ou. rewrite Hhh in Ou.
      by rewrite !decide_False in Ou by done. }
  destruct w, w1; simpl in *. by subst.
Qed.

(** X2.  The memory of the signal is its ring.  Whatever the program and
    the slots do (connect, disconnect, emit again from inside a slot,
    throw), at every point of the run the heap consists of the sentinel,
    the nodes of the ring, and a rest that is exactly what it was at the
    start: the signal writes to no node but its own and deletes none, and
    every node it has allocated and not deleted is in the ring. *)
Theorem signal_memory_is_its_ring c c' l :
  Inv c l → rtc (sstep this al) c c' →
  ∃ l', Inv c' l' ∧ outside (st c') l' = outside (st c) l.
Proof.
  intros I Hrun. revert l I.
  induction Hrun as [c|c c1 c' H1 Hrun IH]; intros l I.
  - by exists l.
  - destruct (sstep_inv this al _ _ _ I H1) as (l1 & I1 & _).
    destruct (IH _ I1) as (l' & I' & O). exists l'. split; [done|].
    rewrite O. destruct H1 as (E & Hmis & _).
    by apply (step_outside c c1 l l1).
Qed.

(** X3.  The destructor, run while no slot is running, ends after one
    round per connection and deletes the sentinel and every node of the
    ring, whether its slot is empty or not; the rest of the heap is left as
    it is.  A signal on which [connect] was never called deletes
    nothing. *)
Theorem destructor_frees_the_ring w l fuel :
  ring_of w l → m_recursionDepth w = 0 → (length l ≤ fuel)%nat →
  destroy fuel w = Some (outside w l) ∧
  (m_head w = nullptr → destroy fuel w = Some (heap w)) ∧
  ∀ u, u ∈ nodes w l → outside w l !! u = None.
Proof.
  intros R Hd Hf. split_and!.
  - by apply destroy_spec.
  - intros Hh. unfold destroy. by rewrite decide_False by tauto.
  - intros u Hu. rewrite outside_lookup. by rewrite decide_True.
Qed.

(** X4.  The destructor, run while a slot of the signal is running (the
    counter is not zero) on a signal that has a connection, does not end:
    its loop waits for the ring to become empty, but each round only
    empties the slot of the first node, which stays in the ring, so that
    after the round the loop is where it was. *)
Theorem destructor_in_slot_never_ends w l :
  ring_of w l → l ≠ [] → m_recursionDepth w ≠ 0 →
  destroy_test w = Some true ∧
  (∃ w', destroy_body w = Some w' ∧ ring_of w' l ∧
     m_recursionDepth w' = m_recursionDepth w ∧
     destroy_test w' = Some true) ∧
  ∀ fuel, destroy fuel w = None.
Proof.
  intros R Hl Hd.
  assert (m_head w ≠ nullptr) as Hh.
  { destruct l as [|x l]; [done|]. apply (ring_of_elem_head w x _ R).
    set_solver. }
  assert (∀ w, ring_of w l → m_head w ≠ nullptr →
               destroy_test w = Some true) as Ht.
  { intros w0 R0 Hh0. rewrite (destroy_test_spec w0 l R0 Hh0).
    by rewrite bool_decide_true. }
  split; [by apply Ht|]. split.
  - destruct (destroy_body_running w l R Hl Hd) as (w' & E & R' & Hh' & Hd' & _).
    exists w'. split_and!; try done. apply Ht; [done|congruence].
  - intros fuel. unfold destroy. rewrite decide_True by done.
    assert (destroy_loop fuel w = None) as ->; [|done].
    revert w R Hd Hh. induction fuel as [|fuel IH]; intros w R Hd Hh; simpl.
    + by rewrite (Ht w R Hh).
    + rewrite (Ht w R Hh). simpl.
      destruct (destroy_body_running w l R Hl Hd) as (w' & E & R' & Hh' & Hd' & _).
      rewrite E. simpl. apply IH; congruence.
Qed.

(** X5.  The life of a signal leaves nothing behind.  Take a run in which
    the code that owns the signal does not hand the address of the
    sentinel to [disconnect] and the call stack stays within
    [std::size_t], and which has come back to the code that owns the
    signal (no slot is running).  After it the destructor gives back the
    heap without any node of the signal, that is, the part of the heap
    that was outside the ring when the run started.  (After a
    [disconnect] of the sentinel, which deletes it, the destructor would
    read the deleted node; such runs are left out.) *)
Theorem no_node_outlives_the_signal c c' l :
  Inv c l → rtc (sstep this al) c c' → stack c' = [] →
  destroy (size (heap (st c'))) (st c') = Some (outside (st c) l).
Proof.
  intros I Hrun Hs.
  destruct (run_outside c c' l I Hrun) as (l' & I' & O).
  rewrite <- O. pose proof (inv_ring _ _ I') as R'.
  pose proof (inv_depth _ _ I') as D'. rewrite Hs in D'. simpl in D'.
  apply destroy_spec; [done|done|].
  destruct (decide (m_head (st c') = nullptr)) as [Hh|Hh].
  - apply ring_of_null in R' as ->; [simpl; lia|done].
  - apply ring_of_ring in R'; [|done]. apply ring_size in R'. lia.
Qed.

(** X6.  [signal(slot_type f)] makes a signal with exactly one connection,
    which holds [f]; no slot is running and nothing is deferred.  The
    handle of the connection is not returned, but the connection is there:
    [connected] finds its node, and the destructor deletes it with the
    sentinel. *)
Theorem signal_with_has_one_connection (f : @slot_type Args Result Exn Tag) :
  ∃ p w, signal_with this al f = Some w ∧
    ring_of w [p] ∧ get_function p (heap w) = Some f ∧
    dom (heap w) = {[m_head w; p]} ∧
    m_recursionDepth w = 0 ∧ m_deactivations w = false ∧
    connected this (this, p) w = Some true ∧
    destroy 1 w = Some ∅.
Proof.
  assert (ring_of (@signal_new Args Result Exn Tag) []) as R0 by done.
  destruct (connect_outside f signal_new [] R0) as (p & w & E & R & O).
  destruct (connect_spec this al f signal_new [] R0)
    as (p' & w' & E' & _ & Hh & _ & Hpn & Hpl & Hp & F1 & _ & D & G).
  rewrite E in E'. symmetry in E'. simplify_eq. simpl in *.
  exists p, w. unfold signal_with. rewrite E. simpl.
  split_and!; try done.
  - apply set_eq. intros u. rewrite elem_of_dom.
    pose proof (f_equal (λ m, m !! u) O) as Ou. simpl in Ou.
    rewrite !outside_lookup, nodes_ring in Ou by done.
    rewrite (nodes_null signal_new) in Ou by done. simpl in Ou.
    rewrite lookup_empty in Ou. split.
    + intros Hu. destruct (decide (u ∈ [m_head w; p])) as [|Hn]; [set_solver|].
      rewrite Ou in Hu. by destruct Hu.
    + intros Hu. apply (nodes_live w [p]); [done|]. rewrite nodes_ring by done.
      set_solver.
  - rewrite (connected_spec this _ w _ R). simpl.
    rewrite bool_decide_true; [done|]. set_solver.
  - rewrite (destroy_spec w [p] 1 R D) by (simpl; lia). rewrite O.
    by rewrite outside_null.
Qed.

(** X7.  Handles do not interfere.  [connect] returns a handle that was
    not connected before and is connected afterwards; [disconnect] returns
    what [connected] answered for its handle before the call; and neither
    changes what [connected] answers for any other handle. *)
Theorem other_handles_keep_their_answer w l :
  ring_of w l →
  (∀ f : @slot_type Args Result Exn Tag,
     ∃ con w', connect this al f w = Some (con, w') ∧
       connected this con w = Some false ∧
       connected this con w' = Some true ∧
       ∀ con', con' ≠ con → connected this con' w' = connected this con' w) ∧
  (∀ (con : connection_handler) b w',
     (con.1 = this → con.2 ≠ m_head w ∨ m_head w = nullptr) →
     disconnect this con w = Some (b, w') →
     connected this con w = Some b ∧
     ∀ con', con' ≠ con → connected this con' w' = connected this con' w).
Proof.
  intros R. split.
  - intros f.
    destruct (connect_spec this al f w l R)
      as (p & w' & E & R' & Hh & _ & Hpn & Hpl & _).
    exists (this, p), w'. split; [done|].
    rewrite !(connected_spec this _ w _ R), !(connected_spec this _ w' _ R').
    simpl. split_and!.
    + rewrite bool_decide_false; [done|]. set_solver.
    + rewrite bool_decide_true; [done|]. set_solver.
    + intros [s q] Hne. rewrite (connected_spec this _ w _ R),
        (connected_spec this _ w' _ R'). simpl. f_equal.
      apply bool_decide_ext. split; intros [Hs Hq]; (split; [done|]).
      * apply elem_of_app in Hq as [Hq|Hq]; [done|].
        apply list_elem_of_singleton in Hq. congruence.
      * set_solver.
  - intros con b w' Hns E.
    pose proof (disconnect_spec this con w l R Hns) as D.
    rewrite (connected_spec this con w l R).
    destruct (decide (con.1 = this ∧ con.2 ∈ l)) as [[Hc Hin]|Hn].
    2:{ rewrite D in E. injection E as <- <-. by rewrite bool_decide_false. }
    destruct D as (w2 & E2 & Hh & Hd & Hnow & Hlater).
    rewrite E2 in E. injection E as <- <-. rewrite bool_decide_true by done.
    split; [done|]. intros [s q] Hne.
    rewrite (connected_spec this _ w _ R).
    destruct (decide (m_recursionDepth w = 0)) as [Hz|Hz].
    + destruct (Hnow Hz) as (_ & _ & l1 & l2 & -> & R').
      rewrite (connected_spec this _ w2 _ R'). simpl. f_equal.
      apply bool_decide_ext. split; intros [Hs Hq]; (split; [done|]).
      * set_solver.
      * apply elem_of_app in Hq as [Hq|Hq]; [set_solver|].
        apply elem_of_cons in Hq as [Hq|Hq]; [|set_solver].
        exfalso. apply Hne. destruct con; simpl in *. congruence.
    + destruct (Hlater Hz) as (R' & _).
      by rewrite (connected_spec this _ w2 _ R').
Qed.

End Memory.

(** * More on emissions *)

Section Emission.

Context {Args Result Exn Tag : Type}.
Variable this : ptr.
Variable al : allocator.

Abbreviation node_t := (@node Args Result Exn Tag).
Abbreviation world_t := (@world Args Result Exn Tag).
Abbreviation config_t := (@config Args Result Exn Tag).
Abbreviation frame_t := (@frame Args Result Exn Tag).
Abbreviation descr_t := (@descr Args Result Tag).
Implicit Types h : gmap ptr node_t.
Implicit Types w : world_t.
Implicit Types c : config_t.
Implicit Types l : list ptr.
Implicit Types ds : list descr_t.

(** A step calls at most one slot, that of the node on which the loop
    stands, and only if the node holds one. *)
Lemma step_invoked c c' :
  step this al c = Some c' →
  invoked c' = invoked c ∨
  ∃ fr g, ctl c = Loop fr ∧
    get_function (f_node fr) (heap (st c)) = Some (Some g) ∧
    invoked c' = invoked c ++ [f_node fr].
Proof.
  intros E. destruct c as [ct stk w ac vs iv]. unfold step in E. simpl in *.
  destruct ct as [[r|e|t k|x k|x con k|f k|con k|con k|ag ctrl args k]|fr].
  - destruct stk as [|fr stk]; [done|].
    destruct (get_next _ _); [|done]. simpl in E. simplify_eq. by left.
  - destruct stk as [|fr stk]; [done|]. simplify_eq. by left.
  - simplify_eq. by left.
  - simplify_eq. by left.
  - simplify_eq. by left.
  - destruct (connect _ _ _ _) as [[con w']|]; [|done]. simpl in E.
    simplify_eq. by left.
  - destruct (disconnect _ _ _) as [[b w']|]; [|done]. simpl in E.
    simplify_eq. by left.
  - destruct (connected _ _ _); [|done]. simpl in E. simplify_eq. by left.
  - destruct (decide (m_head w ≠ nullptr)).
    + destruct (get_next _ _); [|done]. simpl in E. simplify_eq. by left.
    + simplify_eq. by left.
  - destruct (decide (f_node fr ≠ m_head w ∧ f_ok fr = true)).
    + destruct (get_function _ _) as [[g|]|] eqn:Hf; simpl in E; [| |done].
      * simplify_eq. right. by exists fr, g.
      * destruct (get_next _ _); [|done]. simpl in E. simplify_eq. by left.
    + destruct (emit_finish w); [|done]. simpl in E. simplify_eq. by left.
Qed.

(** A node of the ring whose slot is empty is not called as long as the
    emission is under way. *)
Lemma empty_not_called c c' l x :
  Inv c l → x ∈ l → empty_slot (heap (st c)) x = true →
  rtc (emission_step this al) c c' →
  ∃ t, invoked c' = invoked c ++ t ∧ x ∉ t.
Proof.
  intros I Hx He Hrun. revert l I Hx He.
  induction Hrun as [c|c c1 c' H1 Hrun IH]; intros l I Hx He.
  - exists []. rewrite app_nil_r. set_solver.
  - destruct (emission_step_keeps this al _ _ _ I H1)
      as (l1 & I1 & (l'' & ->) & K & _).
    destruct (IH _ I1) as (t & Et & Ht); [set_solver|by apply K|].
    destruct H1 as [[E _] _].
    destruct (step_invoked _ _ E) as [Ei|(fr & g & Hc & Hf & Ei)].
    + exists t. by rewrite Et, Ei.
    + exists (f_node fr :: t). rewrite Et, Ei, <- app_assoc. split; [done|].
      apply not_elem_of_cons. split; [|done]. intros ->.
      unfold empty_slot in He. by rewrite Hf in He.
Qed.

(** X8.  A slot that is disconnected while a slot of the signal is running
    is not called in the rest of the emission: [disconnect] answers true,
    and from then on, as long as the emission is under way, no call goes to
    the node of the handle, whatever the slots do meanwhile. *)
Theorem slot_disconnected_during_emission_is_not_called c l x k :
  Inv c l → stack c ≠ [] → x ∈ l →
  ctl c = Run (Disconnect (this, x) k) →
  ∃ c1, step this al c = Some c1 ∧ ctl c1 = Run (k true) ∧
    invoked c1 = invoked c ∧
    ∀ c', rtc (emission_step this al) c1 c' →
      ∃ t, invoked c' = invoked c ++ t ∧ x ∉ t.
Proof.
  intros I Hs Hx Hc.
  pose proof (Inv_stack_depth _ _ I Hs) as Hd.
  pose proof (inv_ring _ _ I) as R.
  destruct (disconnect_id_later x (st c) l R Hx Hd) as (h' & E & U & R').
  destruct c as [ct stk w ac vs iv]. simpl in *. subst ct.
  eexists. split.
  { unfold step. simpl. unfold disconnect. simpl.
    rewrite decide_False by tauto. rewrite E. simpl. done. }
  split; [done|]. split; [done|]. intros c' Hrun.
  apply (empty_not_called _ c' l x) in Hrun; try done.
  - destruct I as [_ D B C S]. split; simpl in *; try done.
  - simpl. unfold empty_slot. rewrite (upd_function _ _ _ _ _ U).
    by rewrite decide_True.
Qed.

(** On a ring of quiet slots, the nodes that hold a slot are those that an
    emission calls. *)
Lemma active_called h ds : holds h ds → active h ds.*1 = called ds.
Proof.
  induction ds as [|d ds IH]; intros H; [done|].
  apply Forall_cons in H as [H1 H2]. specialize (IH H2).
  change (active h ((d :: ds).*1))
    with (filter (λ x, empty_slot h x = false) (d.1 :: ds.*1)).
  change (called (d :: ds))
    with (match (match d.2 with Some _ => Some d.1 | None => None end) with
          | Some y => y :: called ds
          | None => called ds
          end).
  destruct d as [x [[out res]|]]; simpl in *.
  - rewrite filter_cons_True; [by f_equal|].
    unfold empty_slot. by rewrite H1.
  - rewrite filter_cons_False; [done|].
    unfold empty_slot. by rewrite H1.
Qed.

Lemma active_app h l1 l2 : active h (l1 ++ l2) = active h l1 ++ active h l2.
Proof. apply filter_app. Qed.

(** The loop over a stretch of the ring whose slots are quiet, under any
    controller: it goes up to the first result that the controller
    rejects, which is aggregated like the others. *)
Lemma walk_ctrl ag k (ctrl : @controller Result) args
    (stk : list frame_t) w vs z :
  0 ≤ m_recursionDepth w < SIZE_MOD →
  ∀ ds a acc ac iv,
    linked (heap w) a ds.*1 z → m_head w ∉ ds.*1 → holds (heap w) ds →
    ∃ m nd ok,
      steps this al m
        (Config (Loop (Frame ag acc k ctrl args (hd z ds.*1) true))
           stk w ac vs iv)
      = Config (Loop (Frame ag
                        (aggregate_all ag (results args (walked ctrl args ds))
                           acc)
                        k ctrl args nd ok))
          stk w (ac ++ outputs args (walked ctrl args ds)) vs
          (iv ++ called (walked ctrl args ds)) ∧
      (ok = true → nd = z).
Proof.
  intros Hd. induction ds as [|d ds IH]; intros a acc ac iv H Hh Hf.
  - exists 0%nat, z, true. simpl. unfold outputs, called. simpl.
    by rewrite !app_nil_r.
  - simpl in H. destruct H as (_ & _ & H).
    apply Forall_cons in Hf as [Hf1 Hf2].
    assert (d.1 ≠ m_head w) as Hdh by (simpl in Hh; set_solver).
    assert (m_head w ∉ ds.*1) as Hh' by (simpl in Hh; set_solver).
    pose proof (linked_next _ _ _ _ H) as Hn.
    destruct d as [x [[out res]|]]; simpl in *.
    + pose proof (loop_call_quiet this al ag acc k ctrl args stk w ac vs iv
                    x out res _ Hd Hdh Hf1 Hn) as E1.
      destruct (ctrl (res args)) eqn:Hc; rewrite ?Hc in E1.
      * destruct (IH x (aggregate ag (res args) acc) (ac ++ out args)
                    (iv ++ [x]) H Hh' Hf2) as (m & nd & ok & E2 & Hok).
        exists (S (length (out args) + 1) + m)%nat, nd, ok.
        split; [|done]. rewrite steps_add, E1. etrans; [exact E2|].
        unfold outputs, called, results. simpl.
        by rewrite <- !app_assoc.
      * exists (S (length (out args) + 1)), (hd z ds.*1), false.
        split; [|done]. rewrite E1.
        unfold outputs, called, results. simpl. by rewrite app_nil_r.
    + destruct (IH x acc ac iv H Hh' Hf2) as (m & nd & ok & E2 & Hok).
      exists (S m), nd, ok. split; [|done].
      erewrite steps_S; [|by apply step_loop_skip]. exact E2.
Qed.

(** From the head of the loop at the first node of a ring of quiet slots to
    the return of [emit]. *)
Lemma loop_to_end w w' ds ag (ctrl : @controller Result) args k
    (stk : list frame_t) acc ac vs iv :
  ring_of w ds.*1 → m_head w ≠ nullptr → holds (heap w) ds →
  0 ≤ m_recursionDepth w < SIZE_MOD →
  emit_finish w = Some w' →
  ∃ n,
    steps this al n
      (Config (Loop (Frame ag acc k ctrl args (hd (m_head w) ds.*1) true))
         stk w ac vs iv)
    = Config (Run (k (agg_get ag
                        (aggregate_all ag (results args (walked ctrl args ds))
                           acc))))
        stk w' (ac ++ outputs args (walked ctrl args ds)) vs
        (iv ++ called (walked ctrl args ds)).
Proof.
  intros R Hh H Hd E'. apply ring_of_ring in R as [N L]; [|done].
  destruct (walk_ctrl ag k ctrl args stk w vs (m_head w) Hd ds (m_head w)
              acc ac iv) as (m & nd & ok & E & Hok); [done| |done|].
  { by apply NoDup_cons in N as [? _]. }
  exists (m + 1)%nat. rewrite steps_add, E.
  erewrite (steps_S _ _ 0); [done|]. apply step_loop_end; [|done].
  simpl. intros [Hnd Hk]. by apply Hnd, Hok.
Qed.

(** X9.  An emission over slots that leave the signal alone, under any
    controller: the slots are called in the order of the ring up to and
    including the first one whose result the controller rejects; that
    result is aggregated like the others, and no later slot is called.
    When [emit] was called from outside any slot and nodes are waiting for
    their removal, all of them are deleted at the end, also those behind
    the slot at which the emission stopped; otherwise the signal is left as
    it is. *)
Theorem emission_stops_after_rejected_result w ds ag
    (ctrl : @controller Result) args k (stk : list frame_t) ac vs iv :
  ring_of w ds.*1 → holds (heap w) ds →
  0 ≤ m_recursionDepth w < SIZE_MOD →
  ∃ n w',
    steps this al n (Config (Run (Emit ag ctrl args k)) stk w ac vs iv)
    = Config (Run (k (agg_get ag
                        (aggregate_all ag (results args (walked ctrl args ds))
                           (agg_init ag)))))
        stk w' (ac ++ outputs args (walked ctrl args ds)) vs
        (iv ++ called (walked ctrl args ds)) ∧
    if decide (m_head w ≠ nullptr ∧ m_recursionDepth w = 0 ∧
               m_deactivations w = true)
    then ring_of w' (called ds) ∧ m_deactivations w' = false ∧
         m_recursionDepth w' = 0 ∧
         ∀ d, d ∈ ds → d.2 = None → heap w' !! d.1 = None
    else w' = w.
Proof.
  intros R H Hd. destruct (decide (m_head w = nullptr)) as [Hh|Hh].
  - apply ring_of_null in R as R0; [|done].
    apply fmap_nil_inv in R0 as ->.
    exists 1%nat, w. rewrite decide_False by tauto. split; [|done].
    simpl. unfold step. simpl. rewrite decide_False by tauto.
    unfold outputs, called. simpl. by rewrite !app_nil_r.
  - pose proof R as R0. apply ring_of_ring in R0 as [N L]; [|done].
    pose proof (emit_finish_spec w _ R Hh) as F.
    assert (∃ w', emit_finish w = Some w' ∧
              if decide (m_head w ≠ nullptr ∧ m_recursionDepth w = 0 ∧
                         m_deactivations w = true)
              then ring_of w' (called ds) ∧ m_deactivations w' = false ∧
                   m_recursionDepth w' = 0 ∧
                   ∀ d, d ∈ ds → d.2 = None → heap w' !! d.1 = None
              else w' = w) as (w' & E' & Hw').
    { destruct (decide (m_recursionDepth w = 0 ∧ m_deactivations w = true))
        as [[Hz Hf]|Hn].
      - destruct F as (h' & E' & R' & F1 & _). eexists. split; [done|].
        rewrite decide_True by done. rewrite (active_called _ _ H) in R'.
        split_and!; try done. intros d Hin Hnone. apply F1.
        + apply list_elem_of_fmap. by exists d.
        + unfold empty_slot. unfold holds in H. rewrite Forall_forall in H.
          rewrite (H d Hin). unfold descr_slot. by rewrite Hnone.
      - exists w. split; [done|]. rewrite decide_False; [done|]. tauto. }
    destruct (loop_to_end w w' ds ag ctrl args k stk (agg_init ag) ac vs iv
                R Hh H Hd E') as (m & E).
    exists (S m), w'. split; [|done].
    erewrite steps_S; [exact E|].
    by apply step_emit; [|apply (linked_next _ _ _ _ L)].
Qed.

(** ** A slot that disconnects a slot *)

Lemma deactivated_fst x ds : (deactivated x ds).*1 = ds.*1.
Proof.
  unfold deactivated. rewrite <- list_fmap_compose. apply list_fmap_ext.
  intros i d _. simpl. by case_decide.
Qed.

Lemma deactivated_absent x ds : x ∉ ds.*1 → deactivated x ds = ds.
Proof.
  intros Hx. unfold deactivated. rewrite <- (list_fmap_id ds) at 2.
  apply list_fmap_ext. intros i d Hi. simpl. case_decide as Hd; [|done].
  exfalso. apply Hx. apply list_elem_of_fmap. exists d. split; [done|].
  by apply list_elem_of_lookup_2 in Hi.
Qed.

Lemma holds_deactivated h h' x ds :
  (∀ u, get_function u h'
        = if decide (u = x) then Some None else get_function u h) →
  holds h ds → holds h' (deactivated x ds).
Proof.
  intros F H. unfold holds, deactivated in *. apply Forall_fmap.
  eapply Forall_impl; [exact H|]. intros d Hd. simpl in *.
  destruct (decide (d.1 = x)) as [Hx|Hx]; simpl; rewrite F.
  - by rewrite decide_True.
  - by rewrite decide_False.
Qed.

(** [disconnect] called by a slot. *)
Lemma step_disconnect_running x w l :
  ring_of w l → x ∈ l → m_recursionDepth w ≠ 0 →
  ∃ h',
    updates (heap w) h' (λ u, get_next u (heap w)) (λ u, get_prev u (heap w))
      (λ u, if decide (u = x) then Some None else get_function u (heap w)) ∧
    ∀ (k : bool → @prog Args Result Exn Tag) (stk : list frame_t) ac vs iv,
      step this al (Config (Run (Disconnect (this, x) k)) stk w ac vs iv)
      = Some (Config (Run (k true)) stk
                (set_deactivations true (set_heap h' w)) ac vs iv).
Proof.
  intros R Hx Hd.
  destruct (disconnect_id_later x w l R Hx Hd) as (h' & E & U & _).
  exists h'. split; [done|]. intros k stk ac vs iv.
  unfold step. simpl. unfold disconnect. simpl.
  rewrite decide_False by tauto. by rewrite E.
Qed.

(** X11.  A slot that disconnects a slot of its signal during an emission
    made from outside any slot, the other slots leaving the signal alone.
    The emission goes on over the whole ring, the slot that called
    [disconnect] runs to its end also when it has disconnected itself, and
    the disconnected slot is not called any more; if it came earlier in the
    ring it has been called already.  When [emit] returns, the node of the
    disconnected slot is deleted, with every other node whose slot was
    empty, and nothing is left deferred. *)
Theorem slot_that_disconnects_a_slot w ds1 a ds2 x
    (oA : Args → bool → list Tag) (rA : Args → bool → Result) ag args
    (k : agg_out ag → @prog Args Result Exn Tag) (stk : list frame_t)
    ac vs iv :
  ring_of w (ds1.*1 ++ a :: ds2.*1) →
  holds (heap w) ds1 → holds (heap w) ds2 →
  get_function a (heap w)
  = Some (Some (λ args, Disconnect (this, x)
                          (λ b, says (oA args b) (rA args b)))) →
  x ∈ ds1.*1 ++ a :: ds2.*1 →
  m_recursionDepth w = 0 →
  ∃ w',
    reaches this al
      (Config (Run (Emit ag condition_all args k)) stk w ac vs iv)
      (Config
         (Run (k (agg_get ag
                    (aggregate_all ag
                       (results args ds1 ++ rA args true ::
                        results args (deactivated x ds2))
                       (agg_init ag)))))
         stk w'
         (ac ++ outputs args ds1 ++ oA args true ++
          outputs args (deactivated x ds2))
         vs
         (iv ++ called ds1 ++ a :: called (deactivated x ds2))) ∧
    ring_of w' (called (deactivated x ds1) ++
                (if decide (x = a) then [] else [a]) ++
                called (deactivated x ds2)) ∧
    heap w' !! x = None ∧
    m_deactivations w' = false ∧ m_recursionDepth w' = 0.
Proof.
  intros R H1 H2 Ha Hx Hd.
  assert (m_head w ≠ nullptr) as Hh.
  { apply (ring_of_elem_head w a _ R). set_solver. }
  pose proof SIZE_MOD_pos as HM.
  assert (1 < SIZE_MOD) as HM1 by (unfold SIZE_MOD; lia).
  assert (0 ≤ m_recursionDepth w < SIZE_MOD) as Hd0 by lia.
  pose proof R as R0. apply ring_of_ring in R0; [|done].
  pose proof R0 as [N L].
  pose proof L as L0. apply linked_app in L0 as [L1 L2].
  assert ((m_head w ∉ ds1.*1) ∧ a ≠ m_head w ∧ (m_head w ∉ ds2.*1))
    as (Hh1 & Hah & Hh2).
  { apply NoDup_cons in N as [N _]. set_solver. }
  (* the call of disconnect made by the slot of [a] *)
  destruct (step_disconnect_running x (enter w) _ R Hx) as (h' & U & Ed).
  { simpl. rewrite Hd, size_incr_small by lia. lia. }
  simpl in U.
  set (w3 := set_deactivations true (set_heap h' w)).
  assert (leave (set_deactivations true (set_heap h' (enter w))) = w3) as Hw3.
  { unfold leave, enter, w3, set_depth, set_deactivations, set_heap. simpl.
    rewrite size_decr_incr by lia. by rewrite Hd. }
  assert (ring (heap w3) (m_head w3) (ds1.*1 ++ a :: ds2.*1)) as R3.
  { simpl. eapply ring_frame; [| |exact R0]; intros u _; apply U. }
  assert (ring_of w3 (ds1.*1 ++ a :: ds2.*1)) as R3' by by apply ring_of_ring.
  assert (∀ ds, holds (heap w) ds → holds h' (deactivated x ds)) as Hhold.
  { intros ds. apply holds_deactivated. apply U. }
  (* the end of the walk *)
  pose proof (emit_finish_spec w3 _ R3' Hh) as F.
  rewrite decide_True in F by (simpl; by rewrite Hd).
  destruct F as (h'' & E' & R' & F1 & _).
  exists (set_deactivations false (set_heap h'' w3)). split_and!.
  - (* the walk up to [a] *)
    eapply reaches_step.
    { apply step_emit; [done|]. rewrite (linked_next _ _ _ _ L).
      by rewrite hd_app_cons. }
    destruct (walk_quiet this al ag k condition_all args stk w vs a Hd0
                (λ _, eq_refl) ds1 (m_head w) (agg_init ag) ac iv)
      as (m1 & W1); [done..|].
    eapply reaches_trans; [by exists m1|].
    (* the slot of [a] *)
    eapply reaches_step; [by apply step_loop_call|]. simpl f_args.
    eapply reaches_step; [by apply Ed|].
    eapply reaches_trans; [eexists; apply steps_says|].
    eapply reaches_step.
    { apply step_return. simpl. rewrite (upd_next _ _ _ _ _ U).
      apply (linked_next _ _ _ _ L2). }
    rewrite Hw3.
    (* the walk from [a] to the sentinel *)
    destruct (walk_quiet this al ag k condition_all args stk w3 vs
                (m_head w) (Hd0 : 0 ≤ m_recursionDepth w3 < SIZE_MOD)
                (λ _, eq_refl) (deactivated x ds2) a
                (aggregate ag (rA args true)
                   (aggregate_all ag (results args ds1) (agg_init ag)))
                ((ac ++ outputs args ds1) ++ oA args true)
                ((iv ++ called ds1) ++ [a]))
      as (m2 & W2).
    { rewrite deactivated_fst. simpl.
      apply proj2 in R3. apply linked_app in R3 as [_ R3]. exact R3. }
    { by rewrite deactivated_fst. }
    { by apply Hhold. }
    rewrite deactivated_fst in W2.
    eapply reaches_trans; [exists m2; exact W2|].
    eapply reaches_step.
    { apply step_loop_end; [simpl; tauto|]. exact E'. }
    rewrite aggregate_all_app. simpl. rewrite <- !app_assoc. simpl.
    apply reaches_refl.
  - assert (active (heap w3) (ds1.*1 ++ a :: ds2.*1)
            = called (deactivated x ds1) ++
              (if decide (x = a) then [] else [a]) ++
              called (deactivated x ds2)) as <-; [|done].
    change (a :: ds2.*1) with ([a] ++ ds2.*1). rewrite !active_app.
    rewrite <- (deactivated_fst x ds1), <- (deactivated_fst x ds2).
    rewrite !(active_called h') by by apply Hhold.
    f_equal. f_equal. unfold active.
    destruct (decide (x = a)) as [->|Hxa].
    + rewrite filter_cons_False; [done|]. unfold empty_slot.
      rewrite (upd_function _ _ _ _ _ U). by rewrite decide_True.
    + rewrite filter_cons_True; [done|]. unfold empty_slot.
      rewrite (upd_function _ _ _ _ _ U). rewrite decide_False by done.
      by rewrite Ha.
  - simpl. apply F1; [done|]. unfold empty_slot. simpl.
    rewrite (upd_function _ _ _ _ _ U). by rewrite decide_True.
  - done.
  - done.
Qed.

(** ** A slot that emits its signal *)

(** X12.  Recursive emission.  A slot disconnects itself and then emits
    its signal again, the other slots leaving the signal alone.  The inner
    emission goes over the whole ring, passes over the node of the slot
    that is running, whose slot is now empty, and deletes nothing; its
    result goes to the slot that called it.  The outer emission then goes
    on behind that slot, and when it returns the node is deleted.  The
    calls are nested: the slots before, the slot itself, all the other
    slots by the inner emission, and the slots behind once more. *)
Theorem slot_that_emits_again w ds1 a ds2 ag2 (args2 : Args → Args)
    (oA : Args → agg_out ag2 → list Tag) (rA : Args → agg_out ag2 → Result)
    ag args (k : agg_out ag → @prog Args Result Exn Tag)
    (stk : list frame_t) ac vs iv :
  ring_of w (ds1.*1 ++ a :: ds2.*1) →
  holds (heap w) ds1 → holds (heap w) ds2 →
  get_function a (heap w)
  = Some (Some (λ args,
        Disconnect (this, a)
          (λ _, Emit ag2 condition_all (args2 args)
                  (λ r, says (oA args r) (rA args r))))) →
  m_recursionDepth w = 0 →
  let r2 := agg_get ag2
              (aggregate_all ag2 (results (args2 args) (ds1 ++ ds2))
                 (agg_init ag2)) in
  ∃ w',
    reaches this al
      (Config (Run (Emit ag condition_all args k)) stk w ac vs iv)
      (Config
         (Run (k (agg_get ag
                    (aggregate_all ag
                       (results args ds1 ++ rA args r2 :: results args ds2)
                       (agg_init ag)))))
         stk w'
         (ac ++ outputs args ds1 ++
          (outputs (args2 args) ds1 ++ outputs (args2 args) ds2) ++
          oA args r2 ++ outputs args ds2)
         vs
         (iv ++ called ds1 ++ a ::
          (called ds1 ++ called ds2) ++ called ds2)) ∧
    ring_of w' (called ds1 ++ called ds2) ∧
    heap w' !! a = None ∧
    m_deactivations w' = false ∧ m_recursionDepth w' = 0.
Proof.
  intros R H1 H2 Ha Hd r2.
  assert (m_head w ≠ nullptr) as Hh.
  { apply (ring_of_elem_head w a _ R). set_solver. }
  pose proof SIZE_MOD_pos as HM.
  assert (2 < SIZE_MOD) as HM1 by (unfold SIZE_MOD; lia).
  assert (0 ≤ m_recursionDepth w < SIZE_MOD) as Hd0 by lia.
  pose proof R as R0. apply ring_of_ring in R0; [|done].
  pose proof R0 as [N L].
  pose proof L as L0. apply linked_app in L0 as [L1 L2].
  assert ((m_head w ∉ ds1.*1) ∧ a ≠ m_head w ∧ (m_head w ∉ ds2.*1) ∧
          (a ∉ ds1.*1) ∧ (a ∉ ds2.*1))
    as (Hh1 & Hah & Hh2 & Ha1 & Ha2).
  { apply NoDup_cons in N as [N N']. apply NoDup_app in N' as (_ & N1 & N2).
    apply NoDup_cons in N2 as [N2 _]. split_and!; set_solver. }
  (* the call of disconnect made by the slot of [a] *)
  destruct (step_disconnect_running a (enter w) _ R) as (h' & U & Ed).
  { set_solver. }
  { simpl. rewrite Hd, size_incr_small by lia. lia. }
  simpl in U.
  set (w2 := set_deactivations true (set_heap h' (enter w))).
  set (w3 := set_deactivations true (set_heap h' w)).
  assert (m_recursionDepth w2 = 1) as Hd2.
  { simpl. rewrite Hd, size_incr_small by lia. lia. }
  assert (leave w2 = w3) as Hw3.
  { unfold leave, enter, w2, w3, set_depth, set_deactivations, set_heap.
    simpl. rewrite size_decr_incr by lia. by rewrite Hd. }
  assert (ring h' (m_head w) (ds1.*1 ++ a :: ds2.*1)) as R3.
  { eapply ring_frame; [| |exact R0]; intros u _; apply U. }
  assert (ring_of w2 (ds1.*1 ++ a :: ds2.*1)) as R2' by by apply ring_of_ring.
  assert (ring_of w3 (ds1.*1 ++ a :: ds2.*1)) as R3' by by apply ring_of_ring.
  assert (∀ ds, a ∉ ds.*1 → holds (heap w) ds → holds h' ds) as Hhold.
  { intros ds Hds H. rewrite <- (deactivated_absent a ds Hds).
    revert H. apply holds_deactivated. apply U. }
  assert (get_function a h' = Some None) as Ha'.
  { rewrite (upd_function _ _ _ _ _ U). by rewrite decide_True. }
  (* the inner emission deletes nothing *)
  pose proof (emit_finish_spec w2 _ R2' Hh) as F2.
  rewrite decide_False in F2 by (rewrite Hd2; intros [? _]; lia).
  (* the end of the outer emission *)
  pose proof (emit_finish_spec w3 _ R3' Hh) as F.
  rewrite decide_True in F by (simpl; by rewrite Hd).
  destruct F as (h'' & E' & R' & F1 & _).
  exists (set_deactivations false (set_heap h'' w3)). split_and!.
  - (* the walk up to [a] *)
    eapply reaches_step.
    { apply step_emit; [done|]. rewrite (linked_next _ _ _ _ L).
      by rewrite hd_app_cons. }
    destruct (walk_quiet this al ag k condition_all args stk w vs a Hd0
                (λ _, eq_refl) ds1 (m_head w) (agg_init ag) ac iv)
      as (m1 & W1); [done..|].
    eapply reaches_trans; [by exists m1|].
    (* the slot of [a] *)
    eapply reaches_step; [by apply step_loop_call|]. simpl f_args.
    eapply reaches_step; [by apply Ed|]. fold w2.
    (* the inner emission *)
    eapply reaches_step.
    { apply step_emit; [done|]. simpl.
      rewrite (linked_next _ _ _ _ (proj2 R3)). done. }
    set (fr := Frame ag (aggregate_all ag (results args ds1) (agg_init ag))
                 k condition_all args a true).
    destruct (walk_quiet this al ag2
                (λ r, says (oA args r) (rA args r)) condition_all (args2 args)
                (fr :: stk) w2 vs (m_head w)
                (ltac:(rewrite Hd2; lia) : 0 ≤ m_recursionDepth w2 < SIZE_MOD)
                (λ _, eq_refl) (ds1 ++ (a, None) :: ds2) (m_head w)
                (agg_init ag2) (ac ++ outputs args ds1)
                ((iv ++ called ds1) ++ [a]))
      as (m2 & W2).
    { rewrite fmap_app. simpl. apply R3. }
    { rewrite fmap_app. simpl. set_solver. }
    { apply Forall_app. split; [by apply Hhold|].
      apply Forall_cons. split; [done|by apply Hhold]. }
    rewrite fmap_app in W2. simpl in W2.
    eapply reaches_trans; [exists m2; exact W2|].
    eapply reaches_step.
    { apply step_loop_end; [simpl; tauto|]. exact F2. }
    simpl f_k.
    eapply reaches_trans; [eexists; apply steps_says|].
    eapply reaches_step.
    { apply step_return. simpl. rewrite (upd_next _ _ _ _ _ U).
      apply (linked_next _ _ _ _ L2). }
    rewrite Hw3.
    (* the walk from [a] to the sentinel *)
    assert (results (args2 args) (ds1 ++ (a, None) :: ds2)
            = results (args2 args) (ds1 ++ ds2)) as Hres.
    { by rewrite !results_app. }
    assert (outputs (args2 args) (ds1 ++ (a, None) :: ds2)
            = outputs (args2 args) ds1 ++ outputs (args2 args) ds2) as Hout.
    { by rewrite outputs_app. }
    assert (called (ds1 ++ (a, None) :: ds2) = called ds1 ++ called ds2)
      as Hcal.
    { by rewrite called_app. }
    rewrite Hres, Hout, Hcal. fold r2.
    destruct (walk_quiet this al ag k condition_all args stk w3 vs
                (m_head w) (Hd0 : 0 ≤ m_recursionDepth w3 < SIZE_MOD)
                (λ _, eq_refl) ds2 a
                (aggregate ag (rA args r2)
                   (aggregate_all ag (results args ds1) (agg_init ag)))
                ((((ac ++ outputs args ds1) ++
                   outputs (args2 args) ds1 ++ outputs (args2 args) ds2)) ++
                 oA args r2)
                (((iv ++ called ds1) ++ [a]) ++ called ds1 ++ called ds2))
      as (m3 & W3).
    { simpl. apply proj2 in R3. apply linked_app in R3 as [_ R3]. exact R3. }
    { done. }
    { by apply Hhold. }
    eapply reaches_trans; [exists m3; exact W3|].
    eapply reaches_step.
    { apply step_loop_end; [simpl; tauto|]. exact E'. }
    rewrite aggregate_all_app. simpl. rewrite <- !app_assoc. simpl.
    apply reaches_refl.
  - assert (active (heap w3) (ds1.*1 ++ a :: ds2.*1)
            = called ds1 ++ called ds2) as <-; [|done].
    change (a :: ds2.*1) with ([a] ++ ds2.*1). rewrite !active_app.
    rewrite !(active_called h') by by apply Hhold.
    f_equal. unfold active. rewrite filter_cons_False; [done|].
    unfold empty_slot. simpl. by rewrite Ha'.
  - simpl. apply F1; [set_solver|]. unfold empty_slot. simpl. by rewrite Ha'.
  - done.
  - done.
Qed.

(** ** A slot that throws *)

(** X15.  A slot disconnects itself and throws, in an emission made from
    outside any slot, the other slots leaving the signal alone.  The
    exception leaves [emit]: the slots behind are not called and the nodes
    whose removal is deferred are not deleted, so that the node of the
    slot is still in the ring, [connected] still answers true for its
    handle, and the flag stays set.  The next emission passes over the
    node, calls all the other slots, and deletes it when it returns. *)
Theorem slot_that_throws w ds1 a ds2 (e : Exn)
    ag args (k : agg_out ag → @prog Args Result Exn Tag)
    (stk : list frame_t) ac vs iv
    ag' args' (k' : agg_out ag' → @prog Args Result Exn Tag)
    (stk' : list frame_t) ac' vs' iv' :
  ring_of w (ds1.*1 ++ a :: ds2.*1) →
  holds (heap w) ds1 → holds (heap w) ds2 →
  get_function a (heap w)
  = Some (Some (λ _, Disconnect (this, a) (λ _, Throw e))) →
  m_recursionDepth w = 0 →
  ∃ w1,
    reaches this al
      (Config (Run (Emit ag condition_all args k)) stk w ac vs iv)
      (Config (Run (Throw e)) stk w1 (ac ++ outputs args ds1) vs
         (iv ++ called ds1 ++ [a])) ∧
    ring_of w1 (ds1.*1 ++ a :: ds2.*1) ∧
    connected this (this, a) w1 = Some true ∧
    empty_slot (heap w1) a = true ∧
    m_deactivations w1 = true ∧ m_recursionDepth w1 = 0 ∧
    ∃ w2,
      reaches this al
        (Config (Run (Emit ag' condition_all args' k')) stk' w1 ac' vs' iv')
        (Config
           (Run (k' (agg_get ag'
                       (aggregate_all ag'
                          (results args' ds1 ++ results args' ds2)
                          (agg_init ag')))))
           stk' w2 (ac' ++ outputs args' ds1 ++ outputs args' ds2) vs'
           (iv' ++ called ds1 ++ called ds2)) ∧
      ring_of w2 (called ds1 ++ called ds2) ∧
      heap w2 !! a = None ∧
      m_deactivations w2 = false ∧ m_recursionDepth w2 = 0.
Proof.
  intros R H1 H2 Ha Hd.
  assert (m_head w ≠ nullptr) as Hh.
  { apply (ring_of_elem_head w a _ R). set_solver. }
  pose proof SIZE_MOD_pos as HM.
  assert (2 < SIZE_MOD) as HM1 by (unfold SIZE_MOD; lia).
  assert (0 ≤ m_recursionDepth w < SIZE_MOD) as Hd0 by lia.
  pose proof R as R0. apply ring_of_ring in R0; [|done].
  pose proof R0 as [N L].
  pose proof L as L0. apply linked_app in L0 as [L1 L2].
  assert ((m_head w ∉ ds1.*1) ∧ a ≠ m_head w ∧ (m_head w ∉ ds2.*1) ∧
          (a ∉ ds1.*1) ∧ (a ∉ ds2.*1))
    as (Hh1 & Hah & Hh2 & Ha1 & Ha2).
  { apply NoDup_cons in N as [N N']. apply NoDup_app in N' as (_ & N1 & N2).
    apply NoDup_cons in N2 as [N2 _]. split_and!; set_solver. }
  destruct (step_disconnect_running a (enter w) _ R) as (h' & U & Ed).
  { set_solver. }
  { simpl. rewrite Hd, size_incr_small by lia. lia. }
  simpl in U.
  set (w2 := set_deactivations true (set_heap h' (enter w))).
  set (w3 := set_deactivations true (set_heap h' w)).
  assert (leave w2 = w3) as Hw3.
  { unfold leave, enter, w2, w3, set_depth, set_deactivations, set_heap.
    simpl. rewrite size_decr_incr by lia. by rewrite Hd. }
  assert (ring h' (m_head w) (ds1.*1 ++ a :: ds2.*1)) as R3.
  { eapply ring_frame; [| |exact R0]; intros u _; apply U. }
  assert (ring_of w3 (ds1.*1 ++ a :: ds2.*1)) as R3' by by apply ring_of_ring.
  assert (∀ ds, a ∉ ds.*1 → holds (heap w) ds → holds h' ds) as Hhold.
  { intros ds Hds H. rewrite <- (deactivated_absent a ds Hds).
    revert H. apply holds_deactivated. apply U. }
  assert (get_function a h' = Some None) as Ha'.
  { rewrite (upd_function _ _ _ _ _ U). by rewrite decide_True. }
  pose proof (emit_finish_spec w3 _ R3' Hh) as F.
  rewrite decide_True in F by (simpl; by rewrite Hd).
  destruct F as (h'' & E' & R' & F1 & _).
  exists w3. split_and!; try done.
  - eapply reaches_step.
    { apply step_emit; [done|]. rewrite (linked_next _ _ _ _ L).
      by rewrite hd_app_cons. }
    destruct (walk_quiet this al ag k condition_all args stk w vs a Hd0
                (λ _, eq_refl) ds1 (m_head w) (agg_init ag) ac iv)
      as (m1 & W1); [done..|].
    eapply reaches_trans; [by exists m1|].
    eapply reaches_step; [by apply step_loop_call|]. simpl f_args.
    eapply reaches_step; [by apply Ed|]. fold w2.
    eapply (reaches_step _ _ _
              (Config (Run (Throw e)) stk (leave w2) (ac ++ outputs args ds1)
                 vs ((iv ++ called ds1) ++ [a])));
      [reflexivity|].
    rewrite Hw3, <- app_assoc. apply reaches_refl.
  - rewrite (connected_spec this _ w3 _ R3'). simpl.
    rewrite bool_decide_true; [done|]. set_solver.
  - unfold empty_slot. simpl. by rewrite Ha'.
  - exists (set_deactivations false (set_heap h'' w3)). split_and!; try done.
    + eapply reaches_step.
      { apply step_emit; [done|]. simpl.
        rewrite (linked_next _ _ _ _ (proj2 R3)). done. }
      destruct (walk_quiet this al ag' k' condition_all args' stk' w3 vs'
                  (m_head w) (Hd0 : 0 ≤ m_recursionDepth w3 < SIZE_MOD)
                  (λ _, eq_refl) (ds1 ++ (a, None) :: ds2) (m_head w)
                  (agg_init ag') ac' iv')
        as (m2 & W2).
      { rewrite fmap_app. simpl. apply R3. }
      { rewrite fmap_app. simpl. set_solver. }
      { apply Forall_app. split; [by apply Hhold|].
        apply Forall_cons. split; [done|by apply Hhold]. }
      rewrite fmap_app in W2. simpl in W2.
      eapply reaches_trans; [exists m2; exact W2|].
      eapply reaches_step.
      { apply step_loop_end; [simpl; tauto|]. exact E'. }
      rewrite !results_app, outputs_app, called_app. simpl.
      apply reaches_refl.
    + assert (active (heap w3) (ds1.*1 ++ a :: ds2.*1)
              = called ds1 ++ called ds2) as <-; [|done].
      change (a :: ds2.*1) with ([a] ++ ds2.*1). rewrite !active_app.
      rewrite !(active_called h') by by apply Hhold.
      f_equal. unfold active. rewrite filter_cons_False; [done|].
      unfold empty_slot. simpl. by rewrite Ha'.
    + simpl. apply F1; [set_solver|]. unfold empty_slot. simpl.
      by rewrite Ha'.
Qed.

End Emission.

(** * Runs *)

Section Runs.

Context {Args Result Exn Tag : Type}.
Variable this : ptr.
Variable al : allocator.

Abbreviation config_t := (@config Args Result Exn Tag).
Implicit Types c : config_t.
Implicit Types l : list ptr.

(** X13.  No run uses a node that is not live.  From a well-formed
    configuration, whatever the program and the slots do, every
    configuration of the run can make its next step, unless the program
    has come to its end: the code of the signal never follows a pointer to
    a node that has been deleted, and every loop finds the node on which
    it stands. *)
Theorem runs_use_live_nodes_only c c' l :
  Inv c l → rtc (sstep this al) c c' →
  (∃ c'', step this al c' = Some c'') ∨
  (stack c' = [] ∧
   ((∃ r, ctl c' = Run (Return r)) ∨ (∃ e, ctl c' = Run (Throw e)))).
Proof.
  intros I Hrun. destruct (run_inv this al c c' l I Hrun) as (l' & I').
  by apply (step_progress this al c' l').
Qed.

Lemma sparing_keeps x g c c' l :
  Inv c l → x ∈ l → get_function x (heap (st c)) = Some (Some g) →
  sparing this al x c c' →
  ∃ l', Inv c' l' ∧ x ∈ l' ∧ get_function x (heap (st c')) = Some (Some g).
Proof.
  intros I Hx Hg [S Hk].
  destruct (sstep_inv this al _ _ _ I S) as (l' & I' & Ch).
  exists l'. split; [done|].
  assert (empty_slot (heap (st c)) x = false) as He.
  { unfold empty_slot. by rewrite Hg. }
  destruct Ch as [H1 H2 H3|f p k Hc H1 H2 H3 H4 H5 H6
                 |l1 y l2 k Hc H0 H1 H2 H3 H4 H5
                 |y k Hc H0 H1 H2 H3 H4 H5|fr Hc Hend H0 H1 H2 H3 H4 H5].
  - subst l'. by rewrite H1.
  - subst l'. split; [set_solver|]. by rewrite H5.
  - assert (x ≠ y) as Hxy by (intros ->; by apply (Hk k)).
    subst l l'. split; [set_solver|]. by rewrite H4.
  - assert (x ≠ y) as Hxy by (intros ->; by apply (Hk k)).
    subst l'. split; [done|]. by rewrite H4.
  - subst l'. split; [by apply active_elem|]. rewrite H4; [done|].
    intros [_ He']. congruence.
Qed.

(** X14.  A connection that holds a slot, that is, a function that is not
    empty, stays as it is until it is disconnected.  In a run in which
    [disconnect] is not called for the node [x], the code that owns the
    signal does not hand the address of the sentinel to [disconnect] and
    the call stack stays within [std::size_t], whatever else the program
    and the slots do (connect, disconnect other slots, emit, throw,
    sweep), the node stays in the ring and holds the function with which
    it was connected, and [connected] answers true for its handle.  A node
    that was connected with the empty function is not kept so: the sweep
    at the end of an emission deletes it with the deactivated nodes. *)
Theorem connection_persists x g c c' l :
  Inv c l → x ∈ l → get_function x (heap (st c)) = Some (Some g) →
  rtc (sparing this al x) c c' →
  ∃ l', Inv c' l' ∧ x ∈ l' ∧
    get_function x (heap (st c')) = Some (Some g) ∧
    connected this (this, x) (st c') = Some true.
Proof.
  intros I Hx Hg Hrun. revert l I Hx Hg.
  induction Hrun as [c|c c1 c' H1 Hrun IH]; intros l I Hx Hg.
  - exists l. split_and!; try done.
    rewrite (connected_spec this _ _ l (inv_ring _ _ I)). simpl.
    by rewrite bool_decide_true.
  - destruct (sparing_keeps x g c c1 l I Hx Hg H1) as (l1 & I1 & Hx1 & Hg1).
    by apply (IH l1).
Qed.

End Runs.

(** * What the aggregations return *)

Section Aggregations.

Context {Result : Type}.
Implicit Types rs : list Result.

Lemma last_fold rs (acc : Result) :
  foldl (λ _ r, r) acc rs = default acc (last rs).
Proof.
  destruct rs as [|r rs _] using rev_ind; [done|].
  by rewrite foldl_app, last_snoc.
Qed.

Lemma collation_fold rs (acc : list Result) :
  foldl (λ s r, s ++ [r]) acc rs = acc ++ rs.
Proof.
  revert acc. induction rs as [|r rs IH]; intros acc; simpl.
  - by rewrite app_nil_r.
  - by rewrite IH, <- app_assoc.
Qed.

Lemma counter_fold rs (acc : Z) :
  0 ≤ acc < SIZE_MOD →
  foldl (λ s (_ : Result), size_incr s) acc rs
  = (acc + Z.of_nat (length rs)) mod SIZE_MOD.
Proof.
  revert acc. induction rs as [|r rs IH]; intros acc Hacc; simpl foldl.
  - simpl. rewrite Z.add_0_r. by rewrite Z.mod_small.
  - rewrite IH.
    + unfold size_incr. rewrite Zplus_mod_idemp_l. f_equal.
      simpl length. lia.
    + unfold size_incr. apply Z.mod_pos_bound. unfold SIZE_MOD. lia.
Qed.

(** X10.  What [get] returns after [aggregate] has been called with the
    results [rs] one after the other, on a fresh aggregation object:
    [aggregation_last] the last of them, and a value-initialised result if
    there is none; [aggregation_collation] all of them in the order of the
    calls; [aggregation_counter] their number, up to the wrap-around of
    [std::size_t]. *)
Theorem aggregations_return rs (dflt : Result) :
  agg_get (aggregation_last dflt)
    (aggregate_all (aggregation_last dflt) rs (agg_init (aggregation_last dflt)))
  = default dflt (last rs) ∧
  agg_get aggregation_collation
    (aggregate_all aggregation_collation rs (agg_init aggregation_collation))
  = rs ∧
  agg_get aggregation_counter
    (aggregate_all (@aggregation_counter Result) rs
       (agg_init aggregation_counter))
  = Z.of_nat (length rs) mod SIZE_MOD.
Proof.
  unfold aggregate_all. simpl. split_and!.
  - apply last_fold.
  - apply collation_fold.
  - rewrite counter_fold; [done|]. unfold SIZE_MOD. lia.
Qed.

End Aggregations.

(** * Worked examples *)

Module Demo.

Definition this : ptr := 100%N.

Abbreviation prog_t := (@prog Z bool unit nat).
Abbreviation world_t := (@world Z bool unit nat).
Abbreviation config_t := (@config Z bool unit nat).

Definition yes : Z → prog_t := quiet (λ _, [1%nat]) (λ _, true).
Definition no : Z → prog_t := quiet (λ _, [2%nat]) (λ _, false).
Definition never : Z → prog_t := fun _ => Throw tt.

(** The slot that connects [no] and returns true. *)
Definition grow : Z → prog_t :=
  fun args => Connect (Some (quiet (λ _, [2%nat]) (λ _, false)))
                (λ _, says [1%nat] true).

Definition connected_to (fs : list (@slot_type Z bool unit nat)) : world_t :=
  foldl (λ w f, from_option snd w (connect this first_fit f w)) signal_new fs.

(** The signal after [connect(yes)]. *)
Definition one_slot : world_t := connected_to [Some yes].

(** The same signal while one of its slots is running. *)
Definition one_slot_running : world_t := enter one_slot.

(** A signal without earlier slots. *)
Definition nothing : list (@descr Z bool nat) := [].

(** The frame of an [emit] that stands on the node [nd]. *)
Definition on_node (nd : ptr) : @frame Z bool unit nat :=
  Frame (aggregation_last false) false Return condition_all 0 nd true.

(** The slot of node 2 has just called [disconnect] on its own node. *)
Definition after_deferred : config_t :=
  Config (Run (Return true)) [on_node 2%N]
    (from_option snd one_slot_running
       (disconnect this (this, 2%N) one_slot_running))
    [] ∅ [2%N].

(** The outermost [emit] at the end of its walk, a node deactivated. *)
Definition at_end : config_t := steps this first_fit 1 after_deferred.

(** A slot is throwing. *)
Definition throwing : config_t :=
  Config (Run (Throw tt)) [on_node 2%N] one_slot_running [] ∅ [2%N].

Lemma connected_iff_reachable_witness :
  connected this (this, 2%N) one_slot
  = Some (bool_decide ((this, 2%N).1 = this ∧ (this, 2%N).2 ∈ [2%N])).
Proof.
  apply (connected_iff_reachable this (this, 2%N) one_slot [2%N]).
  compute_done.
Defined.

Lemma disconnect_again_during_emission_witness :
  ∃ w1, disconnect this (this, 2%N) one_slot_running = Some (true, w1) ∧
    ring_of w1 [2%N] ∧ empty_slot (heap w1) 2%N = true ∧
    m_deactivations w1 = true ∧
    m_recursionDepth w1 = m_recursionDepth one_slot_running ∧
    disconnect this (this, 2%N) w1 = Some (true, w1).
Proof.
  apply (disconnect_again_during_emission this 2%N one_slot_running [2%N]);
    compute_done.
Defined.

Lemma disconnect_matches_sentinel_witness :
  connected this (this, m_head one_slot) one_slot = Some false ∧
  ∃ w', disconnect this (this, m_head one_slot) one_slot = Some (true, w') ∧
    m_head w' = m_head one_slot ∧
    (m_recursionDepth one_slot = 0 → heap w' !! m_head w' = None) ∧
    (m_recursionDepth one_slot ≠ 0 → m_deactivations w' = true).
Proof.
  apply (disconnect_matches_sentinel this one_slot [2%N]); compute_done.
Defined.

(** The sentinel of [one_slot] is at address 1: [disconnect] deletes it. *)
Example disconnect_sentinel_deletes_it :
  m_head one_slot = 1%N ∧
  ∃ w', disconnect this (this, 1%N) one_slot = Some (true, w') ∧
    m_head w' = 1%N ∧ heap w' !! 1%N = None ∧
    connected this (this, 2%N) w' = None.
Proof. split; [done|]. eexists. split; [vm_compute; reflexivity|]. done. Qed.

Lemma Inv_after_deferred : Inv after_deferred [2%N].
Proof. compute_done. Qed.

Lemma Inv_at_end : Inv at_end [2%N].
Proof. compute_done. Qed.

Lemma Inv_throwing : Inv throwing [2%N].
Proof. compute_done. Qed.

Lemma sweep_only_after_outermost_emit_witness :
  (∀ fr, ctl at_end = Loop fr →
         ¬ (f_node fr ≠ m_head (st at_end) ∧ f_ok fr = true) →
     ∃ c', step this first_fit at_end = Some c' ∧
       ctl c' = Run (f_k fr (agg_get (f_ag fr) (f_acc fr))) ∧
       stack c' = stack at_end ∧
       (stack at_end ≠ [] → st c' = st at_end) ∧
       if decide (m_recursionDepth (st at_end) = 0 ∧
                  m_deactivations (st at_end) = true)
       then stack at_end = [] ∧
            ring_of (st c') (active (heap (st at_end)) [2%N]) ∧
            m_deactivations (st c') = false ∧
            (∀ x, x ∈ [2%N] → empty_slot (heap (st at_end)) x = true →
                  heap (st c') !! x = None) ∧
            (∀ x, x ∈ active (heap (st at_end)) [2%N] →
                  get_function x (heap (st c'))
                  = get_function x (heap (st at_end)))
       else st c' = st at_end) ∧
  (∀ c', rtc (emission_step this first_fit) at_end c' →
     ∃ l', Inv c' l' ∧ (∃ l'', l' = [2%N] ++ l'') ∧
       (∀ x, x ∈ [2%N] → empty_slot (heap (st at_end)) x = true →
             empty_slot (heap (st c')) x = true) ∧
       (m_deactivations (st at_end) = true →
        m_deactivations (st c') = true)).
Proof.
  apply (sweep_only_after_outermost_emit this first_fit at_end [2%N]).
  compute_done.
Defined.

(** At [at_end] the sweep is made: node 2 is deleted, the flag cleared. *)
Example sweep_at_end :
  m_deactivations (st at_end) = true ∧
  empty_slot (heap (st at_end)) 2%N = true ∧
  ∃ c', step this first_fit at_end = Some c' ∧
    ring_of (st c') [] ∧ heap (st c') !! 2%N = None ∧
    m_deactivations (st c') = false.
Proof.
  split; [done|]. split; [done|]. eexists.
  split; [vm_compute; reflexivity|]. split; [compute_done|done].
Qed.

Lemma error_leaves_signal_valid_witness :
  (∀ fr stk, stack throwing = fr :: stk →
     step this first_fit throwing
     = Some (Config (Run (Throw tt)) stk (leave (st throwing))
               (accu throwing) (vars throwing) (invoked throwing)) ∧
     m_recursionDepth (leave (st throwing))
     = m_recursionDepth (st throwing) - 1) ∧
  ∃ c', steps this first_fit (length (stack throwing)) throwing = c' ∧
    step this first_fit c' = None ∧
    ctl c' = Run (Throw tt) ∧ stack c' = [] ∧
    invoked c' = invoked throwing ∧ accu c' = accu throwing ∧
    heap (st c') = heap (st throwing) ∧
    m_head (st c') = m_head (st throwing) ∧
    m_deactivations (st c') = m_deactivations (st throwing) ∧
    m_recursionDepth (st c') = 0 ∧
    Inv c' [2%N] ∧
    ∀ p, Inv (Config (Run p) [] (st c') (accu c') (vars c') (invoked c'))
           [2%N].
Proof.
  apply (error_leaves_signal_valid this first_fit throwing [2%N] tt).
  - compute_done.
  - reflexivity.
Defined.

Lemma counter_counts_invocations_witness :
  m_recursionDepth (st at_end) = Z.of_nat (length (stack at_end)) ∧
  ∀ c'', bstep this first_fit at_end c'' → counter_step at_end c''.
Proof.
  apply (counter_counts_invocations this first_fit after_deferred at_end).
  - reflexivity.
  - reflexivity.
  - apply rtc_once. split; [reflexivity|reflexivity].
Defined.

(** [connect] of the empty function on a new signal: node 2 is made and
    put in the ring, its slot is empty though [disconnect] was never
    called, and the handle that is returned is a connected one. *)
Lemma connect_empty_function_inserts_node :
  ∃ w', connect this first_fit None (@signal_new Z bool unit nat)
        = Some ((this, 2%N), w') ∧
    (this, 2%N) ≠ (nullptr, nullptr) ∧
    w' ≠ signal_new ∧
    ring_of w' [2%N] ∧
    empty_slot (heap w') 2%N = true ∧
    m_deactivations w' = false ∧
    connected this (this, 2%N) w' = Some true.
Proof.
  eexists. split; [vm_compute; reflexivity|].
  split_and!; try done. compute_done.
Qed.

(** The owner of [one_slot] connects the empty function and emits. *)
Definition connecting_empty : config_t :=
  Config
    (Run (Connect None
            (λ _, Emit (aggregation_last false) condition_all 0 Return)))
    [] one_slot [] ∅ [].

Lemma empty_slot_iff_deactivated_or_connected_empty_witness :
  (∀ (C : Type) (mf : C → Z → prog_t) w,
     connect_ptr this first_fit None mf w = Some ((nullptr, nullptr), w) ∧
     (this ≠ nullptr →
      ∀ l, ring_of w l → connected this (nullptr, nullptr) w = Some false)) ∧
  (∀ f (w : world_t) l, ring_of w l →
     ∃ p w', connect this first_fit f w = Some ((this, p), w') ∧
       ring_of w' (l ++ [p]) ∧ get_function p (heap w') = Some f ∧
       connected this (this, p) w' = Some true) ∧
  (∀ (c : config_t) x,
     rtc (sstep this first_fit) connecting_empty c →
     in_ring (st c) x ∧ empty_slot (heap (st c)) x = true ↔
     emptied this first_fit x connecting_empty c).
Proof.
  apply (empty_slot_iff_deactivated_or_connected_empty this first_fit
           connecting_empty [2%N]).
  - compute_done.
  - intros x Hx. apply list_elem_of_singleton in Hx. subst x. reflexivity.
Defined.

(** In the run from [connecting_empty] the first step makes the node 3 for
    the empty function: it is in the ring, its slot is empty, and no
    [disconnect] has been called. *)
Example connecting_empty_makes_empty_node :
  Inv connecting_empty [2%N] ∧
  sstep this first_fit connecting_empty (steps this first_fit 1 connecting_empty) ∧
  ring_of (st (steps this first_fit 1 connecting_empty)) [2%N; 3%N] ∧
  empty_slot (heap (st (steps this first_fit 1 connecting_empty))) 3%N = true ∧
  emptied this first_fit 3%N connecting_empty
    (steps this first_fit 1 connecting_empty).
Proof.
  assert (sstep this first_fit connecting_empty
            (steps this first_fit 1 connecting_empty)) as S.
  { split; [reflexivity|]. split; [|reflexivity].
    intros (_ & _ & k & Hk). discriminate Hk. }
  split; [compute_done|]. split; [done|]. split; [compute_done|].
  split; [reflexivity|].
  eapply (emptied_connect _ _ _ _ connecting_empty); [done|done|reflexivity| |].
  - intros (l & R & Hx).
    assert (ring_of (st connecting_empty) [2%N]) as R2 by compute_done.
    rewrite (ring_of_inj _ _ _ R R2) in Hx.
    apply list_elem_of_singleton in Hx. discriminate Hx.
  - exists [2%N; 3%N]. split; [compute_done|]. set_solver.
Qed.

Lemma slots_called_in_connection_order_witness :
  ∃ n a b c w',
    steps this first_fit n
      (Config
         (Run (Connect (Some yes) (λ ha,
               Connect (Some no) (λ hb,
               Connect (Some yes) (λ hc,
               Emit aggregation_collation condition_all 0
                 (λ _, Return true))))))
         [] signal_new [] ∅ [])
    = Config
        (Run (Return true))
        [] w'
        ([] ++ outputs 0 nothing ++ [1%nat] ++ [2%nat] ++ [1%nat]) ∅
        ([] ++ called nothing ++ [a; b; c]) ∧
    NoDup (nothing.*1 ++ [a; b; c]) ∧
    m_recursionDepth w' = 0.
Proof.
  apply (slots_called_in_connection_order this first_fit signal_new nothing
           (λ _, [1%nat]) (λ _, true) (λ _, [2%nat]) (λ _, false)
           (λ _, [1%nat]) (λ _, true) aggregation_collation 0
           (λ _ _ _ _, Return true) [] ∅ []).
  - reflexivity.
  - apply Forall_nil_2.
  - reflexivity.
Defined.

Lemma slot_connected_by_slot_is_called_in_same_emission_witness :
  ∃ b w1 w',
    connect this first_fit (Some (quiet (λ _, [2%nat]) (λ _, false)))
      (enter (connected_to [Some grow])) = Some ((this, b), w1) ∧
    heap (connected_to [Some grow]) !! b = None ∧
    ring_of w1 ((nothing.*1 ++ 2%N :: nothing.*1) ++ [b]) ∧
    reaches this first_fit
      (Config (Run (Emit aggregation_collation condition_all 0 (λ _, Return true)))
         [] (connected_to [Some grow]) [] ∅ [])
      (Config (Run (Return true)) [] w'
         ([] ++ outputs 0 nothing ++ [1%nat] ++ outputs 0 nothing ++ [2%nat]) ∅
         ([] ++ called nothing ++ 2%N :: called nothing ++ [b])).
Proof.
  apply (proj2 (slot_connected_by_slot_is_called_in_same_emission
                  this first_fit)
           (connected_to [Some grow]) nothing 2%N nothing
           (λ _, [1%nat]) (λ _, true)
           (λ _, [2%nat]) (λ _, false) aggregation_collation 0
           (λ _, Return true) [] [] ∅ []).
  - compute_done.
  - apply Forall_nil_2.
  - apply Forall_nil_2.
  - reflexivity.
  - compute_done.
Defined.

Lemma last_while_true_halts_after_false_witness :
  (4%N ∉ [2%N; 3%N]) ∧
  ∃ w',
    reaches this first_fit
      (Config (Run (Emit (aggregation_last false) (condition_while true) 0
                      Return))
         [] (connected_to [Some yes; Some no; Some never]) [] ∅ [])
      (Config (Run (Return false)) [] w' ([] ++ [1%nat] ++ [2%nat]) ∅
         ([] ++ [2%N; 3%N])).
Proof.
  apply (last_while_true_halts_after_false this first_fit
           (connected_to [Some yes; Some no; Some never]) 2%N 3%N 4%N
           (λ _, [1%nat]) (λ _, true) (λ _, [2%nat]) (λ _, false) false 0
           Return [] [] ∅ []).
  - compute_done.
  - reflexivity.
  - reflexivity.
  - reflexivity.
  - reflexivity.
  - compute_done.
Defined.

End Demo.
(** * More worked examples *)

Module Usage.

Import Demo.

(** Three slots that leave the signal alone, in the nodes 2, 3 and 4. *)
Definition three : world_t :=
  connected_to [Some yes; Some no; Some yes].

Definition three_slots : list (@descr Z bool nat) :=
  [(2%N, Some ((λ _, [1%nat]), (λ _, true)));
   (3%N, Some ((λ _, [2%nat]), (λ _, false)));
   (4%N, Some ((λ _, [1%nat]), (λ _, true)))].

(** The slot that disconnects the node 4, writes and returns true. *)
Definition drop : Z → prog_t :=
  fun args => Disconnect (this, 4%N) (λ _, says [3%nat] true).

(** The slot that disconnects itself (it is in the node 3), emits again
    and writes how many slots that emission has called. *)
Definition again : Z → prog_t :=
  fun args =>
    Disconnect (this, 3%N)
      (λ _, Emit aggregation_counter condition_all (args + 1)
              (λ r, says [Z.to_nat r] true)).

(** The slot that disconnects itself (it is in the node 3) and throws. *)
Definition quit : Z → prog_t :=
  fun _ => Disconnect (this, 3%N) (λ _, Throw tt).

Definition first_slot : list (@descr Z bool nat) :=
  [(2%N, Some ((λ _, [1%nat]), (λ _, true)))].

Definition last_slot : list (@descr Z bool nat) :=
  [(4%N, Some ((λ _, [2%nat]), (λ _, false)))].

(** A slot of [one_slot] is about to return. *)
Definition returning : config_t :=
  Config (Run (Return true)) [on_node 2%N] one_slot_running [] ∅ [2%N].

(** A slot of [one_slot] is about to disconnect itself. *)
Definition leaving : config_t :=
  Config (Run (Disconnect (this, 2%N) Return)) [on_node 2%N]
    one_slot_running [] ∅ [2%N].

(** The slot has returned. *)
Definition returned : config_t := steps this first_fit 1 returning.

(** The signals whose second slot is [drop], and [again]. *)
Definition dropping : world_t := connected_to [Some yes; Some drop; Some no].
Definition emitting_again : world_t :=
  connected_to [Some yes; Some again; Some no].
Definition quitting : world_t := connected_to [Some yes; Some quit; Some no].

Lemma connect_then_disconnect_restores_witness :
  ∃ con w1, connect this first_fit (Some no) one_slot = Some (con, w1) ∧
    connected this con w1 = Some true ∧
    disconnect this con w1 = Some (true, one_slot).
Proof.
  apply (connect_then_disconnect_restores this first_fit (Some no) one_slot
           [2%N]).
  - compute_done.
  - compute_done.
  - reflexivity.
Defined.

Lemma signal_memory_is_its_ring_witness :
  ∃ l', Inv at_end l' ∧
    outside (st at_end) l' = outside (st after_deferred) [2%N].
Proof.
  apply (signal_memory_is_its_ring this first_fit after_deferred at_end [2%N]).
  - compute_done.
  - apply rtc_once. split; [reflexivity|]. split; [|reflexivity].
    intros [H _]. discriminate H.
Defined.

Lemma destructor_frees_the_ring_witness :
  destroy 3 three = Some (outside three [2%N; 3%N; 4%N]) ∧
  (m_head three = nullptr → destroy 3 three = Some (heap three)) ∧
  ∀ u, u ∈ nodes three [2%N; 3%N; 4%N] →
       outside three [2%N; 3%N; 4%N] !! u = None.
Proof.
  apply (destructor_frees_the_ring three [2%N; 3%N; 4%N] 3).
  - compute_done.
  - reflexivity.
  - simpl. lia.
Defined.

Lemma destructor_in_slot_never_ends_witness :
  destroy_test one_slot_running = Some true ∧
  (∃ w', destroy_body one_slot_running = Some w' ∧ ring_of w' [2%N] ∧
     m_recursionDepth w' = m_recursionDepth one_slot_running ∧
     destroy_test w' = Some true) ∧
  ∀ fuel, destroy fuel one_slot_running = None.
Proof.
  apply (destructor_in_slot_never_ends one_slot_running [2%N]).
  - compute_done.
  - discriminate.
  - compute_done.
Defined.

Lemma no_node_outlives_the_signal_witness :
  destroy (size (heap (st at_end))) (st at_end)
  = Some (outside (st after_deferred) [2%N]).
Proof.
  apply (no_node_outlives_the_signal this first_fit after_deferred at_end
           [2%N]).
  - compute_done.
  - apply rtc_once. split; [reflexivity|]. split; [|reflexivity].
    intros [H _]. discriminate H.
  - reflexivity.
Defined.

Lemma other_handles_keep_their_answer_witness :
  (∀ f : @slot_type Z bool unit nat,
     ∃ con w', connect this first_fit f one_slot = Some (con, w') ∧
       connected this con one_slot = Some false ∧
       connected this con w' = Some true ∧
       ∀ con', con' ≠ con →
         connected this con' w' = connected this con' one_slot) ∧
  (∀ (con : connection_handler) b w',
     (con.1 = this → con.2 ≠ m_head one_slot ∨ m_head one_slot = nullptr) →
     disconnect this con one_slot = Some (b, w') →
     connected this con one_slot = Some b ∧
     ∀ con', con' ≠ con →
       connected this con' w' = connected this con' one_slot).
Proof.
  apply (other_handles_keep_their_answer this first_fit one_slot [2%N]).
  compute_done.
Defined.

Lemma slot_disconnected_during_emission_is_not_called_witness :
  ∃ c1, step this first_fit leaving = Some c1 ∧ ctl c1 = Run (Return true) ∧
    invoked c1 = invoked leaving ∧
    ∀ c', rtc (emission_step this first_fit) c1 c' →
      ∃ t, invoked c' = invoked leaving ++ t ∧ 2%N ∉ t.
Proof.
  apply (slot_disconnected_during_emission_is_not_called this first_fit
           leaving [2%N] 2%N Return).
  - compute_done.
  - discriminate.
  - compute_done.
  - reflexivity.
Defined.

Lemma emission_stops_after_rejected_result_witness :
  ∃ n w',
    steps this first_fit n
      (Config (Run (Emit aggregation_collation (condition_while true) 0
                      (λ _, Return true)))
         [] three [] ∅ [])
    = Config
        (Run ((λ _, Return true)
                (agg_get aggregation_collation
                   (aggregate_all aggregation_collation
                      (results 0 (walked (condition_while true) 0 three_slots))
                      (agg_init aggregation_collation)))))
        [] w' ([] ++ outputs 0 (walked (condition_while true) 0 three_slots))
        ∅ ([] ++ called (walked (condition_while true) 0 three_slots)) ∧
    if decide (m_head three ≠ nullptr ∧ m_recursionDepth three = 0 ∧
               m_deactivations three = true)
    then ring_of w' (called three_slots) ∧ m_deactivations w' = false ∧
         m_recursionDepth w' = 0 ∧
         ∀ d, d ∈ three_slots → d.2 = None → heap w' !! d.1 = None
    else w' = three.
Proof.
  apply (emission_stops_after_rejected_result this first_fit three three_slots
           aggregation_collation (condition_while true) 0 (λ _, Return true)
           [] [] ∅ []).
  - compute_done.
  - repeat (apply Forall_cons; split; [reflexivity|]). apply Forall_nil_2.
  - compute_done.
Defined.

(** In [three] the emission calls the nodes 2 and 3 and stops: the result
    of the second slot is in the collation. *)
Example emission_stops_in_three :
  called (walked (condition_while true) 0 three_slots) = [2%N; 3%N] ∧
  results 0 (walked (condition_while true) 0 three_slots) = [true; false].
Proof. done. Qed.

Lemma slot_that_disconnects_a_slot_witness :
  ∃ w',
    reaches this first_fit
      (Config (Run (Emit aggregation_collation condition_all 0
                      (λ _, Return true)))
         [] dropping [] ∅ [])
      (Config
         (Run ((λ _, Return true)
                 (agg_get aggregation_collation
                    (aggregate_all aggregation_collation
                       (results 0 first_slot ++ true ::
                        results 0 (deactivated 4%N last_slot))
                       (agg_init aggregation_collation)))))
         [] w'
         ([] ++ outputs 0 first_slot ++ [3%nat] ++
          outputs 0 (deactivated 4%N last_slot))
         ∅
         ([] ++ called first_slot ++ 3%N :: called (deactivated 4%N last_slot))) ∧
    ring_of w' (called (deactivated 4%N first_slot) ++
                (if decide (4%N = 3%N) then [] else [3%N]) ++
                called (deactivated 4%N last_slot)) ∧
    heap w' !! 4%N = None ∧
    m_deactivations w' = false ∧ m_recursionDepth w' = 0.
Proof.
  apply (slot_that_disconnects_a_slot this first_fit dropping first_slot 3%N
           last_slot 4%N (λ _ _, [3%nat]) (λ _ _, true)
           aggregation_collation 0 (λ _, Return true) [] [] ∅ []).
  - compute_done.
  - apply Forall_singleton. reflexivity.
  - apply Forall_singleton. reflexivity.
  - reflexivity.
  - compute_done.
  - reflexivity.
Defined.

(** In [dropping] the nodes 2 and 3 are called, and they are the ring
    afterwards. *)
Example dropping_calls :
  called first_slot ++ 3%N :: called (deactivated 4%N last_slot) = [2%N; 3%N] ∧
  called (deactivated 4%N first_slot) ++
  (if decide (4%N = 3%N) then [] else [3%N]) ++
  called (deactivated 4%N last_slot) = [2%N; 3%N].
Proof. done. Qed.

Lemma slot_that_emits_again_witness :
  let r2 := agg_get (@aggregation_counter bool)
              (aggregate_all aggregation_counter
                 (results ((λ args, args + 1) 0) (first_slot ++ last_slot))
                 (agg_init aggregation_counter)) in
  ∃ w',
    reaches this first_fit
      (Config (Run (Emit aggregation_collation condition_all 0
                      (λ _, Return true)))
         [] emitting_again [] ∅ [])
      (Config
         (Run ((λ _, Return true)
                 (agg_get aggregation_collation
                    (aggregate_all aggregation_collation
                       (results 0 first_slot ++ true :: results 0 last_slot)
                       (agg_init aggregation_collation)))))
         [] w'
         ([] ++ outputs 0 first_slot ++
          (outputs ((λ args, args + 1) 0) first_slot ++
           outputs ((λ args, args + 1) 0) last_slot) ++
          [Z.to_nat r2] ++ outputs 0 last_slot)
         ∅
         ([] ++ called first_slot ++ 3%N ::
          (called first_slot ++ called last_slot) ++ called last_slot)) ∧
    ring_of w' (called first_slot ++ called last_slot) ∧
    heap w' !! 3%N = None ∧
    m_deactivations w' = false ∧ m_recursionDepth w' = 0.
Proof.
  apply (slot_that_emits_again this first_fit emitting_again first_slot 3%N
           last_slot aggregation_counter (λ args, args + 1)
           (λ _ r, [Z.to_nat r]) (λ _ _, true)
           aggregation_collation 0 (λ _, Return true) [] [] ∅ []).
  - compute_done.
  - apply Forall_singleton. reflexivity.
  - apply Forall_singleton. reflexivity.
  - reflexivity.
  - reflexivity.
Defined.

(** In [emitting_again] the calls go to the nodes 2, 3, then 2 and 4 by
    the inner emission, which has called two slots, then 4. *)
Example emitting_again_calls :
  called first_slot ++ 3%N ::
    (called first_slot ++ called last_slot) ++ called last_slot
  = [2%N; 3%N; 2%N; 4%N; 4%N] ∧
  agg_get (@aggregation_counter bool)
    (aggregate_all aggregation_counter
       (results 1 (first_slot ++ last_slot)) (agg_init aggregation_counter))
  = 2.
Proof. done. Qed.

Lemma slot_that_throws_witness :
  ∃ w1,
    reaches this first_fit
      (Config (Run (Emit aggregation_collation condition_all 0
                      (λ _, Return true)))
         [] quitting [] ∅ [])
      (Config (Run (Throw tt)) [] w1 ([] ++ outputs 0 first_slot) ∅
         ([] ++ called first_slot ++ [3%N])) ∧
    ring_of w1 (first_slot.*1 ++ 3%N :: last_slot.*1) ∧
    connected this (this, 3%N) w1 = Some true ∧
    empty_slot (heap w1) 3%N = true ∧
    m_deactivations w1 = true ∧ m_recursionDepth w1 = 0 ∧
    ∃ w2,
      reaches this first_fit
        (Config (Run (Emit aggregation_collation condition_all 1
                        (λ _, Return true)))
           [] w1 [] ∅ [])
        (Config
           (Run ((λ _, Return true)
                   (agg_get aggregation_collation
                      (aggregate_all aggregation_collation
                         (results 1 first_slot ++ results 1 last_slot)
                         (agg_init aggregation_collation)))))
           [] w2 ([] ++ outputs 1 first_slot ++ outputs 1 last_slot) ∅
           ([] ++ called first_slot ++ called last_slot)) ∧
      ring_of w2 (called first_slot ++ called last_slot) ∧
      heap w2 !! 3%N = None ∧
      m_deactivations w2 = false ∧ m_recursionDepth w2 = 0.
Proof.
  apply (slot_that_throws this first_fit quitting first_slot 3%N last_slot tt
           aggregation_collation 0 (λ _, Return true) [] [] ∅ []
           aggregation_collation 1 (λ _, Return true) [] [] ∅ []).
  - compute_done.
  - apply Forall_singleton. reflexivity.
  - apply Forall_singleton. reflexivity.
  - reflexivity.
  - reflexivity.
Defined.

Lemma runs_use_live_nodes_only_witness :
  (∃ c'', step this first_fit at_end = Some c'') ∨
  (stack at_end = [] ∧
   ((∃ r, ctl at_end = Run (Return r)) ∨ (∃ e, ctl at_end = Run (Throw e)))).
Proof.
  apply (runs_use_live_nodes_only this first_fit after_deferred at_end [2%N]).
  - compute_done.
  - apply rtc_once. split; [reflexivity|]. split; [|reflexivity].
    intros [H _]. discriminate H.
Defined.

Lemma connection_persists_witness :
  ∃ l', Inv returned l' ∧ 2%N ∈ l' ∧
    get_function 2%N (heap (st returned)) = Some (Some yes) ∧
    connected this (this, 2%N) (st returned) = Some true.
Proof.
  apply (connection_persists this first_fit 2%N yes returning returned [2%N]).
  - compute_done.
  - compute_done.
  - reflexivity.
  - apply rtc_once. split; [|intros k; discriminate].
    split; [reflexivity|]. split; [|reflexivity].
    intros [H _]. discriminate H.
Defined.

End Usage.

(** * The tests of the repository, run on the model *)

Module Tests.

Definition this : ptr := 100%N.

(** ** [RecursiveManipulationAndExceptionTests] *)

Module Recursive.

(** The slots take [(a, thr)], return nothing, throw a message and write
    pairs [(i, a)] for [f]i[(a)] to [accu]; the variable [i] is [id]i. *)
Abbreviation prog_t := (@prog (Z * bool) unit string (Z * Z)).

Definition void : @aggregation unit := aggregation_void.

Definition f1 : Z * bool → prog_t :=
  fun '(a, _) => Say (1, a) (Return tt).

Definition f2 : Z * bool → prog_t :=
  fun '(a, _) =>
    Say (2, a)
      (if a =? 1 then Load 1 (λ id1, Disconnect id1 (λ _, Return tt))
       else Return tt).

Definition f3 : Z * bool → prog_t :=
  fun '(a, _) =>
    Say (3, a)
      (if a =? 1 then Connect (Some f1) (λ con, Store 1 con (Return tt))
       else Return tt).

Definition f6 : Z * bool → prog_t :=
  fun '(a, thr) =>
    Say (6, a)
      (if (a =? 2) && thr then Throw "f6(2) throws exception"%string
       else Return tt).

Definition f4 : Z * bool → prog_t :=
  fun '(a, _) =>
    Say (4, a)
      (if a =? 2 then Connect (Some f6) (λ con, Store 6 con (Return tt))
       else Return tt).

Definition f5 : Z * bool → prog_t :=
  fun '(a, thr) =>
    Say (5, a)
      (if a <? 3 then Emit void condition_all (a + 1, thr) (λ _, Return tt)
       else Return tt).

(** [run()] up to the exception. *)
Definition run_try : prog_t :=
  Connect (Some f1) (λ con, Store 1 con (
  Connect (Some f2) (λ con, Store 2 con (
  Connect (Some f3) (λ con, Store 3 con (
  Connect (Some f4) (λ con, Store 4 con (
  Connect (Some f5) (λ con, Store 5 con (
  Emit void condition_all (0, true) (λ _, Return tt))))))))))).

Definition thrown : @config (Z * bool) unit string (Z * Z) :=
  steps this first_fit 200 (start_config run_try signal_new).

(** [run()] after the [catch]. *)
Definition finished : @config (Z * bool) unit string (Z * Z) :=
  steps this first_fit 200
    (Config (Run (Emit void condition_all (0, false) (λ _, Return tt)))
       [] (st thrown) (accu thrown) (vars thrown) (invoked thrown)).

Definition expected : list (Z * Z) :=
  [ (1, 0); (2, 0); (3, 0); (4, 0); (5, 0);
    (1, 1); (2, 1); (3, 1); (4, 1); (5, 1);
    (2, 2); (3, 2); (4, 2); (5, 2);
    (2, 3); (3, 3); (4, 3); (5, 3); (1, 3); (6, 3);
    (1, 2); (6, 2);
    (2, 0); (3, 0); (4, 0); (5, 0);
    (2, 1); (3, 1); (4, 1); (5, 1);
    (2, 2); (3, 2); (4, 2); (5, 2);
    (2, 3); (3, 3); (4, 3); (5, 3); (6, 3); (1, 3); (6, 3);
    (6, 2); (1, 2); (6, 2);
    (6, 1); (1, 1); (6, 1);
    (6, 0); (1, 0); (6, 0) ].

Example exception_reaches_run :
  ctl thrown = Run (Throw "f6(2) throws exception"%string) ∧
  stack thrown = [] ∧ m_recursionDepth (st thrown) = 0 ∧
  m_deactivations (st thrown) = true.
Proof. vm_compute. done. Qed.

Example accu_is_expected :
  ctl finished = Run (Return tt) ∧ stack finished = [] ∧
  accu finished = expected ∧ m_deactivations (st finished) = false.
Proof. vm_compute. done. Qed.

End Recursive.

(** ** [BasicSignalTests]: the asserts on [connected] and [disconnect] *)

Module Basic.

Abbreviation prog_t := (@prog unit Z unit Z).

Definition callback (i : Z) : unit → prog_t := quiet (λ _, [i]) (λ _, 0).

(** The results of the calls, in the order of the asserts. *)
Definition run : prog_t :=
  Connect (Some (callback 1)) (λ id1,
  Connect (Some (callback 2)) (λ id2,
  Connect (Some (callback 3)) (λ id3,
  Emit (aggregation_last 0) condition_all tt (λ _,
  Connected id1 (λ r1, Disconnect id1 (λ r2,
  Connected id1 (λ r3, Disconnect id1 (λ r4,
  Connected id2 (λ r5, Disconnect id2 (λ r6,
  Connected id2 (λ r7, Disconnect id3 (λ r8,
  Disconnect id3 (λ r9, Disconnect id2 (λ r10,
  says (bool_to_Z <$> [r1; r2; r3; r4; r5; r6; r7; r8; r9; r10])
    0)))))))))))))).

Definition booleans : list bool :=
  [true; true; false; false; true; true; false; true; false; false].

Example asserts_hold :
  accu (steps this first_fit 100 (start_config run signal_new))
  = [1; 2; 3] ++ (bool_to_Z <$> booleans).
Proof. vm_compute. done. Qed.

End Basic.

(** ** [TestAggregationVector], [TestAggregationUntil0],
    [TestAggregationWhile0] *)

Module Aggregation.

Definition handler (i : Z) : unit → @prog unit Z unit unit :=
  quiet (λ _, []) (λ _, i).

Definition collate : @prog unit Z unit unit :=
  Connect (Some (handler 777)) (λ _,
  Connect (Some (handler 42)) (λ _,
  Connect (Some (handler 1)) (λ _,
  Connect (Some (handler 42)) (λ _,
  Connect (Some (handler 777)) (λ _,
  Emit aggregation_collation condition_all tt (λ results,
  if decide (results = [777; 42; 1; 42; 777]) then Return 1
  else Return 0)))))).

Example collation_in_order :
  ctl (steps this first_fit 100 (start_config collate signal_new))
  = Run (Return 1).
Proof. vm_compute. done. Qed.

(** [check1] is 1, [check2] is 2; [handler_abort] would write 3. *)
Definition handler_bool (i : nat) (b : bool) : unit → @prog unit bool unit nat :=
  quiet (λ _, [i]) (λ _, b).

Definition until0 : @prog unit bool unit nat :=
  Connect (Some (handler_bool 1 true)) (λ _,
  Connect (Some (handler_bool 2 false)) (λ _,
  Connect (Some (handler_bool 3 true)) (λ _,
  Emit (aggregation_last false) (condition_while true) tt Return))).

Definition while0 : @prog unit bool unit nat :=
  Connect (Some (handler_bool 1 false)) (λ _,
  Connect (Some (handler_bool 2 true)) (λ _,
  Connect (Some (handler_bool 3 true)) (λ _,
  Emit (aggregation_last false) (condition_while false) tt Return))).

Example until0_result :
  let c := steps this first_fit 100 (start_config until0 signal_new) in
  ctl c = Run (Return false) ∧ accu c = [1; 2]%nat.
Proof. vm_compute. done. Qed.

Example while0_result :
  let c := steps this first_fit 100 (start_config while0 signal_new) in
  ctl c = Run (Return true) ∧ accu c = [1; 2]%nat.
Proof. vm_compute. done. Qed.

End Aggregation.

End Tests.
